(** * webgl-loader: the mesh codec of [src/mesh.h]

    A shallow embedding of the index flattener, the draw batch builder,
    the bounds and quantization parameters, and the UTF-8 stream
    compressors of [mesh.h], with the properties the design document
    states about them.

    Conventions.
    - C++ [int], [uint16], [int16] and [size_t] values are integers of [Z];
      every conversion to a narrower type is written out ([to_uint16],
      [to_int16], [to_size_t]).  Signed [int] arithmetic is not wrapped:
      overflowing it is undefined in C++ and would need 2^31 vertices.
    - [std::vector] is a [list]; [std::map] is a [gmap]; the fixed arrays
      [float x[8]] are functions from the slot number.
    - [CHECK], [std::vector::at] and out-of-bounds [operator[]] are the
      three ways a call can stop; they are the constructors of [abort].
    - base.h and utf8.h are not among the sources at hand.  What mesh.h
      takes from them is named where it is used: the [CHECK] macro, the
      vector types, [struct DrawMesh], and the encoder [Uint16ToUtf8],
      which is a parameter throughout. *)

From Stdlib Require Import ZArith Lia.
From Equations Require Import Equations.
From stdpp Require Import base tactics option list gmap strings functions.

Local Open Scope Z_scope.

(** * The program

    The definitions of this part follow mesh.h, in its order. *)

(** ** Fixed-width integers *)

Definition to_uint16 (x : Z) : Z := x mod 65536.

Definition to_int16 (x : Z) : Z := (x + 32768) mod 65536 - 32768.

Definition to_size_t (x : Z) : Z := x mod 2 ^ 64.

(** ** Floats

    A [float] is its IEEE-754 binary32 bit pattern, an integer below 2^32:
    sign in bit 31, exponent in bits 30-23, fraction in bits 22-0. *)

Definition float : Type := Z.

Definition FLT_MAX : float := 0x7f7fffff.

Definition float_infinity : float := 0x7f800000.

Definition float_zero : float := 0.

Definition float_one : float := 0x3f800000.

Definition float_two : float := 0x40000000.

Definition float_nan : float := 0x7fc00000.

(** Unary minus flips the sign bit. *)
Definition float_neg (f : float) : float := Z.lxor f 0x80000000.

Definition float_magnitude (f : float) : Z := Z.land f 0x7fffffff.

Definition float_is_nan (f : float) : bool :=
  0x7f800000 <? float_magnitude f.

(** The place of a float that is not a NaN on the number line; both
    zeros are at 0. *)
Definition float_key (f : float) : Z :=
  if Z.testbit f 31 then - float_magnitude f else float_magnitude f.

(** [a > b]: false as soon as one side is a NaN. *)
Definition float_gt (a b : float) : bool :=
  negb (float_is_nan a) && negb (float_is_nan b) &&
  (float_key b <? float_key a).

(** ** Ways to stop: [CHECK] failure, [at] out of range, undefined access *)

Inductive abort : Type :=
  | check_failed
  | out_of_range
  | undefined_access.

Inductive outcome (A : Type) : Type :=
  | Done (a : A)
  | Abort (e : abort).

Arguments Done {A} a.

Arguments Abort {A} e.

#[global] Instance outcome_ret : MRet outcome := fun _ a => Done a.

#[global] Instance outcome_bind : MBind outcome := fun _ _ k m =>
  match m with
  | Done a => k a
  | Abort e => Abort e
  end.

(** Modelled from the spec: the [CHECK] macro of base.h, which is missing.
    Section 7 of the design document makes a violated invariant a fatal
    failure that aborts the encoding: go on when the predicate holds,
    leave the process otherwise. *)
Definition CHECK (pred : bool) : outcome unit :=
  if pred then Done tt else Abort check_failed.

(** ** The index flattener (mesh.h, lines 111-230) *)

Definition kIndexUnknown : Z := -1.

Definition kIndexNotInTable : Z := -2.

(** [struct IndexType].  In [table_] the first field is a flat index or
    one of the two marks above; as a key of [map_] the struct is the
    triple (position, texcoord, normal) itself, which is how the keys are
    written here: [operator<] is the lexicographic order on the three
    fields and [operator==] their equality, so [lower_bound] followed by
    the comparison with the key is the lookup of the triple. *)
Record IndexType : Type := {
  position_or_flat : Z;
  texcoord : Z;
  normal : Z
}.

Definition IndexType_default : IndexType :=
  {| position_or_flat := kIndexUnknown;
     texcoord := kIndexUnknown;
     normal := kIndexUnknown |}.

Record IndexFlattener : Type := {
  count_ : Z;
  table_ : list IndexType;
  map_ : gmap (Z * Z * Z) Z
}.

(** [IndexFlattener(num_positions)] *)
Definition IndexFlattener_new (num_positions : nat) : IndexFlattener :=
  {| count_ := 0;
     table_ := replicate num_positions IndexType_default;
     map_ := ∅ |}.

Definition count (f : IndexFlattener) : Z := count_ f.

(** [std::map::insert] leaves an entry that is already there. *)
Definition map_insert (key : Z * Z * Z) (value : Z) (m : gmap (Z * Z * Z) Z)
  : gmap (Z * Z * Z) Z :=
  match m !! key with
  | Some _ => m
  | None => <[key := value]> m
  end.

Definition GetFlattenedIndexFromMap (position_index texcoord_index
    normal_index : Z) (f : IndexFlattener) : (Z * bool) * IndexFlattener :=
  let index := (position_index, texcoord_index, normal_index) in
  match map_ f !! index with
  | None =>
      let flat_index := count_ f in
      ((flat_index, true),
       {| count_ := count_ f + 1;
          table_ := table_ f;
          map_ := <[index := flat_index]> (map_ f) |})
  | Some flat => ((flat, false), f)
  end.

(** [table_[position_index]] with a negative index is outside the vector:
    the call is stopped there.  [count_++] is not wrapped. *)
Definition GetFlattenedIndex (position_index texcoord_index normal_index : Z)
    (f : IndexFlattener) : outcome ((Z * bool) * IndexFlattener) :=
  let table :=
    if Z.of_nat (length (table_ f)) <=? position_index
    then resize (Z.to_nat (position_index + 1)) IndexType_default (table_ f)
    else table_ f in
  if position_index <? 0 then Abort undefined_access else
  match table !! Z.to_nat position_index with
  | None => Abort undefined_access
  | Some index =>
      if position_or_flat index =? kIndexUnknown then
        let flat_index := count_ f in
        Done ((flat_index, true),
              {| count_ := count_ f + 1;
                 table_ := <[Z.to_nat position_index :=
                               {| position_or_flat := flat_index;
                                  texcoord := texcoord_index;
                                  normal := normal_index |}]> table;
                 map_ := map_ f |})
      else if position_or_flat index =? kIndexNotInTable then
        Done (GetFlattenedIndexFromMap position_index texcoord_index
                normal_index
                {| count_ := count_ f; table_ := table; map_ := map_ f |})
      else if (texcoord index =? texcoord_index)
              && (normal index =? normal_index) then
        Done ((position_or_flat index, false),
              {| count_ := count_ f; table_ := table; map_ := map_ f |})
      else
        let old_index := (position_index, texcoord index, normal index) in
        let map1 := map_insert old_index (position_or_flat index) (map_ f) in
        let table1 :=
          <[Z.to_nat position_index :=
              {| position_or_flat := kIndexNotInTable;
                 texcoord := texcoord index;
                 normal := normal index |}]> table in
        let new_index := (position_index, texcoord_index, normal_index) in
        let flat_index := count_ f in
        let map2 := map_insert new_index flat_index map1 in
        Done ((flat_index, true),
              {| count_ := count_ f + 1; table_ := table1; map_ := map2 |})
  end.

(** A sequence of calls on one flattener, with the pairs returned. *)
Fixpoint GetFlattenedIndex_calls (calls : list (Z * Z * Z))
    (f : IndexFlattener) : outcome (list (Z * bool) * IndexFlattener) :=
  match calls with
  | [] => Done ([], f)
  | (position_index, texcoord_index, normal_index) :: calls' =>
      r ← GetFlattenedIndex position_index texcoord_index normal_index f;
      rs ← GetFlattenedIndex_calls calls' r.2;
      mret (r.1 :: rs.1, rs.2)
  end.

(** ** The draw batch builder (mesh.h, lines 233-294) *)

Definition positionDim : Z := 3.

Definition texcoordDim : Z := 2.

Definition normalDim : Z := 3.

(** Modelled from the spec: [struct DrawMesh] of base.h, which is
    missing.  Section 4.2 of the design document gives a group one
    growing interleaved attribute buffer and one growing index list. *)
Record DrawMesh : Type := {
  attribs : list float;
  indices : list Z
}.

(** The three buffers [positions_], [texcoords_] and [normals_] point to
    belong to the parser, which goes on filling them between two faces:
    a call sees them as they are when it is made. *)
Record Sources : Type := {
  positions_ : list float;
  texcoords_ : list float;
  normals_ : list float
}.

Record DrawBatch : Type := {
  draw_mesh_ : DrawMesh;
  flattener_ : IndexFlattener
}.

(** [DrawBatch()] *)
Definition DrawBatch_new : DrawBatch :=
  {| draw_mesh_ := {| attribs := []; indices := [] |};
     flattener_ := IndexFlattener_new 0 |}.

(** [v->at(index)], the index a [size_t]. *)
Definition vector_at (v : list float) (index : Z) : outcome float :=
  match v !! Z.to_nat index with
  | Some x => Done x
  | None => Abort out_of_range
  end.

(** [for (i = first; i < first + todo; ++i)
       attribs.push_back(source->at(dim * index + i));]
    with [index] an [int] converted to [size_t] by the product. *)
Fixpoint push_back_from (source : list float) (dim index : Z) (todo : nat)
    (i : Z) (attribs : list float) : outcome (list float) :=
  match todo with
  | O => Done attribs
  | S todo' =>
      x ← vector_at source (to_size_t (dim * to_size_t index + i));
      push_back_from source dim index todo' (i + 1) (attribs ++ [x])
  end.

(** [for (i = 0; i < dim; ++i) attribs.push_back(0);] *)
Definition push_back_zeros (dim : Z) (attribs : list float) : list float :=
  attribs ++ replicate (Z.to_nat dim) float_zero.

(** The body of the loop of [AddTriangle] for the vertex whose three
    1-based indices are given. *)
Definition AddVertex (src : Sources) (index0 index1 index2 : Z)
    (b : DrawBatch) : outcome DrawBatch :=
  let position_index := index0 - 1 in
  let texcoord_index := index1 - 1 in
  let normal_index := index2 - 1 in
  match GetFlattenedIndex position_index texcoord_index normal_index
          (flattener_ b) with
  | Abort e => Abort e
  | Done (flat_index, is_new, flattener') =>
  let indices' := indices (draw_mesh_ b) ++ [flat_index] in
  if is_new then
    a ← push_back_from (positions_ src) positionDim position_index
          (Z.to_nat positionDim) 0 (attribs (draw_mesh_ b));
    a ← (if texcoord_index =? -1 then Done (push_back_zeros texcoordDim a)
         else push_back_from (texcoords_ src) texcoordDim texcoord_index
                (Z.to_nat texcoordDim) 0 a);
    a ← (if normal_index =? -1 then Done (push_back_zeros normalDim a)
         else push_back_from (normals_ src) normalDim normal_index
                (Z.to_nat normalDim) 0 a);
    Done {| draw_mesh_ := {| attribs := a; indices := indices' |};
            flattener_ := flattener' |}
  else
    Done {| draw_mesh_ := {| attribs := attribs (draw_mesh_ b);
                             indices := indices' |};
            flattener_ := flattener' |}
  end.

(** [AddTriangle(int* indices)]: [raw] is the array of 9 ints. *)
Definition AddTriangle (src : Sources) (raw : list Z) (b : DrawBatch)
  : outcome DrawBatch :=
  b ← AddVertex src (raw !!! 0%nat) (raw !!! 1%nat) (raw !!! 2%nat) b;
  b ← AddVertex src (raw !!! 3%nat) (raw !!! 4%nat) (raw !!! 5%nat) b;
  AddVertex src (raw !!! 6%nat) (raw !!! 7%nat) (raw !!! 8%nat) b.

(** A sequence of calls, each with the buffers as they are then. *)
Fixpoint AddTriangle_calls (calls : list (Sources * list Z)) (b : DrawBatch)
  : outcome DrawBatch :=
  match calls with
  | [] => Done b
  | (src, raw) :: calls' =>
      b' ← AddTriangle src raw b; AddTriangle_calls calls' b'
  end.

(** ** Bounds and quantization parameters (mesh.h, lines 624-709) *)

Record Bounds : Type := {
  mins : nat -> float;
  maxes : nat -> float
}.

Definition Clear (b : Bounds) : Bounds :=
  foldl (fun b i =>
           {| mins := <[i := FLT_MAX]> (mins b);
              maxes := <[i := float_neg FLT_MAX]> (maxes b) |})
        b (seq 0 8).

Record BoundsParams : Type := {
  offsets : nat -> float;
  scales : nat -> float;
  bits : nat -> Z
}.

Section Quantization.

(** Subtraction of floats, with its rounding, is left open: what follows
    holds for any. *)
Variable float_sub : float -> float -> float.

Definition UniformScaleFromBounds (bounds : Bounds) : float :=
  let x := float_sub (maxes bounds 0%nat) (mins bounds 0%nat) in
  let y := float_sub (maxes bounds 1%nat) (mins bounds 1%nat) in
  let z := float_sub (maxes bounds 2%nat) (mins bounds 2%nat) in
  if float_gt x y
  then (if float_gt x z then x else z)
  else (if float_gt y z then y else z).

(** [BoundsParams ret;] starts from whatever the memory holds. *)
Variable uninitialized : BoundsParams.

Definition FromBounds (bounds : Bounds) : BoundsParams :=
  let ret := uninitialized in
  let scale := UniformScaleFromBounds bounds in
  let ret :=
    foldl (fun ret i =>
             {| offsets := <[i := float_neg (mins bounds i)]> (offsets ret);
                scales := <[i := scale]> (scales ret);
                bits := <[i := 14]> (bits ret) |})
          ret (seq 0 3) in
  let ret :=
    foldl (fun ret i =>
             {| offsets := <[i := float_neg (mins bounds i)]> (offsets ret);
                scales := <[i := float_sub (maxes bounds i) (mins bounds i)]>
                            (scales ret);
                bits := <[i := 10]> (bits ret) |})
          ret (seq 3 2) in
  let ret :=
    foldl (fun ret i =>
             {| offsets := <[i := float_one]> (offsets ret);
                scales := <[i := float_two]> (scales ret);
                bits := <[i := 10]> (bits ret) |})
          ret (seq 5 3) in
  ret.

End Quantization.

(** ** ZigZag (mesh.h, lines 725-727)

    [word] is promoted to [int]; [>>] on a negative [int] is the
    arithmetic shift, as [Z.shiftr]; the result is converted to [uint16]. *)

Definition ZigZag (word : Z) : Z :=
  to_uint16 (Z.lxor (Z.shiftr word 15) (Z.shiftl word 1)).

(** ** The UTF-8 compressors (mesh.h, lines 729-760)

    utf8.h is not among the sources at hand, so the encoder is a
    parameter: [Uint16ToUtf8 word utf8] stands for the call
    [bool Uint16ToUtf8(uint16 word, std::vector<char>* utf8)] and gives the
    flag returned together with the buffer afterwards.  The type of the
    buffer is left open, which lets a caller observe the words handed to
    the encoder (see [trace_word]).  The element types of
    [OptimizedIndexList] and [QuantizedAttribList] are declared in base.h;
    an element is used through [const int index = list[i]] and
    [const uint16 word = attribs[j]], and the lists below hold the
    integers so read. *)

Section Compressors.

Context {buffer : Type}.

Variable Uint16ToUtf8 : Z -> buffer -> bool * buffer.

(** [CHECK(Uint16ToUtf8(word, utf8))], the argument converted to uint16. *)
Definition emit (word : Z) (utf8 : buffer) : outcome buffer :=
  let r := Uint16ToUtf8 (to_uint16 word) utf8 in
  CHECK r.1;; mret r.2.

(** The words of a list handed to the encoder one after the other. *)
Fixpoint emit_all (words : list Z) (utf8 : buffer) : outcome buffer :=
  match words with
  | [] => Done utf8
  | w :: words' => utf8' ← emit w utf8; emit_all words' utf8'
  end.

(** The loop of [CompressIndicesToUtf8], from a given high water mark.
    [index_high_water_mark] is a uint16: [++] wraps at 65536. *)
Fixpoint CompressIndices_loop (index_high_water_mark : Z) (list : list Z)
    (utf8 : buffer) : outcome buffer :=
  match list with
  | [] => Done utf8
  | index :: rest =>
      CHECK (0 <=? index);;
      CHECK (index <=? index_high_water_mark);;
      utf8' ← emit (index_high_water_mark - index) utf8;
      CompressIndices_loop
        (if index =? index_high_water_mark
         then to_uint16 (index_high_water_mark + 1)
         else index_high_water_mark)
        rest utf8'
  end.

Definition CompressIndicesToUtf8 (list : list Z) (utf8 : buffer)
  : outcome buffer :=
  CompressIndices_loop 0 list utf8.

(** The inner loop of [CompressQuantizedAttribsToUtf8],
    [for (j = i; j < attribs.size(); j += 8)]; it ends because
    [attribs.size() - j] decreases. *)
Equations? channel_loop (attribs : list Z) (j : nat) (prev : Z)
    (utf8 : buffer) : outcome buffer by wf (length attribs - j)%nat lt :=
  channel_loop attribs j prev utf8 with decide (j < length attribs)%nat => {
    | right _ => Done utf8
    | left _
        with emit (ZigZag (to_int16 (to_uint16 (attribs !!! j) - prev))) utf8 => {
        | Abort e => Abort e
        | Done utf8' =>
            channel_loop attribs (j + 8) (to_uint16 (attribs !!! j)) utf8' } }.
Proof. lia. Qed.

(** The outer loop, [for (i = 0; i < 8; ++i)], counted by the number of
    channels still to do. *)
Fixpoint channels_loop (todo : nat) (attribs : list Z) (i : nat)
    (utf8 : buffer) : outcome buffer :=
  match todo with
  | O => Done utf8
  | S todo' =>
      utf8' ← channel_loop attribs i 0 utf8;
      channels_loop todo' attribs (S i) utf8'
  end.

Definition CompressQuantizedAttribsToUtf8 (attribs : list Z) (utf8 : buffer)
  : outcome buffer :=
  channels_loop 8 attribs 0 utf8.

End Compressors.

(** ** The stream assembler (mesh.h, lines 762-777)

    [CompressSimpleMeshToFile] is the one function of the codec that
    touches the world: it writes a file.  A process is a function of the
    files on disk, giving the outcome and the files afterwards; a [CHECK]
    that fails leaves with the files as they are at that point.  Whether a
    name can be opened for writing is a matter of the world too (the
    directory has to be there, and to allow it): it is the parameter
    [can_open] below. *)

Definition process (A : Type) : Type :=
  gmap string (list Byte.byte) ->
  outcome A * gmap string (list Byte.byte).

#[global] Instance process_ret : MRet process := fun _ a fs => (Done a, fs).

#[global] Instance process_bind : MBind process := fun _ _ k m fs =>
  match m fs with
  | (Done a, fs') => k a fs'
  | (Abort e, fs') => (Abort e, fs')
  end.

(** A computation that works in memory only. *)
Definition in_memory {A} (m : outcome A) : process A := fun fs => (m, fs).

(** [fopen(fn, "wb")]: when the file can be opened, it is created or cut
    to length zero, and the handle is its name; when it cannot, the call
    returns [NULL], which is [None], and no file is touched. *)
Definition fopen_wb (can_open : string -> bool) (fn : string)
  : process (option string) :=
  fun fs =>
    if can_open fn then (Done (Some fn), <[fn := []]> fs) else (Done None, fs).

(** [fwrite(data, 1, size, fp)]: the bytes go to the end of the file; with
    [NULL] for [fp] the call is undefined, and writes nothing. *)
Definition fwrite (data : list Byte.byte) (fp : option string) : process unit :=
  fun fs =>
    match fp with
    | Some fp => (Done tt, <[fp := default [] (fs !! fp) ++ data]> fs)
    | None => (Abort undefined_access, fs)
    end.

Definition fclose (fp : option string) : process unit :=
  fun fs =>
    match fp with
    | Some _ => (Done tt, fs)
    | None => (Abort undefined_access, fs)
    end.

Section StreamAssembler.

(** Modelled from the spec: utf8.h is missing; section 6 of the design
    document gives the encoder as a function from a 16-bit value to the
    bytes it produces.  [encode_varint w] is [None] when the call returns
    false, and otherwise the bytes pushed onto the buffer. *)
Variable encode_varint : Z -> option (list Byte.byte).

Definition Uint16ToUtf8_bytes (word : Z) (utf8 : list Byte.byte)
  : bool * list Byte.byte :=
  match encode_varint word with
  | Some bytes => (true, utf8 ++ bytes)
  | None => (false, utf8)
  end.

(** The names [fopen] can open for writing. *)
Variable can_open : string -> bool.

(** What [fopen] returns is not tested: it goes to [fwrite] as it is. *)
Definition CompressSimpleMeshToFile (attribs indices : list Z) (fn : string)
  : process unit :=
  in_memory (CHECK (Z.land (Z.of_nat (length attribs)) 7 =? 0));;
  let num_verts := Z.of_nat (length attribs) / 8 in
  in_memory (CHECK (0 <? num_verts));;
  in_memory (CHECK (num_verts <? 65536));;
  utf8 ← in_memory (emit Uint16ToUtf8_bytes (num_verts - 1) []);
  utf8 ← in_memory
           (CompressQuantizedAttribsToUtf8 Uint16ToUtf8_bytes attribs utf8);
  utf8 ← in_memory (CompressIndicesToUtf8 Uint16ToUtf8_bytes indices utf8);
  fp ← fopen_wb can_open fn;
  fwrite utf8 fp;;
  fclose fp.

End StreamAssembler.

(** * More of mesh.h

    The functions around those above: the bounds computer, the pass that
    quantizes a whole buffer, and the lines of the .OBJ parser that fill
    the three buffers and the batch. *)

From Stdlib Require Import Ascii.

(** ** The loop nest over records

    [Bounds::Enclose] and [AttribsToQuantizedAttribs] share their loops,
    [for (i = 0; i < size; i += 8) for (j = 0; j < 8; ++j) body(i, j)]. *)

Section RecordLoops.

Context {S : Type}.

(** [for (j = first; j < first + todo; ++j) body(i, j)] *)
Fixpoint for_channels (todo : nat) (i j : nat)
    (body : nat -> nat -> S -> outcome S) (s : S) : outcome S :=
  match todo with
  | O => Done s
  | Datatypes.S todo' =>
      s' ← body i j s; for_channels todo' i (Datatypes.S j) body s'
  end.

(** [for (i = first; i < size; i += 8) for (j = 0; j < 8; ++j) body(i, j)];
    it ends because [size - i] decreases. *)
Equations? for_records (size i : nat) (body : nat -> nat -> S -> outcome S)
    (s : S) : outcome S by wf (size - i)%nat lt :=
  for_records size i body s with decide (i < size)%nat => {
    | right _ => Done s
    | left _ with for_channels 8 i 0 body s => {
        | Abort e => Abort e
        | Done s' => for_records size (i + 8) body s' } }.
Proof. lia. Qed.

End RecordLoops.

(** ** Bounds::Enclose (mesh.h, lines 635-647) *)

(** The body of the loops for channel [j] and the value read. *)
Definition enclose_value (j : nat) (attrib : float) (b : Bounds) : Bounds :=
  let mins' := if float_gt (mins b j) attrib
               then <[j := attrib]> (mins b) else mins b in
  let maxes' := if float_gt attrib (maxes b j)
                then <[j := attrib]> (maxes b) else maxes b in
  {| mins := mins'; maxes := maxes' |}.

(** [attribs[i + j]] past the end of the vector is an access outside it. *)
Definition Enclose (attribs : list float) (b : Bounds) : outcome Bounds :=
  for_records (length attribs) 0
    (fun i j b =>
       match attribs !! (i + j)%nat with
       | Some attrib => Done (enclose_value j attrib b)
       | None => Abort undefined_access
       end) b.

(** ** AttribsToQuantizedAttribs (mesh.h, lines 711-723) *)

Section QuantizeBuffer.

(** [Quantize] (lines 659-665) is float arithmetic from end to end
    ([ldexpf], a division, a cast); it is left open here, and what
    follows holds for any. *)
Variable Quantize : float -> float -> float -> Z -> Z.

(** [quantized_attribs] is the vector the caller passes; [resize] keeps
    what it holds up to the new size and pads with zeros. *)
Definition AttribsToQuantizedAttribs (interleaved_attribs : list float)
    (bounds_params : BoundsParams) (quantized_attribs : list Z)
  : outcome (list Z) :=
  let quantized :=
    resize (length interleaved_attribs) 0 quantized_attribs in
  for_records (length interleaved_attribs) 0
    (fun i j quantized =>
       match interleaved_attribs !! (i + j)%nat with
       | None => Abort undefined_access
       | Some f =>
           if decide (i + j < length quantized)%nat then
             Done (<[(i + j)%nat :=
                       Quantize f (offsets bounds_params j)
                         (scales bounds_params j) (bits bounds_params j)]>
                     quantized)
           else Abort out_of_range
       end) quantized.

End QuantizeBuffer.

(** ** The short float list (mesh.h, lines 61-109)

    A C string is the list of its characters before the terminator:
    [*line] is the head, or the terminator itself for the empty list, and
    [line + n] drops [n] characters. *)

Definition kMaxNumFloats : nat := 6.

Record ShortFloatList : Type := {
  a_ : nat -> float;
  size_ : nat
}.

Definition clear (l : ShortFloatList) : ShortFloatList :=
  {| a_ := foldl (fun a i => <[i := float_zero]> a) (a_ l)
             (seq 0 kMaxNumFloats);
     size_ := size_ l |}.

(** [ShortFloatList()]: [size_(0)], then [clear()] over whatever the
    array holds. *)
Definition ShortFloatList_new (garbage : nat -> float) : ShortFloatList :=
  clear {| a_ := garbage; size_ := 0 |}.

Section ShortFloats.

(** [strtof] of the C library: [strtof line] is the value returned
    together with the number of characters read, which is what [endptr]
    is ahead of [line] afterwards; [line == endptr] when it is 0.  The
    library always sets [endptr], so the test [endptr == NULL] never
    holds. *)
Variable strtof : list ascii -> float * nat.

(** The loop of [ParseLine], counted by the rounds left until
    [size_ == kMaxNumFloats]. *)
Fixpoint ParseLine_loop (todo : nat) (line : list ascii) (l : ShortFloatList)
  : ShortFloatList :=
  match todo with
  | O => l
  | S todo' =>
      let r := strtof line in
      let a := <[size_ l := r.1]> (a_ l) in
      if (r.2 =? 0)%nat then {| a_ := a; size_ := size_ l |}
      else ParseLine_loop todo' (drop r.2 line)
             {| a_ := a; size_ := S (size_ l) |}
  end.

(** [ParseLine(line)]: the size returned, and the list afterwards. *)
Definition ParseLine (line : list ascii) (l : ShortFloatList)
  : nat * ShortFloatList :=
  let l' := ParseLine_loop kMaxNumFloats line {| a_ := a_ l; size_ := 0 |} in
  (size_ l', l').

End ShortFloats.

Definition empty (l : ShortFloatList) : bool := (size_ l =? 0)%nat.

Definition size (l : ShortFloatList) : nat := size_ l.

(** [attribs->insert(attribs->end(), a_, a_ + sz)]; the array has
    [kMaxNumFloats] cells. *)
Definition AppendNTo (l : ShortFloatList) (attribs : list float) (sz : nat)
  : outcome (list float) :=
  if decide (sz <= kMaxNumFloats)%nat then Done (attribs ++ (a_ l <$> seq 0 sz))
  else Abort undefined_access.

Definition AppendTo (l : ShortFloatList) (attribs : list float)
  : outcome (list float) :=
  AppendNTo l attribs (size_ l).

(** ** Attribute and face lines of the .OBJ parser (mesh.h, lines 454-549)

    What a line does to the parser: it goes on, it goes on after a warning
    on the error stream ([WarnLine]), it prints an error and leaves with
    [exit(-1)] ([ErrorLine]), or it is stopped inside [AddTriangle]. *)

Inductive parse_result (A : Type) : Type :=
  | Parsed (a : A)
  | Warned (why : string) (line_num : Z) (a : A)
  | Exited (why : string) (line_num : Z)
  | Stopped (e : abort).

Arguments Parsed {A} a.

Arguments Warned {A} why line_num a.

Arguments Exited {A} why line_num.

Arguments Stopped {A} e.

Definition appended {A} (r : outcome A) : parse_result A :=
  match r with
  | Done a => Parsed a
  | Abort e => Stopped e
  end.

(** [isspace] of the C library, in the "C" locale. *)
Definition isspace (c : ascii) : bool :=
  let n := nat_of_ascii c in
  (n =? 32)%nat || ((9 <=? n)%nat && (n <=? 13)%nat).

Definition ParsePosition (floats : ShortFloatList) (line_num : Z)
    (src : Sources) : parse_result Sources :=
  if negb (Z.of_nat (size floats) =? positionDim)
     && negb (Z.of_nat (size floats) =? 6)
  then Exited "bad position" line_num
  else
    appended (positions ← AppendNTo floats (positions_ src)
                            (Z.to_nat positionDim);
              mret {| positions_ := positions;
                      texcoords_ := texcoords_ src;
                      normals_ := normals_ src |}).

Definition ParseTexCoord (floats : ShortFloatList) (line_num : Z)
    (src : Sources) : parse_result Sources :=
  if (size floats <? 1)%nat || (3 <? size floats)%nat
  then Exited "bad texcoord" line_num
  else
    appended (texcoords ← AppendNTo floats (texcoords_ src)
                            (Z.to_nat texcoordDim);
              mret {| positions_ := positions_ src;
                      texcoords_ := texcoords;
                      normals_ := normals_ src |}).

Definition ParseNormal (floats : ShortFloatList) (line_num : Z)
    (src : Sources) : parse_result Sources :=
  if negb (Z.of_nat (size floats) =? normalDim)
  then Exited "bad normal" line_num
  else
    appended (normals ← AppendTo floats (normals_ src);
              mret {| positions_ := positions_ src;
                      texcoords_ := texcoords_ src;
                      normals_ := normals |}).

(** The string that starts at some place of a buffer, of which [bytes]
    are the bytes from that place to the end of the buffer: the characters
    before the first terminator.  [None] when there is no terminator:
    reading the string runs over the end of the buffer. *)
Fixpoint c_string (bytes : list ascii) : option (list ascii) :=
  match bytes with
  | [] => None
  | c :: rest =>
      if Ascii.eqb c Ascii.zero then Some [] else cons c <$> c_string rest
  end.

(** [*line], which is the terminator when the string is empty. *)
Definition first_char (line : list ascii) : ascii :=
  match line with
  | c :: _ => c
  | [] => Ascii.zero
  end.

(** The string at [line + 1], [behind] being the bytes of the buffer
    behind the terminator of [line]. *)
Definition string_behind (line behind : list ascii) : option (list ascii) :=
  match line with
  | _ :: rest => Some rest
  | [] => c_string behind
  end.

Section Attributes.

Variable strtof : list ascii -> float * nat.

(** What the array of a new [ShortFloatList] holds before the
    constructor clears it. *)
Variable garbage : nat -> float.

(** [ParseAttrib(line, line_num)], [line] being what follows the [v], and
    [behind] the bytes of the line buffer behind the terminator of
    [line].  [floats.ParseLine(line + 1)] comes first, before any look at
    the first character: when [line] is empty it reads the string behind
    the terminator, and leaves the buffer when there is none. *)
Definition ParseAttrib (line behind : list ascii) (line_num : Z) (src : Sources)
  : parse_result Sources :=
  match string_behind line behind with
  | None => Stopped undefined_access
  | Some rest =>
      let floats := (ParseLine strtof rest (ShortFloatList_new garbage)).2 in
      let c := first_char line in
      if isspace c then ParsePosition floats line_num src
      else if Ascii.eqb c "t" then ParseTexCoord floats line_num src
      else if Ascii.eqb c "n" then ParseNormal floats line_num src
      else Warned "unknown attribute format" line_num src
  end.

End Attributes.

Section Faces.

(** [strtoint] is declared in base.h, which is not among the sources at
    hand, so it is a parameter: [strtoint str] is the [int] returned and
    what [*endptr] is afterwards, [None] for [NULL]. *)
Variable strtoint : list ascii -> Z * option (list ascii).

(** [*endptr == '/'] for an [endptr] that is not [NULL], with the string
    behind the slash. *)
Definition after_slash (endptr : option (list ascii)) : option (list ascii) :=
  match endptr with
  | Some (c :: rest) => if Ascii.eqb c "/" then Some rest else None
  | _ => None
  end.

(** [ParseIndices]: the three [int]s behind the pointers afterwards, given
    what they held before, and the pointer returned. *)
Definition ParseIndices (line : list ascii) (held : Z * Z * Z)
  : (Z * Z * Z) * option (list ascii) :=
  let r := strtoint line in
  let position_index := r.1 in
  if position_index =? 0 then ((position_index, held.1.2, held.2), None)
  else
    let endptr := r.2 in
    let '(texcoord_index, normal_index, endptr) :=
      match after_slash endptr with
      | Some rest => let r := strtoint rest in (r.1, held.2, r.2)
      | None => (0, 0, endptr)
      end in
    let '(normal_index, endptr) :=
      match after_slash endptr with
      | Some rest => let r := strtoint rest in (r.1, r.2)
      | None => (0, endptr)
      end in
    ((position_index, texcoord_index, normal_index), endptr).

(** The [while] loop of [ParseFace].  The number of rounds is not bounded
    by anything the function holds, so the loop is given a number of
    rounds it may make; [None] when they are used up. *)
Fixpoint ParseFace_loop (rounds : nat) (line : list ascii) (indices : list Z)
    (src : Sources) (current : DrawBatch) : option (parse_result DrawBatch) :=
  match rounds with
  | O => None
  | S rounds' =>
      let r := ParseIndices line
                 (indices !!! 6%nat, indices !!! 7%nat, indices !!! 8%nat) in
      let indices :=
        <[8%nat := r.1.2]> (<[7%nat := r.1.1.2]> (<[6%nat := r.1.1.1]> indices)) in
      match r.2 with
      | None => Some (Parsed current)
      | Some line' =>
          match AddTriangle src indices current with
          | Abort e => Some (Stopped e)
          | Done current' =>
              let indices :=
                <[5%nat := indices !!! 8%nat]>
                  (<[4%nat := indices !!! 7%nat]>
                     (<[3%nat := indices !!! 6%nat]> indices)) in
              let indices :=
                <[6%nat := 0]> (<[7%nat := 0]> (<[8%nat := 0]> indices)) in
              ParseFace_loop rounds' line' indices src current'
          end
      end
  end.

(** [ParseFace(line, line_num)], [line] being what follows the [f]; the
    batch is the one [current_] points to, and the three buffers are those
    of the parser. *)
Definition ParseFace (rounds : nat) (line : list ascii) (line_num : Z)
    (src : Sources) (current : DrawBatch) : option (parse_result DrawBatch) :=
  let line :=
    match line with
    | c :: rest => if Ascii.eqb c "o" then rest else line
    | [] => line
    end in
  let indices := replicate 9 0 in
  let r := ParseIndices line
             (indices !!! 0%nat, indices !!! 1%nat, indices !!! 2%nat) in
  let indices :=
    <[2%nat := r.1.2]> (<[1%nat := r.1.1.2]> (<[0%nat := r.1.1.1]> indices)) in
  match r.2 with
  | None => Some (Exited "bad first index" line_num)
  | Some line =>
      let r := ParseIndices line
                 (indices !!! 3%nat, indices !!! 4%nat, indices !!! 5%nat) in
      let indices :=
        <[5%nat := r.1.2]> (<[4%nat := r.1.1.2]> (<[3%nat := r.1.1.1]> indices)) in
      match r.2 with
      | None => Some (Exited "bad second index" line_num)
      | Some line => ParseFace_loop rounds line indices src current
      end
  end.

End Faces.

(** ** Reading a file line by line (mesh.h, lines 316-326 and 398-408) *)

Definition kLineBufferSize : nat := 256.

(** [unsigned int] *)
Definition to_unsigned (x : Z) : Z := x mod 2 ^ 32.

(** The C string a buffer holds: its characters before the first
    terminator. *)
Fixpoint c_str (buffer : list ascii) : list ascii :=
  match buffer with
  | [] => []
  | c :: rest => if Ascii.eqb c Ascii.zero then [] else c :: c_str rest
  end.

(** What [fgets] of the C library stores when there is room for [room]
    characters, and what is left of the stream: it stops behind the first
    newline. *)
Fixpoint fgets_chars (room : nat) (stream : list ascii)
  : list ascii * list ascii :=
  match room, stream with
  | S room', c :: rest =>
      if Ascii.eqb c "010" then ([c], rest)
      else let r := fgets_chars room' rest in (c :: r.1, r.2)
  | _, _ => ([], stream)
  end.

(** [fgets(buffer, size, fp)]: [None] for [NULL], at the end of the
    file. *)
Definition fgets (size : nat) (stream : list ascii)
  : option (list ascii * list ascii) :=
  match stream with
  | [] => None
  | _ => Some (fgets_chars (size - 1) stream)
  end.

(** The bytes of the array [fgets] has stored [read] in: the characters
    read, the terminator, and behind it what was there before. *)
Definition fgets_stores (read buffer : list ascii) : list ascii :=
  read ++ Ascii.zero :: drop (S (length read)) buffer.

(** The buffers the loop [while (fgets(buffer, kLineBufferSize, fp) !=
    NULL)] sees, one per round.  Every round takes something from the
    stream, so there are no more rounds than characters. *)
Fixpoint file_buffers_from (rounds : nat) (stream : list ascii)
  : list (list ascii) :=
  match rounds with
  | O => []
  | S rounds' =>
      match fgets kLineBufferSize stream with
      | None => []
      | Some r => r.1 :: file_buffers_from rounds' r.2
      end
  end.

Definition file_buffers (stream : list ascii) : list (list ascii) :=
  file_buffers_from (length stream) stream.

(** ** The material file parser (mesh.h, lines 296-375) *)

Record Material : Type := {
  name : string;
  Kd : nat -> float;
  map_Kd : string
}.

(** [Material()]: the strings are empty and the array is zeroed. *)
Definition Material_new : Material :=
  {| name := ""; Kd := fun _ => float_zero; map_Kd := "" |}.

Module WavefrontMtlFile.

(** [current_] points to the last material once [ParseNewmtl] has run;
    before, it is not initialized: [None]. *)
Record WavefrontMtlFile : Type := {
  materials_ : list Material;
  current_ : option nat
}.

(** Writing through [current_]. *)
Definition with_current (f : Material -> Material) (m : WavefrontMtlFile)
  : outcome WavefrontMtlFile :=
  match current_ m with
  | None => Abort undefined_access
  | Some i =>
      match materials_ m !! i with
      | None => Abort undefined_access
      | Some material =>
          Done {| materials_ := <[i := f material]> (materials_ m);
                  current_ := current_ m |}
      end
  end.

Section Lines.

(** [stripLeadingWhitespace] and [terminateAtNewline] are declared in
    base.h, which is not among the sources at hand, so they are
    parameters: the string the pointer returned designates, and the string
    left in the buffer. *)
Variable stripLeadingWhitespace : list ascii -> list ascii.

Variable terminateAtNewline : list ascii -> list ascii.

Variable strtof : list ascii -> float * nat.

Variable garbage : nat -> float.

Definition ParseColor (line : list ascii) (line_num : Z) (m : WavefrontMtlFile)
  : outcome WavefrontMtlFile :=
  match line with
  | c :: rest =>
      if Ascii.eqb c "d" then
        let floats := (ParseLine strtof rest (ShortFloatList_new garbage)).2 in
        with_current
          (fun material =>
             {| name := name material;
                Kd := <[2%nat := a_ floats 2%nat]>
                        (<[1%nat := a_ floats 1%nat]>
                           (<[0%nat := a_ floats 0%nat]> (Kd material)));
                map_Kd := map_Kd material |}) m
      else Done m
  | [] => Done m
  end.

Definition ParseMapKd (line : list ascii) (line_num : Z) (m : WavefrontMtlFile)
  : outcome WavefrontMtlFile :=
  with_current
    (fun material =>
       {| name := name material;
          Kd := Kd material;
          map_Kd := String.string_of_list_ascii (stripLeadingWhitespace line) |})
    m.

Definition ParseNewmtl (line : list ascii) (line_num : Z) (m : WavefrontMtlFile)
  : outcome WavefrontMtlFile :=
  with_current
    (fun material =>
       {| name := String.string_of_list_ascii (stripLeadingWhitespace line);
          Kd := Kd material;
          map_Kd := map_Kd material |})
    {| materials_ := materials_ m ++ [Material_new];
       current_ := Some (length (materials_ m)) |}.

(** [0 == strncmp(line, word, 5)] for a word of 5 characters. *)
Definition strncmp5 (line : list ascii) (word : string) : bool :=
  bool_decide (take 5 line = String.list_ascii_of_string word).

(** [ParseLine]: [case 'n'] has no [break] and falls into [default],
    which does nothing. *)
Definition ParseLine (line : list ascii) (line_num : Z) (m : WavefrontMtlFile)
  : outcome WavefrontMtlFile :=
  match line with
  | c :: rest =>
      if Ascii.eqb c "K" then ParseColor rest line_num m
      else if Ascii.eqb c "m" then
        if strncmp5 rest "ap_Kd" then ParseMapKd (drop 5 rest) line_num m
        else Done m
      else if Ascii.eqb c "n" then
        if strncmp5 rest "ewmtl" then ParseNewmtl (drop 5 rest) line_num m
        else Done m
      else Done m
  | [] => Done m
  end.

Fixpoint ParseFile_lines (buffers : list (list ascii)) (line_num : Z)
    (m : WavefrontMtlFile) : outcome WavefrontMtlFile :=
  match buffers with
  | [] => Done m
  | buffer :: buffers' =>
      let stripped :=
        terminateAtNewline (stripLeadingWhitespace (c_str buffer)) in
      m' ← ParseLine stripped line_num m;
      ParseFile_lines buffers' (to_unsigned (line_num + 1)) m'
  end.

Definition ParseFile (fp : list ascii) (m : WavefrontMtlFile)
  : outcome WavefrontMtlFile :=
  ParseFile_lines (file_buffers fp) 1 m.

(** [WavefrontMtlFile(fp)] *)
Definition new (fp : list ascii) : outcome WavefrontMtlFile :=
  ParseFile fp {| materials_ := []; current_ := None |}.

Definition materials (m : WavefrontMtlFile) : list Material := materials_ m.

End Lines.

End WavefrontMtlFile.

(** ** The .OBJ parser (mesh.h, lines 381-622) *)

Module WavefrontObjFile.

(** [buffers] are the three vectors [positions_], [texcoords_] and
    [normals_]; [current_] points into [texture_batches_] and is given by
    the key of the batch it points to; the two flags are the [static bool
    once] of [ParseGroup] and [ParseSmoothingGroup].  [no_texture_] is
    never used. *)
Record WavefrontObjFile : Type := {
  buffers : Sources;
  materials_ : list Material;
  material_textures_ : gmap string string;
  texture_batches_ : gmap string DrawBatch;
  current_ : string;
  group_once : bool;
  smoothing_group_once : bool
}.

Definition set_buffers (src : Sources) (o : WavefrontObjFile)
  : WavefrontObjFile :=
  {| buffers := src; materials_ := materials_ o;
     material_textures_ := material_textures_ o;
     texture_batches_ := texture_batches_ o; current_ := current_ o;
     group_once := group_once o;
     smoothing_group_once := smoothing_group_once o |}.

Definition set_current_batch (b : DrawBatch) (o : WavefrontObjFile)
  : WavefrontObjFile :=
  {| buffers := buffers o; materials_ := materials_ o;
     material_textures_ := material_textures_ o;
     texture_batches_ := <[current_ o := b]> (texture_batches_ o);
     current_ := current_ o;
     group_once := group_once o;
     smoothing_group_once := smoothing_group_once o |}.

(** One round of the loop of [ParseMtllib]; [texture_batches_[texture]]
    makes a new batch when there is none, and [Init] changes nothing that
    is kept here. *)
Definition add_material (o : WavefrontObjFile) (material : Material)
  : WavefrontObjFile :=
  let texture := map_Kd material in
  {| buffers := buffers o;
     materials_ := materials_ o ++ [material];
     material_textures_ := <[name material := texture]> (material_textures_ o);
     texture_batches_ :=
       if decide (texture = "") then texture_batches_ o
       else match texture_batches_ o !! texture with
            | Some _ => texture_batches_ o
            | None => <[texture := DrawBatch_new]> (texture_batches_ o)
            end;
     current_ := current_ o;
     group_once := group_once o;
     smoothing_group_once := smoothing_group_once o |}.

Section Lines.

Variable stripLeadingWhitespace : list ascii -> list ascii.

Variable terminateAtNewline : list ascii -> list ascii.

Variable strtof : list ascii -> float * nat.

Variable garbage : nat -> float.

Variable strtoint : list ascii -> Z * option (list ascii).

(** The files [fopen(name, "r")] finds, with their bytes. *)
Variable files : gmap string (list Byte.byte).

Definition ParseGroup (line : list ascii) (line_num : Z) (o : WavefrontObjFile)
  : parse_result WavefrontObjFile :=
  if group_once o then
    Warned "group unsupported" line_num
      {| buffers := buffers o; materials_ := materials_ o;
         material_textures_ := material_textures_ o;
         texture_batches_ := texture_batches_ o; current_ := current_ o;
         group_once := false;
         smoothing_group_once := smoothing_group_once o |}
  else Parsed o.

Definition ParseSmoothingGroup (line : list ascii) (line_num : Z)
    (o : WavefrontObjFile) : parse_result WavefrontObjFile :=
  if smoothing_group_once o then
    Warned "s unsupported" line_num
      {| buffers := buffers o; materials_ := materials_ o;
         material_textures_ := material_textures_ o;
         texture_batches_ := texture_batches_ o; current_ := current_ o;
         group_once := group_once o;
         smoothing_group_once := false |}
  else Parsed o.

Definition ParseMtllib (line : list ascii) (line_num : Z) (o : WavefrontObjFile)
  : parse_result WavefrontObjFile :=
  match files !! String.string_of_list_ascii (stripLeadingWhitespace line) with
  | None => Warned "mtllib not found" line_num o
  | Some bytes =>
      match WavefrontMtlFile.new stripLeadingWhitespace terminateAtNewline
              strtof garbage (ascii_of_byte <$> bytes) with
      | Abort e => Stopped e
      | Done mtlfile =>
          Parsed (foldl add_material o (WavefrontMtlFile.materials mtlfile))
      end
  end.

Definition ParseUsemtl (line : list ascii) (line_num : Z) (o : WavefrontObjFile)
  : parse_result WavefrontObjFile :=
  let usemtl := String.string_of_list_ascii (stripLeadingWhitespace line) in
  let texture := default ""%string (material_textures_ o !! usemtl) in
  match texture_batches_ o !! texture with
  | None => Exited "texture not found" line_num
  | Some _ =>
      Parsed {| buffers := buffers o; materials_ := materials_ o;
                material_textures_ := material_textures_ o;
                texture_batches_ := texture_batches_ o; current_ := texture;
                group_once := group_once o;
                smoothing_group_once := smoothing_group_once o |}
  end.

Definition on_buffers (r : parse_result Sources) (o : WavefrontObjFile)
  : parse_result WavefrontObjFile :=
  match r with
  | Parsed src => Parsed (set_buffers src o)
  | Warned why line_num src => Warned why line_num (set_buffers src o)
  | Exited why line_num => Exited why line_num
  | Stopped e => Stopped e
  end.

(** A face line works on the batch [current_] points to; [None] when the
    loop of [ParseFace] has not come to its end within the rounds
    given. *)
Definition on_current_batch (rounds : nat) (line : list ascii) (line_num : Z)
    (o : WavefrontObjFile) : option (parse_result WavefrontObjFile) :=
  match texture_batches_ o !! current_ o with
  | None => Some (Stopped undefined_access)
  | Some current =>
      match ParseFace strtoint rounds line line_num (buffers o) current with
      | None => None
      | Some (Parsed b) => Some (Parsed (set_current_batch b o))
      | Some (Warned why n b) => Some (Warned why n (set_current_batch b o))
      | Some (Exited why n) => Some (Exited why n)
      | Some (Stopped e) => Some (Stopped e)
      end
  end.

(** [ParseLine(line, line_num)], with the bytes of the line buffer
    [behind] the terminator of [line]. *)
Definition ParseLine (rounds : nat) (line behind : list ascii) (line_num : Z)
    (o : WavefrontObjFile) : option (parse_result WavefrontObjFile) :=
  match line with
  | [] => Some (Parsed o)
  | c :: rest =>
      if Ascii.eqb c "v" then
        Some (on_buffers
                (ParseAttrib strtof garbage rest behind line_num (buffers o)) o)
      else if Ascii.eqb c "f" then on_current_batch rounds rest line_num o
      else if Ascii.eqb c "g" then Some (ParseGroup rest line_num o)
      else if Ascii.eqb c "#" then Some (Parsed o)
      else if Ascii.eqb c "p" then Some (Warned "point unsupported" line_num o)
      else if Ascii.eqb c "l" then Some (Warned "line unspported" line_num o)
      else if Ascii.eqb c "u" then
        if WavefrontMtlFile.strncmp5 rest "semtl"
        then Some (ParseUsemtl (drop 5 rest) line_num o)
        else Some (Warned "unknown keyword" line_num o)
      else if Ascii.eqb c "m" then
        if WavefrontMtlFile.strncmp5 rest "tllib"
        then Some (ParseMtllib (drop 5 rest) line_num o)
        else Some (Warned "unknown keyword" line_num o)
      else if Ascii.eqb c "s" then Some (ParseSmoothingGroup rest line_num o)
      else Some (Warned "unknown keyword" line_num o)
  end.

(** The loop of [ParseFile] over what [fgets] reads, round by round,
    with what has gone to the error stream.  [buffer] is the array of
    [kLineBufferSize] bytes, which keeps from one round to the next what
    is not written over.  [stripLeadingWhitespace] returns a pointer
    into the string it is given, so the characters it skips are the
    difference of the lengths; [terminateAtNewline] leaves a terminator
    at the end of the string it leaves. *)
Fixpoint ParseFile_lines (buffers : list (list ascii)) (buffer : list ascii)
    (line_num : Z) (warnings : list (string * Z)) (o : WavefrontObjFile)
  : option (list (string * Z) * parse_result WavefrontObjFile) :=
  match buffers with
  | [] => Some (warnings, Parsed o)
  | read :: buffers' =>
      let stored := fgets_stores read buffer in
      let whole := c_str stored in
      let skipped := stripLeadingWhitespace whole in
      let offset := (length whole - length skipped)%nat in
      let stripped := terminateAtNewline skipped in
      let terminator := (offset + length stripped)%nat in
      let buffer' := <[terminator := Ascii.zero]> stored in
      match ParseLine (length stripped) stripped (drop (S terminator) buffer')
              line_num o with
      | None => None
      | Some (Parsed o') =>
          ParseFile_lines buffers' buffer' (to_unsigned (line_num + 1))
            warnings o'
      | Some (Warned why n o') =>
          ParseFile_lines buffers' buffer' (to_unsigned (line_num + 1))
            (warnings ++ [(why, n)]) o'
      | Some (Exited why n) => Some (warnings ++ [(why, n)], Exited why n)
      | Some (Stopped e) => Some (warnings, Stopped e)
      end
  end.

(** [char buffer[kLineBufferSize] = { 0 }], then the loop. *)
Definition ParseFile (fp : list ascii) (o : WavefrontObjFile)
  : option (list (string * Z) * parse_result WavefrontObjFile) :=
  ParseFile_lines (file_buffers fp) (replicate kLineBufferSize Ascii.zero) 1 []
    o.

(** [WavefrontObjFile(fp)]: [current_ = &texture_batches_[""]], then the
    file.  The two flags are statics of the program. *)
Definition new (fp : list ascii) (group_once smoothing_group_once : bool)
  : option (list (string * Z) * parse_result WavefrontObjFile) :=
  ParseFile fp
    {| buffers := {| positions_ := []; texcoords_ := []; normals_ := [] |};
       materials_ := [];
       material_textures_ := ∅;
       texture_batches_ := {[ ""%string := DrawBatch_new ]};
       current_ := "";
       group_once := group_once;
       smoothing_group_once := smoothing_group_once |}.

Definition texture_batches (o : WavefrontObjFile) : gmap string DrawBatch :=
  texture_batches_ o.

End Lines.

End WavefrontObjFile.

(** * The vocabulary of the statements *)

(** ** Integers *)

Definition is_int16 (x : Z) : Prop := -32768 <= x < 32768.

Definition is_uint16 (x : Z) : Prop := 0 <= x < 65536.

(** Modelled from the spec: the [unzigzag] of section 8 of the design
    document, which mesh.h does not contain (it belongs to the decoder):
    the usual inverse, [(z >> 1) ^ (-(z & 1))]. *)
Definition UnZigZag (z : Z) : Z :=
  Z.lxor (Z.shiftr z 1) (- Z.land z 1).

(** The arithmetic form of the design document:
    [2n] for [n >= 0] and [2|n| - 1] for [n < 0]. *)
Definition zigzag_arith (n : Z) : Z :=
  if 0 <=? n then 2 * n else 2 * Z.abs n - 1.

(** ** The compressors as the design document words them *)

(** Index compressor, section 4.6: the mark is a plain integer that
    starts at 0; an index above the mark is refused, otherwise the
    delta [high_water_mark - i] is produced and the mark grows by one
    exactly when [i] equals it. *)
Fixpoint hwm_deltas (high_water_mark : Z) (indices : list Z)
  : option (list Z) :=
  match indices with
  | [] => Some []
  | i :: rest =>
      if i <=? high_water_mark then
        cons (high_water_mark - i) <$>
          hwm_deltas (if i =? high_water_mark then high_water_mark + 1
                      else high_water_mark) rest
      else None
  end.

(** The mark after a list of indices, by the same rule. *)
Definition hwm_after (indices : list Z) : Z :=
  foldl (fun high_water_mark i =>
           if i =? high_water_mark then high_water_mark + 1
           else high_water_mark) 0 indices.

(** Attribute compressor, section 4.7: the values of one channel are
    those of slot [c] of every vertex record, in vertex order. *)
Definition channel_from (c first : nat) (count : nat) (attribs : list Z)
  : list Z :=
  omap (fun vertex => attribs !! (c + 8 * vertex)%nat) (seq first count).

Definition channel (c : nat) (attribs : list Z) : list Z :=
  channel_from c 0 (length attribs) attribs.

(** Per channel: [previous] starts at 0; each value gives the zigzag of
    its 16-bit wrap-around difference to [previous] and becomes the new
    [previous]. *)
Fixpoint channel_codes (previous : Z) (values : list Z) : list Z :=
  match values with
  | [] => []
  | v :: rest =>
      ZigZag (to_int16 (to_uint16 v - previous))
        :: channel_codes (to_uint16 v) rest
  end.

(** Transposed order: all of channel 0, then all of channel 1, ... *)
Definition attrib_codes (attribs : list Z) : list Z :=
  c ← seq 0 8; channel_codes 0 (channel c attribs).

(** What the assembler does before it opens the file. *)
Definition stream_of (encode_varint : Z -> option (list Byte.byte))
    (attribs indices : list Z) : outcome (list Byte.byte) :=
  CHECK (Z.land (Z.of_nat (length attribs)) 7 =? 0);;
  CHECK (0 <? Z.of_nat (length attribs) / 8);;
  CHECK (Z.of_nat (length attribs) / 8 <? 65536);;
  utf8 ← emit (Uint16ToUtf8_bytes encode_varint)
           (Z.of_nat (length attribs) / 8 - 1) [];
  utf8 ← CompressQuantizedAttribsToUtf8 (Uint16ToUtf8_bytes encode_varint)
           attribs utf8;
  CompressIndicesToUtf8 (Uint16ToUtf8_bytes encode_varint) indices utf8.

(** ** First occurrences *)

(** The distinct triples of [seen ++ calls], in the order in which they
    first occur, for [seen] without repetition. *)
Fixpoint distinct_from (seen calls : list (Z * Z * Z)) : list (Z * Z * Z) :=
  match calls with
  | [] => seen
  | c :: calls' =>
      if decide (c ∈ seen) then distinct_from seen calls'
      else distinct_from (seen ++ [c]) calls'
  end.

Definition distinct (calls : list (Z * Z * Z)) : list (Z * Z * Z) :=
  distinct_from [] calls.

(** What a flattener that numbers the triples by first occurrence
    returns: the place of the triple among those seen, and whether it
    is new. *)
Fixpoint flat_results (seen calls : list (Z * Z * Z)) : list (Z * bool) :=
  match calls with
  | [] => []
  | c :: calls' =>
      match list_find (eq c) seen with
      | Some (i, _) => (Z.of_nat i, false) :: flat_results seen calls'
      | None =>
          (Z.of_nat (length seen), true) :: flat_results (seen ++ [c]) calls'
      end
  end.

(** The three 0-based triples of a triangle, and those of a sequence. *)
Definition triangle_triples (raw : list Z) : list (Z * Z * Z) :=
  [(raw !!! 0%nat - 1, raw !!! 1%nat - 1, raw !!! 2%nat - 1);
   (raw !!! 3%nat - 1, raw !!! 4%nat - 1, raw !!! 5%nat - 1);
   (raw !!! 6%nat - 1, raw !!! 7%nat - 1, raw !!! 8%nat - 1)].

Definition calls_triples (calls : list (Sources * list Z)) : list (Z * Z * Z) :=
  c ← calls; triangle_triples c.2.

(** ** The invariant of the flattener

    [seen] lists the distinct triples met so far in the order of their
    first call; the flat index of a triple is its place in [seen]. *)

Definition slot_ok (m : gmap (Z * Z * Z) Z) (seen : list (Z * Z * Z))
    (p : Z) (e : IndexType) : Prop :=
  if position_or_flat e =? kIndexUnknown then
    forall t n, (p, t, n) ∉ seen
  else if position_or_flat e =? kIndexNotInTable then
    forall t n k,
      m !! (p, t, n) = Some k <->
      0 <= k /\ seen !! Z.to_nat k = Some (p, t, n)
  else
    0 <= position_or_flat e /\
    seen !! Z.to_nat (position_or_flat e) = Some (p, texcoord e, normal e) /\
    forall t n, (p, t, n) ∈ seen -> t = texcoord e /\ n = normal e.

Record flat_inv (cnt : Z) (table : list IndexType) (m : gmap (Z * Z * Z) Z)
    (seen : list (Z * Z * Z)) : Prop := {
  inv_count : cnt = Z.of_nat (length seen);
  inv_nodup : NoDup seen;
  inv_slot : forall i e, table !! i = Some e -> slot_ok m seen (Z.of_nat i) e;
  inv_table : forall p t n,
    (p, t, n) ∈ seen -> 0 <= p < Z.of_nat (length table);
  inv_map : forall p t n k,
    m !! (p, t, n) = Some k ->
    0 <= p /\
    exists e, table !! Z.to_nat p = Some e /\
              position_or_flat e = kIndexNotInTable
}.

Definition flattener_inv (f : IndexFlattener) (seen : list (Z * Z * Z))
  : Prop :=
  flat_inv (count_ f) (table_ f) (map_ f) seen.

(** The invariant of a batch: one 8-float record per distinct triple, and
    only flat indices of such triples in the index list. *)
Definition batch_inv (b : DrawBatch) (seen : list (Z * Z * Z)) : Prop :=
  flattener_inv (flattener_ b) seen /\
  length (attribs (draw_mesh_ b)) = (8 * length seen)%nat /\
  Forall (fun i => 0 <= i < Z.of_nat (length seen)) (indices (draw_mesh_ b)).

(** The record a new triple adds to the attribute buffer. *)
Definition new_record (src : Sources) (c : Z * Z * Z) (record : list float)
  : Prop :=
  exists pos tex nor,
    record = pos ++ tex ++ nor /\
    length pos = 3%nat /\ length tex = 2%nat /\ length nor = 3%nat /\
    (0 <= c.1.1 < 2 ^ 31 ->
     pos = take 3 (drop (Z.to_nat (3 * c.1.1)) (positions_ src))) /\
    (c.1.2 = -1 -> tex = [float_zero; float_zero]) /\
    (0 <= c.1.2 < 2 ^ 31 ->
     tex = take 2 (drop (Z.to_nat (2 * c.1.2)) (texcoords_ src))) /\
    (c.2 = -1 -> nor = [float_zero; float_zero; float_zero]) /\
    (0 <= c.2 < 2 ^ 31 ->
     nor = take 3 (drop (Z.to_nat (3 * c.2)) (normals_ src))).

(** The indices of a vertex are within the three buffers: a position,
    and for texcoord and normal either -1 or an index. *)
Definition vertex_in_range (src : Sources) (c : Z * Z * Z) : Prop :=
  (0 <= c.1.1 < 2 ^ 31 /\
   3 * c.1.1 + 3 <= Z.of_nat (length (positions_ src))) /\
  (c.1.2 = -1 \/
   0 <= c.1.2 < 2 ^ 31 /\
   2 * c.1.2 + 2 <= Z.of_nat (length (texcoords_ src))) /\
  (c.2 = -1 \/
   0 <= c.2 < 2 ^ 31 /\
   3 * c.2 + 3 <= Z.of_nat (length (normals_ src))).

(** * The vocabulary of the statements, continued *)

(** ** The loop nest *)

(** A body run at the places of a list, one after the other. *)
Fixpoint run_places {S : Type} (body : nat -> S -> outcome S)
    (places : list nat) (s : S) : outcome S :=
  match places with
  | [] => Done s
  | k :: places' => s' ← body k s; run_places body places' s'
  end.

(** A step applied to the values of a list with their places, from place
    [k] on. *)
Fixpoint fold_places {S A : Type} (step : nat -> A -> S -> S) (k : nat)
    (values : list A) (s : S) : S :=
  match values with
  | [] => s
  | v :: values' => fold_places step (Datatypes.S k) values' (step k v s)
  end.

(** The bounds after the values of a buffer, value [k] being of channel
    [k mod 8]. *)
Definition enclose_values (attribs : list float) (b : Bounds) : Bounds :=
  fold_places (fun k v b => enclose_value (k mod 8) v b) 0 attribs b.

(** The body of the loop nest as a function of the place [k = i + j] in
    the buffer. *)
Definition body_at {S : Type} (body : nat -> nat -> S -> outcome S) (k : nat)
    (s : S) : outcome S :=
  body (k / 8 * 8)%nat (k mod 8)%nat s.

(** ** Bounds and quantized values *)

(** No bound of the 8 channels is a NaN. *)
Definition no_nan_bounds (b : Bounds) : Prop :=
  forall j, (j < 8)%nat ->
    float_is_nan (mins b j) = false /\ float_is_nan (maxes b j) = false.

(** The quantized value of place [k], with the parameters of channel
    [k mod 8]. *)
Definition quantized_at (Quantize : float -> float -> float -> Z -> Z)
    (bounds_params : BoundsParams) (k : nat) (f : float) : Z :=
  Quantize f (offsets bounds_params (k mod 8)) (scales bounds_params (k mod 8))
    (bits bounds_params (k mod 8)).

(** ** The mesh of a batch *)

(** Record [i] of an interleaved attribute buffer. *)
Definition record_at (i : nat) (attribs : list float) : list float :=
  take 8 (drop (8 * i) attribs).

(** Every triple seen has its record, read from the buffers of one of the
    calls made so far. *)
Definition batch_records (srcs : list Sources) (b : DrawBatch)
    (seen : list (Z * Z * Z)) : Prop :=
  forall i c, seen !! i = Some c ->
    exists src, src ∈ srcs /\
      new_record src c (record_at i (attribs (draw_mesh_ b))).

(** ** The way back from the deltas *)

(** The way back from the deltas, as a loader has to take it: an index is
    the mark minus the delta, and the mark, a uint16 as in the compressor,
    moves up after a delta of 0. *)
Fixpoint indices_of_deltas (index_high_water_mark : Z) (deltas : list Z)
  : list Z :=
  match deltas with
  | [] => []
  | delta :: rest =>
      (index_high_water_mark - delta)
        :: indices_of_deltas
             (if delta =? 0 then to_uint16 (index_high_water_mark + 1)
              else index_high_water_mark) rest
  end.

(** ** The lines of the parser *)

(** Two short float lists with the same size and the same six cells. *)
Definition same_floats (l1 l2 : ShortFloatList) : Prop :=
  size_ l1 = size_ l2 /\ forall i, (i < 6)%nat -> a_ l1 i = a_ l2 i.

(** What is left of the line when conversion [i] starts. *)
Fixpoint rest_at (strtof : list ascii -> float * nat) (i : nat)
    (line : list ascii) : list ascii :=
  match i with
  | O => line
  | S i' => rest_at strtof i' (drop (strtof line).2 line)
  end.

(** The nine [int]s of a triangle. *)
Definition triangle (a b c : Z * Z * Z) : list Z :=
  [a.1.1; a.1.2; a.2; b.1.1; b.1.2; b.2; c.1.1; c.1.2; c.2].

(** The fan around [pivot]: each further vertex makes a triangle with
    the pivot and the vertex before it. *)
Fixpoint triangle_fan (pivot previous : Z * Z * Z) (others : list (Z * Z * Z))
  : list (list Z) :=
  match others with
  | [] => []
  | next :: others' =>
      triangle pivot previous next :: triangle_fan pivot next others'
  end.

(** A line that starts with [o] is taken from the character behind it
    ([++line]). *)
Definition after_o (line : list ascii) : list ascii :=
  match line with
  | c :: rest => if Ascii.eqb c "o" then rest else line
  | [] => line
  end.

Section Groups.

Variable strtoint : list ascii -> Z * option (list ascii).

(** The index groups of a line, read one after the other until
    [ParseIndices] returns [NULL]; [None] when the rounds are used up
    before that. *)
Fixpoint index_groups (rounds : nat) (line : list ascii)
  : option (list (Z * Z * Z)) :=
  match rounds with
  | O => None
  | S rounds' =>
      let r := ParseIndices strtoint line (0, 0, 0) in
      match r.2 with
      | None => Some []
      | Some line' => cons r.1 <$> index_groups rounds' line'
      end
  end.

(** The conversion does not go backwards, and reads something when it
    returns a number other than 0. *)
Definition strtoint_advances : Prop :=
  forall line value rest,
    strtoint line = (value, Some rest) ->
    (length rest <= length line)%nat /\
    (value <> 0 -> (length rest < length line)%nat).

End Groups.

(** ** The tables of the .OBJ parser *)

(** [current_] points to a batch of [texture_batches_], the batch of the
    empty texture is there, and so is the batch of every texture a
    material has. *)
Definition batches_inv (o : WavefrontObjFile.WavefrontObjFile) : Prop :=
  is_Some (WavefrontObjFile.texture_batches_ o !! WavefrontObjFile.current_ o) /\
  is_Some (WavefrontObjFile.texture_batches_ o !! ""%string) /\
  forall material texture,
    WavefrontObjFile.material_textures_ o !! material = Some texture ->
    is_Some (WavefrontObjFile.texture_batches_ o !! texture).

(** The messages [ErrorLine] is called with on attribute and face
    lines. *)
Definition line_errors : list string :=
  ["bad position"; "bad texcoord"; "bad normal"; "bad first index";
   "bad second index"]%string.

(** [current_] of the material parser points to the last material, when
    it points to anything. *)
Definition current_is_last (m : WavefrontMtlFile.WavefrontMtlFile) : Prop :=
  match WavefrontMtlFile.current_ m with
  | None => WavefrontMtlFile.materials_ m = []
  | Some i => S i = length (WavefrontMtlFile.materials_ m)
  end.

(** The lines of a material file that write to the material [current_]
    points to: those that start with [Kd] or with [map_Kd]. *)
Definition writes_material (line : list ascii) : Prop :=
  String.list_ascii_of_string "Kd" `prefix_of` line \/
  String.list_ascii_of_string "map_Kd" `prefix_of` line.

(** What a result of a line says about the tables and the message. *)
Definition line_ok (r : parse_result WavefrontObjFile.WavefrontObjFile)
  : Prop :=
  match r with
  | Parsed o | Warned _ _ o => batches_inv o
  | Exited why _ => why ∈ line_errors
  | Stopped _ => True
  end.

(** * Encoders, a subtraction and meshes for the examples *)

(** An encoder that records the words it is given, one buffer cell per
    word: the buffer it leaves is the sequence of words before encoding. *)
Definition trace_word (word : Z) (utf8 : list Z) : bool * list Z :=
  (true, utf8 ++ [word]).

(** An encoder that only counts the words it is given. *)
Definition count_word (word : Z) (utf8 : N) : bool * N :=
  (true, N.succ utf8).

(** [count_up start n] is [start, start + 1, ..., start + n - 1]. *)
Fixpoint count_up (start : Z) (n : nat) : list Z :=
  match n with
  | O => []
  | S n' => start :: count_up (start + 1) n'
  end.

(** A list that introduces all of 0 .. 65535 in order and then reads 65535
    once more. *)
Definition wrap_indices : list Z := count_up 0 (Z.to_nat 65536) ++ [65535].

Definition byte_of_Z (x : Z) : Byte.byte :=
  default Byte.x00 (Byte.of_N (Z.to_N x)).

(** A concrete encoder for the examples: UTF-8 itself, one to three
    bytes, with no code for the surrogates D800-DFFF. *)
Definition utf8_bytes (word : Z) : option (list Byte.byte) :=
  if word <? 128 then Some [byte_of_Z word]
  else if word <? 2048 then
    Some [byte_of_Z (192 + Z.shiftr word 6);
          byte_of_Z (128 + Z.land word 63)]
  else if (55296 <=? word) && (word <=? 57343) then None
  else
    Some [byte_of_Z (224 + Z.shiftr word 12);
          byte_of_Z (128 + Z.land (Z.shiftr word 6) 63);
          byte_of_Z (128 + Z.land word 63)].

Definition two_vertices : list Z :=
  [100; 200; 300; 10; 20; 0; 0; 1023; 101; 190; 300; 12; 20; 0; 0; 1023].

(** ** A subtraction to run the examples with: binary32, round to
    nearest, ties to even *)

Definition float_sign (f : float) : bool := Z.testbit f 31.

Definition float_exponent (f : float) : Z := Z.land (Z.shiftr f 23) 255.

Definition float_fraction (f : float) : Z := Z.land f 0x7fffff.

(** A finite float is [float_significand f * 2 ^ float_scale f]. *)
Definition float_significand (f : float) : Z :=
  let m := if float_exponent f =? 0 then float_fraction f
           else float_fraction f + 2 ^ 23 in
  if float_sign f then - m else m.

Definition float_scale (f : float) : Z := Z.max (float_exponent f) 1 - 150.

(** [n / 2 ^ shift] for [n >= 0], to the nearest integer, ties to even. *)
Definition round_half_even (n shift : Z) : Z :=
  let q := Z.shiftr n shift in
  let r := n - Z.shiftl q shift in
  let half := Z.shiftl 1 (shift - 1) in
  if shift <=? 0 then n
  else if r <? half then q
  else if half <? r then q + 1
  else if Z.even q then q else q + 1.

(** The float nearest to [n * 2 ^ q], for [n <> 0]. *)
Definition float_of_exact (n q : Z) : float :=
  let a := Z.abs n in
  let t := Z.max (Z.log2 a + q - 23) (-149) in
  let m := if t <=? q then Z.shiftl a (q - t) else round_half_even a (t - q) in
  let magnitude := Z.min (Z.shiftl (t + 149) 23 + m) float_infinity in
  if n <? 0 then magnitude + 0x80000000 else magnitude.

Definition binary32_sub (a b : float) : float :=
  if float_is_nan a || float_is_nan b then float_nan
  else if float_magnitude a =? float_infinity then
    if (float_magnitude b =? float_infinity)
       && Bool.eqb (float_sign a) (float_sign b)
    then float_nan else a
  else if float_magnitude b =? float_infinity then float_neg b
  else
    let q := Z.min (float_scale a) (float_scale b) in
    let n := float_significand a * 2 ^ (float_scale a - q)
             - float_significand b * 2 ^ (float_scale b - q) in
    if n =? 0 then
      (if float_sign a && negb (float_sign b) then 0x80000000 else 0)
    else float_of_exact n q.

Definition zero_bounds : Bounds :=
  {| mins := fun _ => float_zero; maxes := fun _ => float_zero |}.

(** A box from (0, -1, 2) to (3, 0.5, 2), texcoords in [0,1] x [0,2]. *)
Definition sample_bounds : Bounds :=
  {| mins := fun i => nth i [float_zero; float_neg float_one; float_two;
                             float_zero; float_zero] float_zero;
     maxes := fun i => nth i [0x40400000; 0x3f000000; float_two;
                              float_one; float_two] float_zero |}.

Definition no_params : BoundsParams :=
  {| offsets := fun _ => float_nan; scales := fun _ => float_nan;
     bits := fun _ => 0 |}.

(** ** A quad as two triangles *)

Definition quad_sources : Sources :=
  {| positions_ := [float_zero; float_zero; float_zero;
                    float_one; float_zero; float_zero;
                    float_one; float_one; float_zero;
                    float_zero; float_one; float_zero];
     texcoords_ := [float_zero; float_zero; float_one; float_one];
     normals_ := [float_zero; float_zero; float_one] |}.

Definition quad_calls : list (Sources * list Z) :=
  [(quad_sources, [1; 1; 1; 2; 2; 0; 3; 0; 1]);
   (quad_sources, [1; 1; 1; 3; 0; 1; 4; 2; 0])].

Definition mesh_of (r : outcome DrawBatch) : option DrawMesh :=
  match r with
  | Done b => Some (draw_mesh_ b)
  | Abort _ => None
  end.

Definition seam_calls : list (Z * Z * Z) :=
  [(0, 0, 0); (1, 1, 0); (0, 0, 0); (0, 1, 0); (0, 0, 0); (0, 1, 0)].

(** * More examples *)

Definition one_record : list float :=
  [float_one; float_two; float_neg float_one; float_zero;
   float_infinity; float_nan; FLT_MAX; float_neg float_infinity].

(** ** Conversions to run the examples with *)

Fixpoint skip_spaces (line : list ascii) : list ascii :=
  match line with
  | c :: rest => if isspace c then skip_spaces rest else line
  | [] => []
  end.

Definition digit_of (c : ascii) : option Z :=
  let n := nat_of_ascii c in
  if (48 <=? n)%nat && (n <=? 57)%nat then Some (Z.of_nat n - 48) else None.

Fixpoint read_digits (value : Z) (line : list ascii) : Z * list ascii :=
  match line with
  | c :: rest =>
      match digit_of c with
      | Some d => read_digits (10 * value + d) rest
      | None => (value, line)
      end
  | [] => (value, line)
  end.

(** Decimal numbers without a sign, after white space; [endptr] is left
    at [str] when there is no digit. *)
Definition decimal_strtoint (str : list ascii) : Z * option (list ascii) :=
  match skip_spaces str with
  | c :: rest =>
      match digit_of c with
      | Some d => let r := read_digits d rest in (r.1, Some r.2)
      | None => (0, Some str)
      end
  | [] => (0, Some str)
  end.

(** The floats 0, 1 and 2, written with one digit, after white space. *)
Definition digit_strtof (line : list ascii) : float * nat :=
  let skipped := (length line - length (skip_spaces line))%nat in
  match skip_spaces line with
  | c :: _ =>
      if Ascii.eqb c "0" then (float_zero, S skipped)
      else if Ascii.eqb c "1" then (float_one, S skipped)
      else if Ascii.eqb c "2" then (float_two, S skipped)
      else (float_zero, 0%nat)
  | [] => (float_zero, 0%nat)
  end.

Definition quad_face : list ascii :=
  String.list_ascii_of_string " 1/1/1 2/2 3//1 4/2".

(** ** A file to run the parser on *)

(** The string behind a newline is cut off. *)
Fixpoint until_newline (line : list ascii) : list ascii :=
  match line with
  | [] => []
  | c :: rest => if Ascii.eqb c "010" then [] else c :: until_newline rest
  end.

Definition byte_of_ascii (c : ascii) : Byte.byte :=
  default Byte.x00 (Byte.of_N (N_of_ascii c)).

Definition text (lines : list string) : list ascii :=
  line ← lines; String.list_ascii_of_string line ++ ["010"%char].

Definition triangle_obj : list ascii :=
  text ["# one triangle"; "mtllib red.mtl"; "v 0 0 0"; "v 1 0 0"; "v 1 1 0";
        "vt 0 0"; "g side"; "usemtl red"; "f 1/1 2/1 3/1"]%string.

Definition red_mtl : list Byte.byte :=
  byte_of_ascii <$> text ["newmtl red"; "Kd 1 0 0"; "map_Kd red.png"]%string.

(** * Facts *)

(** ** ZigZag *)

Lemma shiftr15_int16 w :
  is_int16 w -> Z.shiftr w 15 = if 0 <=? w then 0 else -1.
Proof.
  unfold is_int16. intros Hw. rewrite Z.shiftr_div_pow2 by lia.
  change (2 ^ 15) with 32768.
  destruct (Z.leb_spec 0 w).
  - apply Z.div_small. lia.
  - symmetry. apply (Z.div_unique w 32768 (-1) (w + 32768)); lia.
Qed.

Lemma lxor_m1_l x : Z.lxor (-1) x = - x - 1.
Proof. rewrite Z.lxor_m1_l. unfold Z.lnot. lia. Qed.

Lemma ZigZag_arith w : is_int16 w -> ZigZag w = zigzag_arith w.
Proof.
  intros Hw. unfold ZigZag, zigzag_arith, to_uint16.
  rewrite (shiftr15_int16 w Hw), Z.shiftl_mul_pow2 by lia.
  change (2 ^ 1) with 2. unfold is_int16 in Hw.
  destruct (Z.leb_spec 0 w).
  - rewrite Z.lxor_0_l, Z.mod_small; lia.
  - rewrite lxor_m1_l, Z.mod_small; lia.
Qed.

Lemma UnZigZag_arith z :
  0 <= z -> UnZigZag z = if Z.even z then z / 2 else - (z / 2) - 1.
Proof.
  intros Hz. unfold UnZigZag.
  rewrite Z.shiftr_div_pow2 by lia. change (2 ^ 1) with 2.
  change 1 with (Z.ones 1) at 1. rewrite Z.land_ones by lia.
  change (2 ^ 1) with 2. rewrite Zmod_even.
  destruct (Z.even z); simpl.
  - apply Z.lxor_0_r.
  - rewrite Z.lxor_comm. apply lxor_m1_l.
Qed.

Lemma ZigZag_range w : is_int16 w -> is_uint16 (ZigZag w).
Proof.
  intros _. unfold ZigZag, to_uint16, is_uint16. apply Z.mod_pos_bound. lia.
Qed.

Lemma UnZigZag_ZigZag w : is_int16 w -> UnZigZag (ZigZag w) = w.
Proof.
  intros Hw. rewrite (ZigZag_arith w Hw).
  unfold zigzag_arith, is_int16 in *.
  destruct (Z.leb_spec 0 w).
  - rewrite UnZigZag_arith by lia.
    rewrite Z.even_mul. simpl.
    rewrite Z.mul_comm, Z.div_mul; lia.
  - rewrite UnZigZag_arith by lia.
    replace (2 * Z.abs w - 1) with (1 + 2 * (- w - 1)) by lia.
    rewrite Z.even_add_mul_2. simpl.
    replace (1 + 2 * (- w - 1)) with ((- w - 1) * 2 + 1) by lia.
    rewrite Z.div_add_l by lia. change (1 / 2) with 0. lia.
Qed.

Lemma UnZigZag_range z : is_uint16 z -> is_int16 (UnZigZag z).
Proof.
  unfold is_uint16, is_int16. intros Hz.
  rewrite UnZigZag_arith by lia.
  assert (0 <= z / 2 < 32768).
  { split; [apply Z.div_pos; lia | apply Z.div_lt_upper_bound; lia]. }
  destruct (Z.even z); lia.
Qed.

Lemma ZigZag_UnZigZag z : is_uint16 z -> ZigZag (UnZigZag z) = z.
Proof.
  intros Hz. rewrite ZigZag_arith by (apply UnZigZag_range; exact Hz).
  unfold is_uint16 in Hz. rewrite UnZigZag_arith by lia.
  unfold zigzag_arith.
  pose proof (Zmod_even z) as Hev.
  pose proof (Z.div_mod z 2 ltac:(lia)) as Hdm.
  assert (0 <= z / 2) by (apply Z.div_pos; lia).
  destruct (Z.even z).
  - destruct (Z.leb_spec 0 (z / 2)); lia.
  - destruct (Z.leb_spec 0 (- (z / 2) - 1)); lia.
Qed.

(** C7. ZigZag maps 0, -1, 1, -2 to 0, 1, 2, 3; on every 16-bit signed
    word it yields a 16-bit unsigned code from which [UnZigZag] recovers
    the word; it sends different words to different codes, and every
    16-bit unsigned code is the image of a 16-bit signed word, the one
    [UnZigZag] gives: ZigZag is a bijection from int16 onto uint16. *)
Theorem ZigZag_bijection :
  ZigZag 0 = 0 /\ ZigZag (-1) = 1 /\ ZigZag 1 = 2 /\ ZigZag (-2) = 3 /\
  (forall d, is_int16 d -> is_uint16 (ZigZag d) /\ UnZigZag (ZigZag d) = d) /\
  (forall d1 d2, is_int16 d1 -> is_int16 d2 ->
     ZigZag d1 = ZigZag d2 -> d1 = d2) /\
  (forall z, is_uint16 z -> exists d, is_int16 d /\ ZigZag d = z) /\
  (forall z, is_uint16 z -> is_int16 (UnZigZag z) /\ ZigZag (UnZigZag z) = z).
Proof.
  do 4 (split; [reflexivity|]). split; [|split; [|split]].
  - intros d Hd. split; [apply ZigZag_range | apply UnZigZag_ZigZag]; exact Hd.
  - intros d1 d2 H1 H2 Heq.
    rewrite <- (UnZigZag_ZigZag d1 H1), <- (UnZigZag_ZigZag d2 H2), Heq.
    reflexivity.
  - intros z Hz. exists (UnZigZag z).
    split; [apply UnZigZag_range | apply ZigZag_UnZigZag]; exact Hz.
  - intros z Hz.
    split; [apply UnZigZag_range | apply ZigZag_UnZigZag]; exact Hz.
Qed.

Lemma ZigZag_bijection_witness :
  is_int16 (-300) /\ UnZigZag (ZigZag (-300)) = -300 /\
  is_uint16 599 /\ ZigZag (UnZigZag 599) = 599.
Proof.
  assert (H1 : is_int16 (-300)) by (unfold is_int16; lia).
  assert (H2 : is_uint16 599) by (unfold is_uint16; lia).
  destruct ZigZag_bijection as (_ & _ & _ & _ & Hd & _ & _ & Hz).
  split; [exact H1 |]. split; [exact (proj2 (Hd _ H1)) |].
  split; [exact H2 | exact (proj2 (Hz _ H2))].
Defined.

(** ** Facts about the compressors *)

Section CompressorFacts.

Context {buffer : Type}.

Variable Uint16ToUtf8 : Z -> buffer -> bool * buffer.

Lemma bind_Done {A B} (a : A) (k : A -> outcome B) : mbind k (Done a) = k a.
Proof. reflexivity. Qed.

Lemma bind_Abort {A B} e (k : A -> outcome B) : mbind k (Abort e) = Abort e.
Proof. reflexivity. Qed.

Lemma bind_assoc {A B C} (m : outcome A) (k : A -> outcome B)
    (h : B -> outcome C) :
  mbind h (mbind k m) = mbind (fun a => mbind h (k a)) m.
Proof. destruct m; reflexivity. Qed.

Lemma emit_check_failed word (utf8 : buffer) e :
  emit Uint16ToUtf8 word utf8 = Abort e -> e = check_failed.
Proof.
  unfold emit, CHECK. destruct (Uint16ToUtf8 _ _).1; cbv; congruence.
Qed.

Lemma emit_all_app ws1 ws2 (utf8 : buffer) :
  emit_all Uint16ToUtf8 (ws1 ++ ws2) utf8 =
  utf8' ← emit_all Uint16ToUtf8 ws1 utf8; emit_all Uint16ToUtf8 ws2 utf8'.
Proof.
  revert utf8. induction ws1 as [|w ws1 IH]; intros utf8; simpl; [reflexivity|].
  destruct (emit Uint16ToUtf8 w utf8); simpl; [apply IH | reflexivity].
Qed.

Lemma emit_all_check_failed ws (utf8 : buffer) e :
  emit_all Uint16ToUtf8 ws utf8 = Abort e -> e = check_failed.
Proof.
  revert utf8. induction ws as [|w ws IH]; intros utf8; simpl; [discriminate|].
  destruct (emit Uint16ToUtf8 w utf8) eqn:He; simpl.
  - apply IH.
  - intros [= <-]. eapply emit_check_failed, He.
Qed.

(** *** Index compressor *)

Lemma CompressIndices_loop_check_failed hwm l (utf8 : buffer) e :
  CompressIndices_loop Uint16ToUtf8 hwm l utf8 = Abort e -> e = check_failed.
Proof.
  revert hwm utf8. induction l as [|i l IH]; intros hwm utf8; simpl; [discriminate|].
  destruct (0 <=? i); simpl; [|congruence].
  destruct (i <=? hwm); simpl; [|congruence].
  destruct (emit Uint16ToUtf8 (hwm - i) utf8) eqn:He; simpl.
  - apply IH.
  - intros [= <-]. eapply emit_check_failed, He.
Qed.

(** On indices below 65535 the 16-bit mark never wraps, and the loop is
    the rule of section 4.6 followed by the encoder. *)
Lemma CompressIndices_loop_hwm_deltas hwm l (utf8 : buffer) :
  0 <= hwm <= 65535 ->
  Forall (fun i => 0 <= i < 65535) l ->
  CompressIndices_loop Uint16ToUtf8 hwm l utf8 =
  match hwm_deltas hwm l with
  | Some deltas => emit_all Uint16ToUtf8 deltas utf8
  | None => Abort check_failed
  end.
Proof.
  intros Hhwm Hl. revert hwm utf8 Hhwm.
  induction Hl as [|i l Hi Hl IH]; intros hwm utf8 Hhwm; simpl; [reflexivity|].
  destruct (Z.leb_spec 0 i); [simpl | lia].
  destruct (Z.leb_spec i hwm); simpl; [|reflexivity].
  set (hwm' := if i =? hwm then hwm + 1 else hwm).
  assert (Hw : (if i =? hwm then to_uint16 (hwm + 1) else hwm) = hwm').
  { subst hwm'. destruct (Z.eqb_spec i hwm); [|reflexivity].
    unfold to_uint16. apply Z.mod_small. lia. }
  rewrite Hw.
  assert (Hhwm' : 0 <= hwm' <= 65535).
  { subst hwm'. destruct (Z.eqb_spec i hwm); lia. }
  destruct (emit Uint16ToUtf8 (hwm - i) utf8) as [utf8'|e] eqn:He; simpl.
  - rewrite (IH hwm' utf8' Hhwm').
    destruct (hwm_deltas hwm' l); simpl; [rewrite He|]; reflexivity.
  - pose proof (emit_check_failed _ _ _ He) as ->.
    destruct (hwm_deltas hwm' l); simpl; [rewrite He|]; reflexivity.
Qed.

(** The 16-bit mark of the code never exceeds the unbounded mark of the
    design document: an index above the latter is above the former. *)
Lemma CompressIndices_loop_above_mark hwm mark pre i post (utf8 : buffer) :
  0 <= hwm <= mark ->
  foldl (fun m k => if k =? m then m + 1 else m) mark pre < i ->
  CompressIndices_loop Uint16ToUtf8 hwm (pre ++ i :: post) utf8 =
  Abort check_failed.
Proof.
  revert hwm mark utf8.
  induction pre as [|k pre IH]; intros hwm mark utf8 Hm Hi; simpl in *.
  - destruct (0 <=? i); simpl; [|reflexivity].
    destruct (Z.leb_spec i hwm); simpl; [lia | reflexivity].
  - destruct (Z.leb_spec 0 k); simpl; [|reflexivity].
    destruct (Z.leb_spec k hwm); simpl; [|reflexivity].
    destruct (emit Uint16ToUtf8 (hwm - k) utf8) as [utf8'|e] eqn:He; simpl.
    + eapply IH; [|exact Hi].
      unfold to_uint16. pose proof (Z.mod_pos_bound (hwm + 1) 65536).
      pose proof (Z.mod_le (hwm + 1) 65536).
      destruct (Z.eqb_spec k hwm), (Z.eqb_spec k mark); lia.
    + f_equal. eapply emit_check_failed, He.
Qed.

Lemma CompressIndices_loop_negative hwm l i (utf8 : buffer) :
  i ∈ l -> i < 0 ->
  CompressIndices_loop Uint16ToUtf8 hwm l utf8 = Abort check_failed.
Proof.
  intros Hin Hneg. revert hwm utf8.
  induction Hin as [i l|i k l Hin IH]; intros hwm utf8; simpl.
  - destruct (Z.leb_spec 0 i); [lia | reflexivity].
  - destruct (0 <=? k); simpl; [|reflexivity].
    destruct (k <=? hwm); simpl; [|reflexivity].
    destruct (emit Uint16ToUtf8 (hwm - k) utf8) as [utf8'|e] eqn:He; simpl.
    + apply IH, Hneg.
    + f_equal. eapply emit_check_failed, He.
Qed.

Lemma CompressIndices_loop_negative_prefix hwm pre i post (utf8 : buffer) :
  i < 0 ->
  CompressIndices_loop Uint16ToUtf8 hwm (pre ++ i :: post) utf8 =
  (CompressIndices_loop Uint16ToUtf8 hwm pre utf8;; Abort check_failed).
Proof.
  intros Hneg. revert hwm utf8.
  induction pre as [|k pre IH]; intros hwm utf8; simpl.
  - destruct (Z.leb_spec 0 i); [lia | reflexivity].
  - destruct (0 <=? k); simpl; [|reflexivity].
    destruct (k <=? hwm); simpl; [|reflexivity].
    destruct (emit Uint16ToUtf8 (hwm - k) utf8) as [utf8'|e]; simpl.
    + apply IH.
    + reflexivity.
Qed.

(** While no index 1 has been read the mark stays below 2, and while no
    index 0 has been read it stays 0: a 2 met then is refused. *)
Lemma CompressIndices_loop_two_early hwm pre post (utf8 : buffer) :
  (hwm = 0 /\ 0 ∉ pre) \/ (0 <= hwm <= 1 /\ 1 ∉ pre) ->
  CompressIndices_loop Uint16ToUtf8 hwm (pre ++ 2 :: post) utf8 =
  Abort check_failed.
Proof.
  revert hwm utf8.
  induction pre as [|k pre IH]; intros hwm utf8 Hpre; simpl.
  - destruct (Z.leb_spec 2 hwm); simpl; [lia | reflexivity].
  - destruct (Z.leb_spec 0 k); simpl; [|reflexivity].
    destruct (Z.leb_spec k hwm); simpl; [|reflexivity].
    destruct (emit Uint16ToUtf8 (hwm - k) utf8) as [utf8'|e] eqn:He; simpl.
    + apply IH.
      destruct Hpre as [[-> Hn]|[Hh Hn]];
        apply not_elem_of_cons in Hn as [Hk Hn].
      * lia.
      * right. split; [|exact Hn].
        destruct (Z.eqb_spec k hwm); [|lia].
        unfold to_uint16. rewrite Z.mod_small; lia.
    + f_equal. eapply emit_check_failed, He.
Qed.

End CompressorFacts.

Lemma hwm_deltas_count_up n h rest :
  hwm_deltas h (count_up h n ++ rest) =
  app (replicate n 0) <$> hwm_deltas (h + Z.of_nat n) rest.
Proof.
  revert h. induction n as [|n IH]; intros h.
  - simpl. rewrite Z.add_0_r. destruct (hwm_deltas h rest); reflexivity.
  - cbn [count_up app hwm_deltas replicate].
    rewrite Z.leb_refl, Z.eqb_refl, IH, Z.sub_diag.
    replace (h + 1 + Z.of_nat n) with (h + Z.of_nat (S n)) by lia.
    destruct (hwm_deltas _ rest); reflexivity.
Qed.

Lemma emit_all_count_word ws (utf8 : N) :
  emit_all count_word ws utf8 = Done (utf8 + N.of_nat (length ws))%N.
Proof.
  revert utf8. induction ws as [|w ws IH]; intros utf8; simpl.
  - f_equal. lia.
  - unfold emit. cbn. rewrite IH. f_equal. lia.
Qed.

Lemma CompressIndices_loop_count_up n h rest (utf8 : N) :
  0 <= h < 65536 -> h + Z.of_nat n <= 65536 ->
  CompressIndices_loop count_word h (count_up h n ++ rest) utf8 =
  CompressIndices_loop count_word (to_uint16 (h + Z.of_nat n)) rest
    (utf8 + N.of_nat n)%N.
Proof.
  revert h utf8. induction n as [|n IH]; intros h utf8 Hh Hn.
  - simpl. rewrite Z.add_0_r, N.add_0_r. unfold to_uint16.
    rewrite Z.mod_small by lia. reflexivity.
  - cbn [count_up app CompressIndices_loop].
    rewrite Z.eqb_refl, Z.leb_refl.
    destruct (Z.leb_spec 0 h); [|lia]. unfold emit. cbn.
    destruct n as [|n].
    + simpl. f_equal. lia.
    + replace (to_uint16 (h + 1)) with (h + 1)
        by (unfold to_uint16; rewrite Z.mod_small; lia).
      rewrite IH by lia. f_equal; [f_equal|]; lia.
Qed.

(** C2, as stated, fails on [wrap_indices]: every index is at most the
    mark of section 4.6 when it is read, the rule gives 65536 deltas 0 and
    a delta 1, which the encoder takes; the code, whose mark is a uint16
    that has wrapped to 0, stops at the last index. *)
Lemma hwm_wrap_counterexample :
  exists deltas,
    hwm_deltas 0 wrap_indices = Some deltas /\
    emit_all count_word deltas 0%N = Done 65537%N /\
    CompressIndicesToUtf8 count_word wrap_indices 0%N = Abort check_failed.
Proof.
  exists (replicate (Z.to_nat 65536) 0 ++ [1]).
  unfold wrap_indices, CompressIndicesToUtf8. split; [|split].
  - rewrite hwm_deltas_count_up, Z2Nat.id by lia. reflexivity.
  - rewrite emit_all_count_word, length_app, length_replicate.
    rewrite Nat2N.inj_add, Z_nat_N. reflexivity.
  - rewrite CompressIndices_loop_count_up by (rewrite ?Z2Nat.id; lia).
    rewrite Z2Nat.id by lia. reflexivity.
Qed.

(** C2 (amended). The index compressor starts with a mark of 0 and,
    for each index of the list in order, requires [0 <= i] and
    [i <= mark] (stopping the process otherwise), hands [mark - i] to the
    encoder, and adds one to the mark exactly when [i] equals it.  The
    mark is a uint16: for every list of indices in [0, 65535) the outcome
    is the encoding of exactly the deltas of section 4.6, or a stop when
    an index is above the mark. *)
Theorem CompressIndicesToUtf8_hwm_deltas {buffer : Type}
    (Uint16ToUtf8 : Z -> buffer -> bool * buffer) (l : list Z) (utf8 : buffer) :
  Forall (fun i => 0 <= i < 65535) l ->
  CompressIndicesToUtf8 Uint16ToUtf8 l utf8 =
  match hwm_deltas 0 l with
  | Some deltas => emit_all Uint16ToUtf8 deltas utf8
  | None => Abort check_failed
  end.
Proof.
  intros Hl. apply CompressIndices_loop_hwm_deltas; [lia | exact Hl].
Qed.

Lemma CompressIndicesToUtf8_hwm_deltas_witness :
  Forall (fun i => 0 <= i < 65535) [0; 1; 1; 2; 0] /\
  CompressIndicesToUtf8 trace_word [0; 1; 1; 2; 0] [] = Done [0; 0; 1; 0; 3].
Proof.
  assert (H : Forall (fun i => 0 <= i < 65535) [0; 1; 1; 2; 0])
    by (repeat constructor; lia).
  split; [exact H|].
  rewrite (CompressIndicesToUtf8_hwm_deltas trace_word _ [] H). reflexivity.
Defined.

(** C3, as stated, fails: the words handed to the encoder for
    [0, 0, 1, 2, 2, 1] are not [0, 0, 0, 0, 1, 2]. *)
Lemma index_example_counterexample :
  CompressIndicesToUtf8 trace_word [0; 0; 1; 2; 2; 1] [] <>
  Done [0; 0; 0; 0; 1; 2].
Proof. vm_compute. discriminate. Qed.

(** C3 (amended). The index compressor run on [0, 0, 1, 2, 2, 1] hands
    the encoder the deltas [0, 1, 0, 0, 1, 2], in this order and whatever
    the encoder; and a list in which a 2 comes before any 0, or before any
    1, is refused. *)
Theorem index_example {buffer : Type}
    (Uint16ToUtf8 : Z -> buffer -> bool * buffer) (utf8 : buffer) :
  CompressIndicesToUtf8 trace_word [0; 0; 1; 2; 2; 1] [] =
    Done [0; 1; 0; 0; 1; 2] /\
  CompressIndicesToUtf8 Uint16ToUtf8 [0; 0; 1; 2; 2; 1] utf8 =
    emit_all Uint16ToUtf8 [0; 1; 0; 0; 1; 2] utf8 /\
  (forall pre post, 0 ∉ pre \/ 1 ∉ pre ->
     CompressIndicesToUtf8 Uint16ToUtf8 (pre ++ 2 :: post) utf8 =
     Abort check_failed).
Proof.
  split; [reflexivity|]. split.
  - rewrite CompressIndicesToUtf8_hwm_deltas; [reflexivity|].
    repeat constructor; lia.
  - intros pre post Hpre. apply CompressIndices_loop_two_early.
    destruct Hpre; [left | right]; split; first [reflexivity | lia | assumption].
Qed.

Lemma index_example_witness :
  (0 ∉ [1; 1] \/ 1 ∉ [1; 1]) /\
  CompressIndicesToUtf8 trace_word ([1; 1] ++ 2 :: [0]) [] = Abort check_failed.
Proof.
  assert (H : (0 : Z) ∉ [1; 1] \/ (1 : Z) ∉ [1; 1]).
  { left. intros Hin. repeat (apply elem_of_cons in Hin as [Hin|Hin]; [lia|]).
    apply elem_of_nil in Hin. exact Hin. }
  split; [exact H|].
  exact (proj2 (proj2 (index_example trace_word [])) [1; 1] [0] H).
Defined.

(** C10. A negative index stops the index compressor: the step that reads
    it fails its first check whatever the mark, although [i <= mark]
    holds for it, and no word is handed to the encoder for it; so a list
    containing a negative index is never compressed. *)
Theorem negative_index_aborts {buffer : Type}
    (Uint16ToUtf8 : Z -> buffer -> bool * buffer) (i : Z) :
  i < 0 ->
  (forall hwm rest utf8, 0 <= hwm ->
     (i <=? hwm) = true /\
     CompressIndices_loop Uint16ToUtf8 hwm (i :: rest) utf8 =
     Abort check_failed) /\
  (forall l utf8, i ∈ l ->
     CompressIndicesToUtf8 Uint16ToUtf8 l utf8 = Abort check_failed) /\
  (forall pre post utf8,
     CompressIndicesToUtf8 Uint16ToUtf8 (pre ++ i :: post) utf8 =
     (CompressIndicesToUtf8 Uint16ToUtf8 pre utf8;; Abort check_failed)).
Proof.
  intros Hneg. split; [|split].
  - intros hwm rest utf8 Hhwm. split; [apply Z.leb_le; lia|].
    apply (CompressIndices_loop_negative _ _ _ i); [left | exact Hneg].
  - intros l utf8 Hin.
    apply (CompressIndices_loop_negative _ _ _ i); assumption.
  - intros pre post utf8.
    apply CompressIndices_loop_negative_prefix, Hneg.
Qed.

Lemma negative_index_aborts_witness :
  -1 < 0 /\
  CompressIndicesToUtf8 trace_word [0; 1; -1; 2] [] = Abort check_failed.
Proof.
  assert (H : -1 < 0) by lia.
  split; [exact H|].
  apply (proj1 (proj2 (negative_index_aborts trace_word (-1) H))).
  do 2 right. left.
Defined.

(** *** Attribute compressor *)

Section AttribFacts.

Context {buffer : Type}.

Variable Uint16ToUtf8 : Z -> buffer -> bool * buffer.

Lemma channel_from_beyond c first count (attribs : list Z) :
  (length attribs <= c + 8 * first)%nat ->
  channel_from c first count attribs = [].
Proof.
  unfold channel_from. revert first.
  induction count as [|count IH]; intros first Hlen; simpl; [reflexivity|].
  rewrite lookup_ge_None_2 by lia. apply IH. lia.
Qed.

Lemma channel_from_step c first count (attribs : list Z) v :
  attribs !! (c + 8 * first)%nat = Some v ->
  channel_from c first (S count) attribs =
  v :: channel_from c (S first) count attribs.
Proof. unfold channel_from. simpl. intros ->. reflexivity. Qed.

Lemma channel_from_lookup c count : forall first (attribs : list Z) vertex,
  channel_from c first count attribs !! vertex =
  if decide (vertex < count)%nat
  then attribs !! (c + 8 * (first + vertex))%nat else None.
Proof.
  induction count as [|count IH]; intros first attribs vertex.
  - destruct (decide (vertex < 0)%nat); [lia | reflexivity].
  - destruct (attribs !! (c + 8 * first)%nat) as [v|] eqn:Hv.
    + rewrite (channel_from_step _ _ _ _ _ Hv).
      destruct vertex as [|vertex]; simpl.
      * rewrite Nat.add_0_r. exact (eq_sym Hv).
      * rewrite IH.
        replace (S first + vertex)%nat with (first + S vertex)%nat by lia.
        destruct (decide (vertex < count)%nat),
          (decide (S vertex < S count)%nat); first [reflexivity | lia].
    + apply lookup_ge_None_1 in Hv.
      rewrite channel_from_beyond by lia. rewrite lookup_nil.
      destruct (decide (vertex < S count)%nat); [|reflexivity].
      symmetry. apply lookup_ge_None_2. lia.
Qed.

Lemma channel_lookup c (attribs : list Z) vertex :
  channel c attribs !! vertex = attribs !! (8 * vertex + c)%nat.
Proof.
  unfold channel. rewrite channel_from_lookup.
  replace (c + 8 * (0 + vertex))%nat with (8 * vertex + c)%nat by lia.
  destruct (decide (vertex < length attribs)%nat); [reflexivity|].
  symmetry. apply lookup_ge_None_2. lia.
Qed.

(** One round of the inner loop. *)
Lemma channel_loop_round attribs j prev (utf8 : buffer) :
  channel_loop Uint16ToUtf8 attribs j prev utf8 =
  if decide (j < length attribs)%nat then
    utf8' ← emit Uint16ToUtf8
              (ZigZag (to_int16 (to_uint16 (attribs !!! j) - prev))) utf8;
    channel_loop Uint16ToUtf8 attribs (j + 8) (to_uint16 (attribs !!! j)) utf8'
  else Done utf8.
Proof.
  rewrite channel_loop_unfold_eq at 1. unfold channel_loop_unfold.
  destruct (decide (j < length attribs)%nat); simpl; [|reflexivity].
  destruct (emit Uint16ToUtf8 _ utf8); reflexivity.
Qed.

(** The inner loop started at slot [c] of vertex [first] encodes the rest
    of channel [c]. *)
Lemma channel_loop_channel_from c count :
  forall first attribs prev (utf8 : buffer),
  (length attribs <= c + 8 * (first + count))%nat ->
  channel_loop Uint16ToUtf8 attribs (c + 8 * first) prev utf8 =
  emit_all Uint16ToUtf8
    (channel_codes prev (channel_from c first count attribs)) utf8.
Proof.
  induction count as [|count IH]; intros first attribs prev utf8 Hlen.
  - rewrite channel_from_beyond, channel_loop_round by lia.
    destruct (decide (c + 8 * first < length attribs)%nat); [lia|].
    reflexivity.
  - rewrite channel_loop_round.
    destruct (decide (c + 8 * first < length attribs)%nat) as [Hlt|Hge].
    + destruct (lookup_lt_is_Some_2 attribs _ Hlt) as [v Hv].
      rewrite (channel_from_step _ _ _ _ _ Hv).
      rewrite (list_lookup_total_correct _ _ _ Hv).
      cbn [channel_codes emit_all].
      destruct (emit Uint16ToUtf8 _ utf8) as [utf8'|e];
        rewrite ?bind_Done, ?bind_Abort; [|reflexivity].
      replace (c + 8 * first + 8)%nat with (c + 8 * S first)%nat by lia.
      apply IH. lia.
    + rewrite channel_from_beyond by lia. reflexivity.
Qed.

Lemma channel_loop_channel c attribs (utf8 : buffer) :
  channel_loop Uint16ToUtf8 attribs c 0 utf8 =
  emit_all Uint16ToUtf8 (channel_codes 0 (channel c attribs)) utf8.
Proof.
  unfold channel.
  rewrite <- (channel_loop_channel_from c (length attribs) 0) by lia.
  f_equal. lia.
Qed.

Lemma channels_loop_codes todo : forall i attribs (utf8 : buffer),
  channels_loop Uint16ToUtf8 todo attribs i utf8 =
  emit_all Uint16ToUtf8
    (c ← seq i todo; channel_codes 0 (channel c attribs)) utf8.
Proof.
  induction todo as [|todo IH]; intros i attribs utf8; [reflexivity|].
  cbn [channels_loop seq]. rewrite channel_loop_channel.
  change (c ← i :: seq (S i) todo; channel_codes 0 (channel c attribs))
    with (channel_codes 0 (channel i attribs) ++
          (c ← seq (S i) todo; channel_codes 0 (channel c attribs))).
  rewrite emit_all_app.
  destruct (emit_all Uint16ToUtf8 _ utf8) as [utf8'|e]; simpl; [|reflexivity].
  apply IH.
Qed.

End AttribFacts.

(** C4. The attribute compressor hands the encoder, whatever the encoder
    is, exactly the codes of channel 0 for every vertex, then those of
    channel 1, and so on up to channel 7; within a channel the code of a
    value is the zigzag of its 16-bit wrap-around difference to the
    previous value of that channel, which is 0 before the first. *)
Theorem CompressQuantizedAttribsToUtf8_transposed {buffer : Type}
    (Uint16ToUtf8 : Z -> buffer -> bool * buffer) (attribs : list Z)
    (utf8 : buffer) :
  CompressQuantizedAttribsToUtf8 Uint16ToUtf8 attribs utf8 =
    emit_all Uint16ToUtf8 (attrib_codes attribs) utf8
  /\ attrib_codes attribs =
       channel_codes 0 (channel 0 attribs) ++
       channel_codes 0 (channel 1 attribs) ++
       channel_codes 0 (channel 2 attribs) ++
       channel_codes 0 (channel 3 attribs) ++
       channel_codes 0 (channel 4 attribs) ++
       channel_codes 0 (channel 5 attribs) ++
       channel_codes 0 (channel 6 attribs) ++
       channel_codes 0 (channel 7 attribs)
  /\ (forall c vertex,
        channel c attribs !! vertex = attribs !! (8 * vertex + c)%nat)
  /\ (forall previous v rest,
        channel_codes previous (v :: rest) =
        zigzag_arith (to_int16 (to_uint16 v - previous))
          :: channel_codes (to_uint16 v) rest).
Proof.
  split; [apply channels_loop_codes|]. split; [|split].
  - unfold attrib_codes. simpl. rewrite app_nil_r. reflexivity.
  - intros c vertex. apply channel_lookup.
  - intros previous v rest. simpl. rewrite ZigZag_arith; [reflexivity|].
    unfold to_int16, is_int16.
    pose proof (Z.mod_pos_bound (to_uint16 v - previous + 32768) 65536).
    lia.
Qed.

Example CompressQuantizedAttribs_two_vertices :
  CompressQuantizedAttribsToUtf8 trace_word two_vertices [] =
  Done [200; 2; 400; 19; 600; 0; 20; 4; 40; 0; 0; 0; 0; 0; 2046; 0].
Proof. reflexivity. Qed.

(** *** Stream assembler *)

Section StreamAssemblerFacts.

Variable encode_varint : Z -> option (list Byte.byte).

Variable can_open : string -> bool.

Local Abbreviation encoder := (Uint16ToUtf8_bytes encode_varint).

(** The encoder only appends: what a compressor leaves in a buffer is
    the buffer followed by what it leaves in an empty one. *)
Lemma emit_bytes_append word utf8 :
  emit encoder word utf8 =
  bytes ← emit encoder word []; mret (utf8 ++ bytes).
Proof.
  unfold emit, Uint16ToUtf8_bytes.
  destruct (encode_varint (to_uint16 word)); reflexivity.
Qed.

Lemma emit_bytes_Done word utf8 utf8' :
  emit encoder word utf8 = Done utf8' <->
  exists bytes,
    encode_varint (to_uint16 word) = Some bytes /\ utf8' = utf8 ++ bytes.
Proof.
  unfold emit, Uint16ToUtf8_bytes.
  destruct (encode_varint (to_uint16 word)) as [bytes|]; cbn.
  - split; [intros [= <-]; eauto | intros (? & [= <-] & ->); reflexivity].
  - split; [discriminate | intros (? & [=] & _)].
Qed.

Lemma emit_all_bytes_append words utf8 :
  emit_all encoder words utf8 =
  bytes ← emit_all encoder words []; mret (utf8 ++ bytes).
Proof.
  revert utf8. induction words as [|w words IH]; intros utf8; simpl.
  - rewrite app_nil_r. reflexivity.
  - rewrite (emit_bytes_append w utf8).
    destruct (emit encoder w []) as [b|e]; simpl; [|reflexivity].
    rewrite (IH (utf8 ++ b)), (IH b).
    destruct (emit_all encoder words []); simpl; [|reflexivity].
    rewrite app_assoc. reflexivity.
Qed.

Lemma CompressIndices_loop_bytes_append hwm indices utf8 :
  CompressIndices_loop encoder hwm indices utf8 =
  bytes ← CompressIndices_loop encoder hwm indices [];
  mret (utf8 ++ bytes).
Proof.
  revert hwm utf8. induction indices as [|i indices IH]; intros hwm utf8; simpl.
  - rewrite app_nil_r. reflexivity.
  - destruct (0 <=? i); simpl; [|reflexivity].
    destruct (i <=? hwm); simpl; [|reflexivity].
    rewrite (emit_bytes_append _ utf8).
    destruct (emit encoder (hwm - i) []) as [b|e]; simpl;
      [|reflexivity].
    rewrite (IH _ (utf8 ++ b)), (IH _ b).
    destruct (CompressIndices_loop encoder _ indices []); simpl;
      [|reflexivity].
    rewrite app_assoc. reflexivity.
Qed.

Lemma land_7_mod_8 n : (Z.land n 7 =? 0) = bool_decide (n mod 8 = 0).
Proof.
  change 7 with (Z.ones 3). rewrite Z.land_ones by lia. change (2 ^ 3) with 8.
  destruct (Z.eqb_spec (n mod 8) 0) as [->|Hne].
  - reflexivity.
  - symmetry. apply bool_decide_eq_false. exact Hne.
Qed.

Lemma CompressSimpleMeshToFile_stream_of attribs indices fn fs :
  CompressSimpleMeshToFile encode_varint can_open attribs indices fn fs =
  match stream_of encode_varint attribs indices with
  | Done utf8 =>
      if can_open fn then (Done tt, <[fn := utf8]> fs)
      else (Abort undefined_access, fs)
  | Abort e => (Abort e, fs)
  end.
Proof.
  unfold CompressSimpleMeshToFile, stream_of.
  unfold mbind at 1 2 3 4 5 6 7 8, process_bind, in_memory, fopen_wb, fwrite,
    fclose.
  destruct (CHECK (Z.land _ 7 =? 0)); simpl; [|reflexivity].
  destruct (CHECK (0 <? _)); simpl; [|reflexivity].
  destruct (CHECK (_ <? 65536)); simpl; [|reflexivity].
  destruct (emit _ _ []) as [u1|]; simpl; [|reflexivity].
  destruct (CompressQuantizedAttribsToUtf8 _ attribs u1) as [u2|]; simpl;
    [|reflexivity].
  destruct (CompressIndicesToUtf8 _ indices u2) as [u3|]; simpl;
    [|reflexivity].
  destruct (can_open fn); [|reflexivity].
  rewrite lookup_insert_eq, insert_insert_eq. reflexivity.
Qed.

Lemma stream_of_check_failed attribs indices e :
  stream_of encode_varint attribs indices = Abort e -> e = check_failed.
Proof.
  unfold stream_of, CHECK.
  destruct (Z.land _ 7 =? 0); simpl; [|congruence].
  destruct (0 <? _); simpl; [|congruence].
  destruct (_ <? 65536); simpl; [|congruence].
  destruct (emit _ _ []) as [u1|e1] eqn:H1; simpl;
    [|intros [= <-]; eapply emit_check_failed, H1].
  unfold CompressQuantizedAttribsToUtf8. rewrite channels_loop_codes.
  destruct (emit_all _ _ u1) as [u2|e2] eqn:H2; simpl;
    [|intros [= <-]; eapply emit_all_check_failed, H2].
  apply CompressIndices_loop_check_failed.
Qed.

(** C5. When the attribute buffer holds a whole number of 8-value
    records, between 1 and 65535 of them, and the file can be opened, the
    file written is the encoding of the vertex count less one, then all
    the attribute compressor produces, then all the index compressor
    produces.  When the length is not a multiple of 8, or the vertex
    count is 0 or at least 65536, or an index is above the high water
    mark, the process stops at a failed check and no file has been
    touched.  When the file cannot be opened, the [NULL] that [fopen]
    returns goes untested to [fwrite], and the process stops there.  No
    stop of any kind leaves a file changed, and there is no other stop
    than these two. *)
Theorem CompressSimpleMeshToFile_output attribs indices fn fs :
  let num_verts := Z.of_nat (length attribs) / 8 in
  (forall header attrib_bytes index_bytes,
     Z.of_nat (length attribs) mod 8 = 0 ->
     0 < num_verts < 65536 ->
     encode_varint (num_verts - 1) = Some header ->
     CompressQuantizedAttribsToUtf8 (Uint16ToUtf8_bytes encode_varint)
       attribs [] = Done attrib_bytes ->
     CompressIndicesToUtf8 (Uint16ToUtf8_bytes encode_varint)
       indices [] = Done index_bytes ->
     (can_open fn = true ->
      CompressSimpleMeshToFile encode_varint can_open attribs indices fn fs =
      (Done tt, <[fn := header ++ attrib_bytes ++ index_bytes]> fs)) /\
     (can_open fn = false ->
      CompressSimpleMeshToFile encode_varint can_open attribs indices fn fs =
      (Abort undefined_access, fs))) /\
  (Z.of_nat (length attribs) mod 8 <> 0 \/ num_verts = 0 \/
   65536 <= num_verts \/
   (exists pre i post, indices = pre ++ i :: post /\ hwm_after pre < i) ->
   CompressSimpleMeshToFile encode_varint can_open attribs indices fn fs =
   (Abort check_failed, fs)) /\
  (forall e fs',
     CompressSimpleMeshToFile encode_varint can_open attribs indices fn fs =
     (Abort e, fs') ->
     fs' = fs /\
     (e = check_failed \/ e = undefined_access /\ can_open fn = false)).
Proof.
  intros num_verts. rewrite CompressSimpleMeshToFile_stream_of.
  split; [|split].
  - intros header attrib_bytes index_bytes Hmod Hnv Hh Ha Hi.
    assert (Hs : stream_of encode_varint attribs indices =
                 Done (header ++ attrib_bytes ++ index_bytes)).
    { unfold stream_of. fold num_verts.
      rewrite land_7_mod_8, bool_decide_eq_true_2 by exact Hmod.
      destruct (Z.ltb_spec 0 num_verts); [|lia].
      destruct (Z.ltb_spec num_verts 65536); [|lia].
      cbn [CHECK mbind outcome_bind].
      assert (He : emit encoder (num_verts - 1) [] = Done header).
      { apply emit_bytes_Done. exists header. split; [|reflexivity].
        unfold to_uint16. rewrite Z.mod_small by lia. exact Hh. }
      rewrite He. cbn [mbind outcome_bind].
      unfold CompressQuantizedAttribsToUtf8 in *.
      rewrite channels_loop_codes in *.
      rewrite emit_all_bytes_append, Ha.
      cbn [mbind outcome_bind mret outcome_ret].
      unfold CompressIndicesToUtf8 in *.
      rewrite CompressIndices_loop_bytes_append, Hi.
      cbn [mbind outcome_bind mret outcome_ret].
      rewrite <- app_assoc. reflexivity. }
    rewrite Hs. split; intros ->; reflexivity.
  - intros Hbad.
    destruct (stream_of encode_varint attribs indices) as [utf8|e] eqn:Hs.
    + exfalso. revert Hs. unfold stream_of. fold num_verts.
      rewrite land_7_mod_8.
      destruct (decide (Z.of_nat (length attribs) mod 8 = 0)) as [Hmod|Hmod];
        [rewrite bool_decide_eq_true_2 by exact Hmod
        |rewrite bool_decide_eq_false_2 by exact Hmod; discriminate].
      destruct (Z.ltb_spec 0 num_verts); [|discriminate].
      destruct (Z.ltb_spec num_verts 65536); [|discriminate].
      cbn [CHECK mbind outcome_bind].
      destruct Hbad as [?|[?|[?|(pre & i & post & -> & Hi)]]]; [lia..|].
      destruct (emit _ _ []) as [u1|]; cbn [mbind outcome_bind]; [|discriminate].
      destruct (CompressQuantizedAttribsToUtf8 _ attribs u1) as [u2|];
        cbn [mbind outcome_bind]; [|discriminate].
      unfold CompressIndicesToUtf8.
      rewrite (CompressIndices_loop_above_mark _ 0 0) by (lia || exact Hi).
      discriminate.
    + rewrite (stream_of_check_failed _ _ _ Hs). reflexivity.
  - intros e fs'.
    destruct (stream_of encode_varint attribs indices) as [utf8|e0] eqn:Hs.
    + destruct (can_open fn); [discriminate|].
      intros [= <- <-]. auto.
    + intros [= <- <-]. split; [reflexivity|]. left.
      eapply stream_of_check_failed, Hs.
Qed.

End StreamAssemblerFacts.

Lemma CompressSimpleMeshToFile_output_witness :
  CompressSimpleMeshToFile utf8_bytes (fun _ => true) two_vertices [0; 1; 1]
    "mesh.utf8" ∅ =
    (Done tt,
     <["mesh.utf8" :=
         [Byte.x01] ++
         [Byte.xc3; Byte.x88; Byte.x02; Byte.xc6; Byte.x90; Byte.x13;
          Byte.xc9; Byte.x98; Byte.x00; Byte.x14; Byte.x04; Byte.x28;
          Byte.x00; Byte.x00; Byte.x00; Byte.x00; Byte.x00; Byte.xdf;
          Byte.xbe; Byte.x00] ++
         [Byte.x00; Byte.x00; Byte.x01]]> ∅) /\
  CompressSimpleMeshToFile utf8_bytes (fun _ => false) two_vertices [0; 1; 1]
    "no_such_directory/mesh.utf8" ∅ =
    (Abort undefined_access, ∅) /\
  CompressSimpleMeshToFile utf8_bytes (fun _ => true) two_vertices [0; 2; 1]
    "mesh.utf8" ∅ =
    (Abort check_failed, ∅).
Proof.
  split; [|split].
  - apply (proj1 (CompressSimpleMeshToFile_output utf8_bytes (fun _ => true)
                    two_vertices [0; 1; 1] "mesh.utf8" ∅)).
    + reflexivity.
    + vm_compute. split; reflexivity.
    + reflexivity.
    + reflexivity.
    + reflexivity.
    + reflexivity.
  - apply (proj1 (CompressSimpleMeshToFile_output utf8_bytes (fun _ => false)
                    two_vertices [0; 1; 1] "no_such_directory/mesh.utf8" ∅)
             [Byte.x01]
             [Byte.xc3; Byte.x88; Byte.x02; Byte.xc6; Byte.x90; Byte.x13;
              Byte.xc9; Byte.x98; Byte.x00; Byte.x14; Byte.x04; Byte.x28;
              Byte.x00; Byte.x00; Byte.x00; Byte.x00; Byte.x00; Byte.xdf;
              Byte.xbe; Byte.x00]
             [Byte.x00; Byte.x00; Byte.x01]).
    + reflexivity.
    + vm_compute. split; reflexivity.
    + reflexivity.
    + reflexivity.
    + reflexivity.
    + reflexivity.
  - apply (proj1 (proj2 (CompressSimpleMeshToFile_output utf8_bytes
                           (fun _ => true) two_vertices [0; 2; 1]
                           "mesh.utf8" ∅))).
    do 3 right. exists [0], 2, [1]. split; reflexivity.
Defined.

(** ** Bounds and quantization parameters *)

Example binary32_sub_examples :
  binary32_sub float_one float_two = float_neg float_one /\
  binary32_sub float_two float_one = float_one /\
  binary32_sub (float_neg FLT_MAX) FLT_MAX = float_neg float_infinity /\
  binary32_sub FLT_MAX FLT_MAX = float_zero /\
  binary32_sub float_one 0x33000000 = float_one /\
  binary32_sub float_one 0x33800000 = 0x3f7fffff /\
  binary32_sub 0x40400000 0x3fc00000 = 0x3fc00000 /\
  binary32_sub float_infinity float_infinity = float_nan /\
  binary32_sub 0x00000001 0x00000003 = 0x80000002.
Proof. repeat split; reflexivity. Qed.

Lemma float_key_FLT_MAX_infinity :
  float_key FLT_MAX < float_key float_infinity /\
  float_is_nan FLT_MAX = false /\ float_is_nan float_infinity = false.
Proof. repeat split; reflexivity. Qed.

(** C9, as stated, fails: after [Clear] the minimum of channel 0 is the
    largest finite float, not plus infinity, and the maximum is its
    opposite, not minus infinity. *)
Lemma Clear_infinity_counterexample :
  mins (Clear zero_bounds) 0%nat <> float_infinity /\
  maxes (Clear zero_bounds) 0%nat <> float_neg float_infinity.
Proof. split; vm_compute; discriminate. Qed.

(** C9 (amended). After [Clear], every one of the 8 channels has
    min = FLT_MAX, the largest finite float, and max = -FLT_MAX. *)
Theorem Clear_bounds (b : Bounds) (i : nat) :
  (i < 8)%nat ->
  mins (Clear b) i = FLT_MAX /\ maxes (Clear b) i = float_neg FLT_MAX.
Proof.
  intros Hi. do 8 (destruct i as [|i]; [split; reflexivity|]). lia.
Qed.

Lemma Clear_bounds_witness :
  (7 < 8)%nat /\
  mins (Clear zero_bounds) 7%nat = 0x7f7fffff /\
  maxes (Clear zero_bounds) 7%nat = 0xff7fffff.
Proof.
  assert (H : (7 < 8)%nat) by lia.
  split; [exact H | exact (Clear_bounds zero_bounds 7 H)].
Defined.

Section QuantizationFacts.

Variable float_sub : float -> float -> float.

Variable uninitialized : BoundsParams.

(** The scale picked is one of the three extents; when none of them is a
    NaN it is at least each of them. *)
Lemma UniformScaleFromBounds_largest (bounds : Bounds) :
  let x := float_sub (maxes bounds 0%nat) (mins bounds 0%nat) in
  let y := float_sub (maxes bounds 1%nat) (mins bounds 1%nat) in
  let z := float_sub (maxes bounds 2%nat) (mins bounds 2%nat) in
  let scale := UniformScaleFromBounds float_sub bounds in
  (scale = x \/ scale = y \/ scale = z) /\
  (float_is_nan x = false -> float_is_nan y = false ->
   float_is_nan z = false ->
   float_key x <= float_key scale /\ float_key y <= float_key scale /\
   float_key z <= float_key scale).
Proof.
  intros x y z scale. subst scale. unfold UniformScaleFromBounds.
  fold x y z. unfold float_gt. split.
  - repeat match goal with |- context [if ?b then _ else _] => destruct b end;
      auto.
  - intros -> -> ->. simpl.
    destruct (Z.ltb_spec (float_key y) (float_key x)),
      (Z.ltb_spec (float_key z) (float_key x)),
      (Z.ltb_spec (float_key z) (float_key y)); lia.
Qed.

(** C6. The parameters derived from any bounds: position channels 0-2
    have offset = -min of the channel, the one scale of
    [UniformScaleFromBounds] -- one of the three extents max - min and,
    NaNs apart, the largest of them -- and 14 bits; texcoord channels 3-4
    have offset = -min, scale = max - min of the channel and 10 bits;
    normal channels 5-7 have offset 1.0, scale 2.0 and 10 bits. *)
Theorem FromBounds_params (bounds : Bounds) :
  let params := FromBounds float_sub uninitialized bounds in
  let extent i := float_sub (maxes bounds i) (mins bounds i) in
  (forall i, (i < 3)%nat ->
     offsets params i = float_neg (mins bounds i) /\
     scales params i = UniformScaleFromBounds float_sub bounds /\
     bits params i = 14) /\
  (exists c, (c < 3)%nat /\
     UniformScaleFromBounds float_sub bounds = extent c) /\
  (forall c, (c < 3)%nat ->
     float_is_nan (extent 0%nat) = false ->
     float_is_nan (extent 1%nat) = false ->
     float_is_nan (extent 2%nat) = false ->
     float_gt (extent c) (UniformScaleFromBounds float_sub bounds) = false /\
     float_key (extent c) <=
       float_key (UniformScaleFromBounds float_sub bounds)) /\
  (forall i, (3 <= i < 5)%nat ->
     offsets params i = float_neg (mins bounds i) /\
     scales params i = extent i /\
     bits params i = 10) /\
  (forall i, (5 <= i < 8)%nat ->
     offsets params i = float_one /\
     scales params i = float_two /\
     bits params i = 10).
Proof.
  intros params extent.
  destruct (UniformScaleFromBounds_largest bounds) as [Hone Hmax].
  split; [|split; [|split; [|split]]].
  - intros i Hi. do 3 (destruct i as [|i]; [repeat split; reflexivity|]). lia.
  - destruct Hone as [H|[H|H]];
      [exists 0%nat | exists 1%nat | exists 2%nat]; (split; [lia | exact H]).
  - intros c Hc Hx Hy Hz. destruct (Hmax Hx Hy Hz) as (H0 & H1 & H2).
    assert (Hle : float_key (extent c) <=
                  float_key (UniformScaleFromBounds float_sub bounds)).
    { do 3 (destruct c as [|c]; [assumption|]). lia. }
    split; [|exact Hle].
    unfold float_gt. destruct (Z.ltb_spec
      (float_key (UniformScaleFromBounds float_sub bounds))
      (float_key (extent c))); [lia|].
    rewrite andb_false_r. reflexivity.
  - intros i Hi. do 3 (destruct i as [|i]; [lia|]).
    do 2 (destruct i as [|i]; [repeat split; reflexivity|]). lia.
  - intros i Hi. do 5 (destruct i as [|i]; [lia|]).
    do 3 (destruct i as [|i]; [repeat split; reflexivity|]). lia.
Qed.

End QuantizationFacts.

Lemma FromBounds_params_witness :
  let params := FromBounds binary32_sub no_params sample_bounds in
  (1 < 3)%nat /\
  offsets params 1%nat = float_one /\ scales params 1%nat = 0x40400000 /\
  bits params 1%nat = 14 /\
  float_key (binary32_sub 0x3f000000 (float_neg float_one)) <=
    float_key (UniformScaleFromBounds binary32_sub sample_bounds) /\
  (3 <= 4 < 5)%nat /\ scales params 4%nat = float_two /\
  (5 <= 6 < 8)%nat /\ offsets params 6%nat = float_one.
Proof.
  intros params.
  destruct (FromBounds_params binary32_sub no_params sample_bounds)
    as (Hpos & _ & Hmax & Htex & Hnor).
  assert (H1 : (1 < 3)%nat) by lia.
  assert (H4 : (3 <= 4 < 5)%nat) by lia.
  assert (H6 : (5 <= 6 < 8)%nat) by lia.
  split; [exact H1|].
  split; [exact (proj1 (Hpos 1%nat H1))|].
  split; [exact (proj1 (proj2 (Hpos 1%nat H1)))|].
  split; [exact (proj2 (proj2 (Hpos 1%nat H1)))|].
  split; [exact (proj2 (Hmax 1%nat H1 eq_refl eq_refl eq_refl))|].
  split; [exact H4|].
  split; [exact (proj1 (proj2 (Htex 4%nat H4)))|].
  split; [exact H6 | exact (proj1 (Hnor 6%nat H6))].
Defined.

(** ** The index flattener *)

Lemma flat_inv_new num_positions :
  flattener_inv (IndexFlattener_new num_positions) [].
Proof.
  split; simpl.
  - reflexivity.
  - constructor.
  - intros i e He. apply lookup_replicate in He as [-> _].
    unfold slot_ok. simpl. intros t n Hin. apply elem_of_nil in Hin. exact Hin.
  - intros p t n Hin. apply elem_of_nil in Hin. destruct Hin.
  - intros p t n k Hk. rewrite lookup_empty in Hk. discriminate.
Qed.

Lemma flat_inv_resize cnt table m seen size :
  flat_inv cnt table m seen -> (length table <= size)%nat ->
  flat_inv cnt (resize size IndexType_default table) m seen.
Proof.
  intros [Hc Hn Hs Ht Hm] Hsize. split; try assumption.
  - intros i e He.
    destruct (decide (i < length table)%nat) as [Hlt|Hge].
    + rewrite lookup_resize in He by (try lia). apply Hs, He.
    + assert (i < size)%nat.
      { apply lookup_lt_Some in He. rewrite length_resize in He. exact He. }
      rewrite lookup_resize_new in He by lia. injection He as <-.
      unfold slot_ok. simpl. intros t n Hin. apply Ht in Hin. lia.
  - intros p t n Hin. apply Ht in Hin. rewrite length_resize. lia.
  - intros p t n k Hk. destruct (Hm _ _ _ _ Hk) as (Hp & e & He & Hpe).
    split; [exact Hp|]. exists e. split; [|exact Hpe].
    pose proof (lookup_lt_Some _ _ _ He).
    rewrite lookup_resize by lia. exact He.
Qed.

Lemma list_find_eq_Some (seen : list (Z * Z * Z)) i c :
  NoDup seen -> seen !! i = Some c -> list_find (eq c) seen = Some (i, c).
Proof.
  intros Hnd Hi. apply list_find_Some. split; [exact Hi|]. split; [reflexivity|].
  intros j y Hj Hlt ->.
  pose proof (NoDup_lookup _ _ _ _ Hnd Hi Hj). lia.
Qed.

Lemma list_find_eq_None (seen : list (Z * Z * Z)) c :
  c ∉ seen -> list_find (eq c) seen = None.
Proof.
  intros Hc. apply list_find_None. apply list.Forall_forall. intros x Hx ->.
  exact (Hc Hx).
Qed.

Lemma slot_ok_other m m' seen p t n q e :
  q <> p ->
  (forall t' n', m' !! (q, t', n') = m !! (q, t', n')) ->
  slot_ok m seen q e -> slot_ok m' (seen ++ [(p, t, n)]) q e.
Proof.
  intros Hq Hm. unfold slot_ok.
  destruct (position_or_flat e =? kIndexUnknown);
    [|destruct (position_or_flat e =? kIndexNotInTable)].
  - intros H t' n' Hin. apply elem_of_app in Hin as [Hin|Hin].
    + exact (H _ _ Hin).
    + apply list_elem_of_singleton in Hin. congruence.
  - intros H t' n' k. rewrite Hm, H. split; intros [Hk Hl]; (split; [exact Hk|]).
    + apply lookup_app_l_Some, Hl.
    + apply lookup_snoc_Some in Hl as [[_ Hl]|[_ Hl]]; [exact Hl | congruence].
  - intros (H0 & Hl & Hu). split; [exact H0|]. split.
    + apply lookup_app_l_Some, Hl.
    + intros t' n' Hin. apply elem_of_app in Hin as [Hin|Hin].
      * exact (Hu _ _ Hin).
      * apply list_elem_of_singleton in Hin. congruence.
Qed.

Lemma flat_inv_not_seen cnt table m seen p t n :
  flat_inv cnt table m seen -> (p, t, n) ∉ seen ->
  NoDup (seen ++ [(p, t, n)]) /\
  cnt + 1 = Z.of_nat (length (seen ++ [(p, t, n)])) /\
  (seen ++ [(p, t, n)]) !! Z.to_nat cnt = Some (p, t, n).
Proof.
  intros [Hc Hn _ _ _] Hnew. split; [|split].
  - apply list.NoDup_app. split; [exact Hn|]. split; [|apply NoDup_singleton].
    intros x Hx Hx'. apply list_elem_of_singleton in Hx'. subst x. exact (Hnew Hx).
  - rewrite length_app. simpl. lia.
  - subst cnt. rewrite Nat2Z.id. apply list_lookup_middle. reflexivity.
Qed.

(** First time the position is met: the table slot takes the flat index. *)
Lemma flat_inv_unknown cnt table m seen p t n e :
  flat_inv cnt table m seen -> 0 <= p ->
  table !! Z.to_nat p = Some e -> position_or_flat e = kIndexUnknown ->
  ((p, t, n) ∉ seen) /\
  flat_inv (cnt + 1)
    (<[Z.to_nat p := {| position_or_flat := cnt; texcoord := t; normal := n |}]>
       table)
    m (seen ++ [(p, t, n)]).
Proof.
  intros Hinv Hp He Hpe.
  assert (Hnone : forall t' n', (p, t', n') ∉ seen).
  { pose proof (inv_slot _ _ _ _ Hinv _ _ He) as Hs.
    unfold slot_ok in Hs. rewrite Hpe, Z2Nat.id in Hs by lia. exact Hs. }
  split; [apply Hnone|].
  destruct (flat_inv_not_seen _ _ _ _ p t n Hinv (Hnone _ _)) as (Hnd & Hcnt & Hlk).
  destruct Hinv as [Hc Hn Hs Ht Hm]. split.
  - exact Hcnt.
  - exact Hnd.
  - intros i e' He'. destruct (decide (i = Z.to_nat p)) as [->|Hne].
    + rewrite list_lookup_insert_eq in He' by (eapply lookup_lt_Some, He).
      injection He' as <-. rewrite Z2Nat.id by lia.
      unfold slot_ok. simpl.
      destruct (Z.eqb_spec cnt kIndexUnknown); [unfold kIndexUnknown in *; lia|].
      destruct (Z.eqb_spec cnt kIndexNotInTable);
        [unfold kIndexNotInTable in *; lia|].
      split; [lia|]. split; [exact Hlk|].
      intros t' n' Hin. apply elem_of_app in Hin as [Hin|Hin].
      * destruct (Hnone _ _ Hin).
      * apply list_elem_of_singleton in Hin. injection Hin as -> ->. auto.
    + rewrite list_lookup_insert_ne in He' by congruence.
      apply (slot_ok_other m); [lia | reflexivity | apply Hs, He'].
  - intros p' t' n' Hin. rewrite length_insert.
    apply elem_of_app in Hin as [Hin|Hin]; [exact (Ht _ _ _ Hin)|].
    apply list_elem_of_singleton in Hin. injection Hin as -> -> ->.
    apply lookup_lt_Some in He. lia.
  - intros p' t' n' k Hk. destruct (Hm _ _ _ _ Hk) as (Hp' & e' & He' & Hpe').
    split; [exact Hp'|]. exists e'. split; [|exact Hpe'].
    rewrite list_lookup_insert_ne; [exact He'|].
    intros Heq. rewrite <- Heq, He in He'. injection He' as <-.
    rewrite Hpe in Hpe'. discriminate.
Qed.

(** The position is marked as being in the map: the map is looked up. *)
Lemma flat_inv_from_map cnt table m seen p t n e :
  flat_inv cnt table m seen -> 0 <= p ->
  table !! Z.to_nat p = Some e -> position_or_flat e = kIndexNotInTable ->
  match m !! (p, t, n) with
  | Some k => 0 <= k /\ seen !! Z.to_nat k = Some (p, t, n)
  | None =>
      ((p, t, n) ∉ seen) /\
      flat_inv (cnt + 1) table (<[(p, t, n) := cnt]> m) (seen ++ [(p, t, n)])
  end.
Proof.
  intros Hinv Hp He Hpe.
  assert (Hmap : forall t' n' k,
            m !! (p, t', n') = Some k <->
            0 <= k /\ seen !! Z.to_nat k = Some (p, t', n')).
  { pose proof (inv_slot _ _ _ _ Hinv _ _ He) as Hs.
    unfold slot_ok in Hs. rewrite Hpe, Z2Nat.id in Hs by lia. exact Hs. }
  destruct (m !! (p, t, n)) as [k|] eqn:Hk; [apply Hmap, Hk|].
  assert (Hnew : (p, t, n) ∉ seen).
  { intros Hin. apply list_elem_of_lookup in Hin as [i Hi].
    assert (Hs : m !! (p, t, n) = Some (Z.of_nat i)).
    { apply Hmap. rewrite Nat2Z.id. split; [lia | exact Hi]. }
    congruence. }
  split; [exact Hnew|].
  destruct (flat_inv_not_seen _ _ _ _ p t n Hinv Hnew) as (Hnd & Hcnt & Hlk).
  destruct Hinv as [Hc Hn Hs Ht Hm]. split.
  - exact Hcnt.
  - exact Hnd.
  - intros i e' He'. destruct (decide (i = Z.to_nat p)) as [->|Hne].
    + rewrite He in He'. injection He' as <-. rewrite Z2Nat.id by lia.
      unfold slot_ok. rewrite Hpe. simpl. intros t' n' k.
      destruct (decide ((p, t', n') = (p, t, n))) as [Heq|Hneq].
      * rewrite Heq, lookup_insert_eq. split.
        -- intros [= <-]. split; [lia | exact Hlk].
        -- intros [Hk0 Hl]. f_equal.
           pose proof (NoDup_lookup _ _ _ _ Hnd Hl Hlk). lia.
      * rewrite lookup_insert_ne by congruence. rewrite Hmap.
        split; intros [Hk0 Hl]; (split; [exact Hk0|]).
        -- apply lookup_app_l_Some, Hl.
        -- apply lookup_snoc_Some in Hl as [[_ Hl]|[_ Hl]];
             [exact Hl | congruence].
    + apply (slot_ok_other m); [lia | | apply Hs, He'].
      intros t' n'. apply lookup_insert_ne. intros [= Heq _ _]. lia.
  - intros p' t' n' Hin.
    apply elem_of_app in Hin as [Hin|Hin]; [exact (Ht _ _ _ Hin)|].
    apply list_elem_of_singleton in Hin. injection Hin as -> -> ->.
    apply lookup_lt_Some in He. lia.
  - intros p' t' n' k Hk'.
    destruct (decide ((p, t, n) = (p', t', n'))) as [Heq|Hneq].
    + injection Heq as <- <- <-. split; [exact Hp|]. exists e. auto.
    + rewrite lookup_insert_ne in Hk' by exact Hneq. exact (Hm _ _ _ _ Hk').
Qed.

(** The slot caches a flat index. *)
Lemma flat_inv_cached cnt table m seen p e :
  flat_inv cnt table m seen -> 0 <= p ->
  table !! Z.to_nat p = Some e ->
  position_or_flat e <> kIndexUnknown ->
  position_or_flat e <> kIndexNotInTable ->
  0 <= position_or_flat e /\
  seen !! Z.to_nat (position_or_flat e) = Some (p, texcoord e, normal e) /\
  (forall t n, (p, t, n) ∈ seen -> t = texcoord e /\ n = normal e) /\
  (forall t n, m !! (p, t, n) = None).
Proof.
  intros Hinv Hp He Hu Ha.
  pose proof (inv_slot _ _ _ _ Hinv _ _ He) as Hs.
  unfold slot_ok in Hs. rewrite Z2Nat.id in Hs by lia.
  destruct (Z.eqb_spec (position_or_flat e) kIndexUnknown) as [|_];
    [contradiction|].
  destruct (Z.eqb_spec (position_or_flat e) kIndexNotInTable) as [|_];
    [contradiction|].
  destruct Hs as (H0 & Hl & Huniq).
  split; [exact H0|]. split; [exact Hl|]. split; [exact Huniq|].
  intros t n. destruct (m !! (p, t, n)) as [k|] eqn:Hk; [|reflexivity].
    destruct (inv_map _ _ _ _ Hinv _ _ _ _ Hk) as (_ & e' & He' & Hpe').
    congruence.
Qed.

(** The slot caches another pair for this position: both triples go to
    the map and the slot is marked. *)
Lemma flat_inv_ambiguous cnt table m seen p t n e :
  flat_inv cnt table m seen -> 0 <= p ->
  table !! Z.to_nat p = Some e ->
  position_or_flat e <> kIndexUnknown ->
  position_or_flat e <> kIndexNotInTable ->
  (texcoord e, normal e) <> (t, n) ->
  ((p, t, n) ∉ seen) /\
  flat_inv (cnt + 1)
    (<[Z.to_nat p := {| position_or_flat := kIndexNotInTable;
                        texcoord := texcoord e; normal := normal e |}]> table)
    (map_insert (p, t, n) cnt
       (map_insert (p, texcoord e, normal e) (position_or_flat e) m))
    (seen ++ [(p, t, n)]).
Proof.
  intros Hinv Hp He Hu Ha Hne.
  destruct (flat_inv_cached _ _ _ _ _ _ Hinv Hp He Hu Ha)
    as (H0 & Hl & Huniq & Hnone).
  assert (Hnew : (p, t, n) ∉ seen).
  { intros Hin. destruct (Huniq _ _ Hin). congruence. }
  split; [exact Hnew|].
  destruct (flat_inv_not_seen _ _ _ _ p t n Hinv Hnew) as (Hnd & Hcnt & Hlk).
  unfold map_insert. rewrite Hnone.
  rewrite lookup_insert_ne by congruence. rewrite Hnone.
  destruct Hinv as [Hc Hn Hs Ht Hm]. split.
  - exact Hcnt.
  - exact Hnd.
  - intros i e' He'. destruct (decide (i = Z.to_nat p)) as [->|Hni].
    + rewrite list_lookup_insert_eq in He' by (eapply lookup_lt_Some, He).
      injection He' as <-. rewrite Z2Nat.id by lia.
      unfold slot_ok. simpl. intros t' n' k.
      destruct (decide ((p, t', n') = (p, t, n))) as [Heq|Hneq].
      * rewrite Heq, lookup_insert_eq. split.
        -- intros [= <-]. split; [lia | exact Hlk].
        -- intros [Hk0 Hl']. f_equal.
           pose proof (NoDup_lookup _ _ _ _ Hnd Hl' Hlk). lia.
      * rewrite lookup_insert_ne by congruence.
        destruct (decide ((p, t', n') = (p, texcoord e, normal e)))
          as [Heq'|Hneq'].
        -- rewrite Heq', lookup_insert_eq. split.
           ++ intros [= <-]. split; [exact H0|].
              apply lookup_app_l_Some, Hl.
           ++ intros [Hk0 Hl']. f_equal.
              pose proof (lookup_app_l_Some _ [(p, t, n)] _ _ Hl) as Hl2.
              pose proof (NoDup_lookup _ _ _ _ Hnd Hl' Hl2). lia.
        -- rewrite lookup_insert_ne by congruence. rewrite Hnone.
           split; [discriminate|]. intros [_ Hl'].
           apply lookup_snoc_Some in Hl' as [[_ Hl']|[_ Hl']];
             [|congruence].
           apply list_elem_of_lookup_2 in Hl'. destruct (Huniq _ _ Hl').
           congruence.
    + rewrite list_lookup_insert_ne in He' by congruence.
      apply (slot_ok_other m); [lia | | apply Hs, He'].
      intros t' n'. rewrite !lookup_insert_ne; [reflexivity| |];
        intros [= Heq _ _]; lia.
  - intros p' t' n' Hin. rewrite length_insert.
    apply elem_of_app in Hin as [Hin|Hin]; [exact (Ht _ _ _ Hin)|].
    apply list_elem_of_singleton in Hin. injection Hin as -> -> ->.
    apply lookup_lt_Some in He. lia.
  - intros p' t' n' k Hk.
    assert (Hslot : 0 <= p /\ exists e0,
              <[Z.to_nat p := {| position_or_flat := kIndexNotInTable;
                                 texcoord := texcoord e;
                                 normal := normal e |}]> table
                !! Z.to_nat p = Some e0 /\
              position_or_flat e0 = kIndexNotInTable).
    { split; [exact Hp|]. eexists.
      split; [apply list_lookup_insert_eq; eapply lookup_lt_Some, He|].
      reflexivity. }
    destruct (decide ((p, t, n) = (p', t', n'))) as [Heq|Hneq];
      [injection Heq as <- <- <-; exact Hslot|].
    rewrite lookup_insert_ne in Hk by exact Hneq.
    destruct (decide ((p, texcoord e, normal e) = (p', t', n'))) as [Heq|Hneq'];
      [injection Heq as <- <- <-; exact Hslot|].
    rewrite lookup_insert_ne in Hk by exact Hneq'.
    destruct (Hm _ _ _ _ Hk) as (Hp' & e' & He' & Hpe').
    split; [exact Hp'|]. exists e'. split; [|exact Hpe'].
    rewrite list_lookup_insert_ne; [exact He'|].
    intros Heq. rewrite <- Heq, He in He'. injection He' as <-. contradiction.
Qed.

(** One call: the pair returned is the place of the triple among those
    seen, new or not, and the invariant goes on. *)
Lemma GetFlattenedIndex_step f seen p t n :
  flattener_inv f seen -> 0 <= p ->
  exists f',
    GetFlattenedIndex p t n f =
      Done (match list_find (eq (p, t, n)) seen with
            | Some (i, _) => (Z.of_nat i, false)
            | None => (Z.of_nat (length seen), true)
            end, f') /\
    flattener_inv f'
      (if decide ((p, t, n) ∈ seen) then seen else seen ++ [(p, t, n)]).
Proof.
  unfold flattener_inv. intros Hinv Hp. unfold GetFlattenedIndex.
  set (table := if Z.of_nat (length (table_ f)) <=? p
                then resize (Z.to_nat (p + 1)) IndexType_default (table_ f)
                else table_ f).
  assert (flat_inv (count_ f) table (map_ f) seen /\
          (Z.to_nat p < length table)%nat) as [Hinv1 Hlen].
  { subst table. destruct (Z.leb_spec (Z.of_nat (length (table_ f))) p).
    - split; [apply flat_inv_resize; [exact Hinv | lia]|].
      rewrite length_resize. lia.
    - split; [exact Hinv | lia]. }
  clearbody table. destruct (Z.ltb_spec p 0) as [|_]; [lia|].
  destruct (lookup_lt_is_Some_2 table _ Hlen) as [e He]. rewrite He.
  pose proof (inv_count _ _ _ _ Hinv1) as Hcnt.
  pose proof (inv_nodup _ _ _ _ Hinv1) as Hnd.
  destruct (Z.eqb_spec (position_or_flat e) kIndexUnknown) as [Hu|Hu].
  { destruct (flat_inv_unknown _ _ _ _ p t n e Hinv1 Hp He Hu) as [Hnew Hinv2].
    eexists. rewrite (list_find_eq_None _ _ Hnew), <- Hcnt.
    split; [reflexivity|]. rewrite decide_False by exact Hnew. exact Hinv2. }
  destruct (Z.eqb_spec (position_or_flat e) kIndexNotInTable) as [Ha|Ha].
  { pose proof (flat_inv_from_map _ _ _ _ p t n e Hinv1 Hp He Ha) as Hmap.
    unfold GetFlattenedIndexFromMap. simpl.
    destruct (map_ f !! (p, t, n)) as [k|].
    - destruct Hmap as [Hk Hl]. eexists.
      rewrite (list_find_eq_Some _ _ _ Hnd Hl), Z2Nat.id by lia.
      split; [reflexivity|].
      rewrite decide_True by (eapply list_elem_of_lookup_2, Hl). exact Hinv1.
    - destruct Hmap as [Hnew Hinv2]. eexists.
      rewrite (list_find_eq_None _ _ Hnew), <- Hcnt.
      split; [reflexivity|]. rewrite decide_False by exact Hnew. exact Hinv2. }
  destruct (flat_inv_cached _ _ _ _ _ _ Hinv1 Hp He Hu Ha)
    as (H0 & Hl & _ & _).
  destruct ((texcoord e =? t) && (normal e =? n)) eqn:Hsame.
  - apply andb_true_iff in Hsame as [Ht%Z.eqb_eq Hn%Z.eqb_eq]. subst t n.
    eexists. rewrite (list_find_eq_Some _ _ _ Hnd Hl), Z2Nat.id by lia.
    split; [reflexivity|].
    rewrite decide_True by (eapply list_elem_of_lookup_2, Hl). exact Hinv1.
  - assert (Hne : (texcoord e, normal e) <> (t, n)).
    { intros [= <- <-]. rewrite !Z.eqb_refl in Hsame. discriminate. }
    destruct (flat_inv_ambiguous _ _ _ _ p t n e Hinv1 Hp He Hu Ha Hne)
      as [Hnew Hinv2].
    eexists. rewrite (list_find_eq_None _ _ Hnew), <- Hcnt.
    split; [reflexivity|]. rewrite decide_False by exact Hnew. exact Hinv2.
Qed.

Lemma GetFlattenedIndex_negative f p t n :
  p < 0 -> GetFlattenedIndex p t n f = Abort undefined_access.
Proof.
  intros Hp. unfold GetFlattenedIndex.
  destruct (Z.ltb_spec p 0); [reflexivity | lia].
Qed.

Lemma distinct_from_step seen c calls :
  distinct_from seen (c :: calls) =
  distinct_from (if decide (c ∈ seen) then seen else seen ++ [c]) calls.
Proof. simpl. destruct (decide (c ∈ seen)); reflexivity. Qed.

Lemma flat_results_step seen c calls :
  NoDup seen ->
  flat_results seen (c :: calls) =
  match list_find (eq c) seen with
  | Some (i, _) => (Z.of_nat i, false)
  | None => (Z.of_nat (length seen), true)
  end :: flat_results (if decide (c ∈ seen) then seen else seen ++ [c]) calls.
Proof.
  intros Hnd. simpl. destruct (decide (c ∈ seen)) as [Hin|Hnin].
  - apply list_elem_of_lookup in Hin as [i Hi].
    rewrite (list_find_eq_Some _ _ _ Hnd Hi). reflexivity.
  - rewrite (list_find_eq_None _ _ Hnin). reflexivity.
Qed.

(** A sequence of calls with positions that are not negative runs to its
    end, returns what numbering by first occurrence returns, and leaves
    the count at the number of distinct triples. *)
Lemma GetFlattenedIndex_calls_flat_results calls : forall f seen,
  flattener_inv f seen ->
  Forall (fun c => 0 <= c.1.1) calls ->
  exists f',
    GetFlattenedIndex_calls calls f = Done (flat_results seen calls, f') /\
    flattener_inv f' (distinct_from seen calls).
Proof.
  induction calls as [|[[p t] n] calls IH]; intros f seen Hinv Hcalls.
  - exists f. split; [reflexivity | exact Hinv].
  - apply list.Forall_cons in Hcalls as [Hp Hcalls]. simpl in Hp.
    destruct (GetFlattenedIndex_step f seen p t n Hinv Hp) as (f1 & Hstep & Hinv1).
    destruct (IH _ _ Hinv1 Hcalls) as (f2 & Hrun & Hinv2).
    exists f2. rewrite distinct_from_step.
    rewrite (flat_results_step _ _ _ (inv_nodup _ _ _ _ Hinv)).
    split; [|exact Hinv2].
    cbn [GetFlattenedIndex_calls]. rewrite Hstep. cbn. rewrite Hrun. reflexivity.
Qed.

(** *** Numbering by first occurrence *)

Lemma distinct_from_NoDup calls : forall seen,
  NoDup seen -> NoDup (distinct_from seen calls).
Proof.
  induction calls as [|c calls IH]; intros seen Hnd; simpl; [exact Hnd|].
  destruct (decide (c ∈ seen)) as [Hin|Hnin]; apply IH; [exact Hnd|].
  apply list.NoDup_app. split; [exact Hnd|]. split; [|apply NoDup_singleton].
  intros x Hx Hx'. apply list_elem_of_singleton in Hx'. subst x. exact (Hnin Hx).
Qed.

Lemma elem_of_distinct_from calls : forall seen c,
  c ∈ distinct_from seen calls <-> c ∈ seen \/ c ∈ calls.
Proof.
  induction calls as [|c0 calls IH]; intros seen c; simpl.
  - split; [auto | intros [H|H]; [exact H | apply elem_of_nil in H; destruct H]].
  - destruct (decide (c0 ∈ seen)) as [Hin|Hnin]; rewrite IH.
    + rewrite elem_of_cons. split; [tauto|].
      intros [H|[->|H]]; auto.
    + rewrite elem_of_app, list_elem_of_singleton, elem_of_cons. tauto.
Qed.

Lemma distinct_from_app calls1 calls2 : forall seen,
  distinct_from seen (calls1 ++ calls2) =
  distinct_from (distinct_from seen calls1) calls2.
Proof.
  induction calls1 as [|c calls1 IH]; intros seen; simpl; [reflexivity|].
  destruct (decide (c ∈ seen)); apply IH.
Qed.

Lemma distinct_from_lookup calls : forall seen i c,
  seen !! i = Some c -> distinct_from seen calls !! i = Some c.
Proof.
  induction calls as [|c0 calls IH]; intros seen i c Hi; simpl; [exact Hi|].
  destruct (decide (c0 ∈ seen)); apply IH; [exact Hi|].
  apply lookup_app_l_Some, Hi.
Qed.

Lemma distinct_length (calls : list (Z * Z * Z)) :
  length (distinct calls) = length (remove_dups calls).
Proof.
  apply Permutation_length, NoDup_Permutation.
  - apply distinct_from_NoDup. constructor.
  - apply NoDup_remove_dups.
  - intros c. unfold distinct.
    rewrite elem_of_distinct_from, elem_of_remove_dups.
    split; [intros [H|H]; [apply elem_of_nil in H; destruct H | exact H] | auto].
Qed.

Lemma flat_results_length calls : forall seen,
  length (flat_results seen calls) = length calls.
Proof.
  induction calls as [|c calls IH]; intros seen; simpl; [reflexivity|].
  destruct (list_find (eq c) seen) as [[i x]|]; simpl; rewrite IH; reflexivity.
Qed.

(** The pair returned by call [k] is read off the triples met before it. *)
Lemma flat_results_lookup calls : forall seen k c,
  NoDup seen -> calls !! k = Some c ->
  flat_results seen calls !! k =
  Some (match list_find (eq c) (distinct_from seen (take k calls)) with
        | Some (i, _) => (Z.of_nat i, false)
        | None =>
            (Z.of_nat (length (distinct_from seen (take k calls))), true)
        end).
Proof.
  induction calls as [|c0 calls IH]; intros seen k c Hnd Hk; [discriminate|].
  rewrite (flat_results_step _ _ _ Hnd).
  destruct k as [|k]; simpl in Hk.
  - injection Hk as ->. reflexivity.
  - cbn [take lookup list_lookup]. rewrite distinct_from_step.
    apply IH; [|exact Hk].
    destruct (decide (c0 ∈ seen)) as [Hin|Hnin]; [exact Hnd|].
    apply (distinct_from_NoDup [c0] seen) in Hnd. simpl in Hnd.
    rewrite decide_False in Hnd by exact Hnin. exact Hnd.
Qed.

(** The flat index returned for a triple is its place among the distinct
    triples of the whole sequence. *)
Lemma flat_results_place calls k c flat is_new :
  calls !! k = Some c ->
  flat_results [] calls !! k = Some (flat, is_new) ->
  0 <= flat /\ distinct calls !! Z.to_nat flat = Some c /\
  is_new = bool_decide (c ∉ take k calls).
Proof.
  intros Hk Hr.
  rewrite (flat_results_lookup _ _ _ _ NoDup_nil_2 Hk) in Hr.
  assert (Hsplit : distinct calls =
            distinct_from (distinct_from [] (take k calls)) (drop k calls)).
  { unfold distinct. rewrite <- distinct_from_app, take_drop. reflexivity. }
  pose proof (distinct_from_NoDup (take k calls) [] NoDup_nil_2) as Hnd.
  destruct (list_find (eq c) (distinct_from [] (take k calls)))
    as [[i x]|] eqn:Hfind.
  - injection Hr as <- <-.
    apply list_find_Some in Hfind as (Hi & <- & _).
    split; [lia|]. rewrite Nat2Z.id, Hsplit.
    split; [apply distinct_from_lookup, Hi|].
    symmetry. apply bool_decide_eq_false. intros Hnot. apply Hnot.
    apply list_elem_of_lookup_2 in Hi.
    apply elem_of_distinct_from in Hi as [Hi|Hi];
      [apply elem_of_nil in Hi; destruct Hi | exact Hi].
  - injection Hr as <- <-.
    assert (Hnew : c ∉ distinct_from [] (take k calls)).
    { intros Hin. apply list_elem_of_lookup in Hin as [i Hi].
      rewrite (list_find_eq_Some _ _ _ Hnd Hi) in Hfind. discriminate. }
    split; [lia|]. rewrite Nat2Z.id, Hsplit.
    rewrite (drop_S _ _ _ Hk), distinct_from_step.
    rewrite decide_False by exact Hnew.
    split; [apply distinct_from_lookup, list_lookup_middle; reflexivity|].
    symmetry. apply bool_decide_eq_true. intros Hin. apply Hnew.
    apply elem_of_distinct_from. right. exact Hin.
Qed.

(** C1. Any sequence of calls with positions that are not negative runs
    to its end, and the pairs it returns are those of a numbering by
    first occurrence: a call whose triple has not occurred before returns
    the number of distinct triples before it, with [is_new = true]; a
    call that repeats a triple returns the flat index of the earlier
    call, with [is_new = false]; different triples get different flat
    indices; the flat indices returned are exactly 0 .. N-1 for the N
    distinct triples of the sequence, and N is the count afterwards.  In
    particular a position met with two different (texcoord, normal) pairs
    gets two flat indices, and the first pair gets the first again. *)
Theorem GetFlattenedIndex_first_occurrence (num_positions : nat) :
  (forall calls, Forall (fun c => 0 <= c.1.1) calls ->
   exists results f',
     GetFlattenedIndex_calls calls (IndexFlattener_new num_positions) =
       Done (results, f') /\
     length results = length calls /\
     count f' = Z.of_nat (length (remove_dups calls)) /\
     (forall k c, calls !! k = Some c -> c ∉ take k calls ->
        results !! k =
        Some (Z.of_nat (length (remove_dups (take k calls))), true)) /\
     (forall j k c, (j < k)%nat ->
        calls !! j = Some c -> calls !! k = Some c ->
        exists flat is_new,
          results !! j = Some (flat, is_new) /\
          results !! k = Some (flat, false)) /\
     (forall j k cj ck flat bj bk,
        calls !! j = Some cj -> calls !! k = Some ck ->
        results !! j = Some (flat, bj) -> results !! k = Some (flat, bk) ->
        cj = ck) /\
     (forall i, (exists k is_new, results !! k = Some (i, is_new)) <->
                0 <= i < Z.of_nat (length (remove_dups calls)))) /\
  (forall p t1 n1 t2 n2, 0 <= p -> (t1, n1) <> (t2, n2) ->
   exists f',
     GetFlattenedIndex_calls [(p, t1, n1); (p, t2, n2); (p, t1, n1)]
       (IndexFlattener_new num_positions) =
     Done ([(0, true); (1, true); (0, false)], f')).
Proof.
  assert (Hrun : forall calls, Forall (fun c => 0 <= c.1.1) calls ->
            exists f',
              GetFlattenedIndex_calls calls (IndexFlattener_new num_positions)
                = Done (flat_results [] calls, f') /\
              flattener_inv f' (distinct calls)).
  { intros calls Hcalls.
    apply GetFlattenedIndex_calls_flat_results;
      [apply flat_inv_new | exact Hcalls]. }
  split.
  - intros calls Hcalls. destruct (Hrun calls Hcalls) as (f' & Hf' & Hinv).
    exists (flat_results [] calls), f'.
    pose proof (distinct_from_NoDup calls [] NoDup_nil_2) as Hnd.
    fold (distinct calls) in Hnd.
    assert (Hres : forall k c, calls !! k = Some c ->
              exists flat is_new,
                flat_results [] calls !! k = Some (flat, is_new)).
    { intros k c Hk.
      destruct (lookup_lt_is_Some_2 (flat_results [] calls) k) as [[fl b] Hr].
      - rewrite flat_results_length. eapply lookup_lt_Some, Hk.
      - eauto. }
    split; [exact Hf'|]. split; [apply flat_results_length|].
    split; [|split; [|split; [|split]]].
    + unfold count. rewrite (inv_count _ _ _ _ Hinv), distinct_length.
      reflexivity.
    + intros k c Hk Hnew.
      rewrite (flat_results_lookup _ _ _ _ NoDup_nil_2 Hk).
      rewrite list_find_eq_None.
      * fold (distinct (take k calls)). rewrite distinct_length. reflexivity.
      * intros Hin. apply elem_of_distinct_from in Hin as [Hin|Hin];
          [apply elem_of_nil in Hin; destruct Hin | exact (Hnew Hin)].
    + intros j k c Hjk Hj Hk.
      destruct (Hres _ _ Hj) as (fj & bj & Hrj).
      destruct (Hres _ _ Hk) as (fk & bk & Hrk).
      destruct (flat_results_place _ _ _ _ _ Hj Hrj) as (H0j & Hpj & _).
      destruct (flat_results_place _ _ _ _ _ Hk Hrk) as (H0k & Hpk & Hbk).
      exists fj, bj. split; [exact Hrj|]. rewrite Hrk. do 2 f_equal.
      * pose proof (NoDup_lookup _ _ _ _ Hnd Hpj Hpk). lia.
      * rewrite Hbk. apply bool_decide_eq_false. intros Hnot. apply Hnot.
        apply list_elem_of_lookup. exists j. rewrite lookup_take_lt by lia.
        exact Hj.
    + intros j k cj ck flat bj bk Hj Hk Hrj Hrk.
      destruct (flat_results_place _ _ _ _ _ Hj Hrj) as (_ & Hpj & _).
      destruct (flat_results_place _ _ _ _ _ Hk Hrk) as (_ & Hpk & _).
      congruence.
    + intros i. rewrite <- distinct_length. split.
      * intros (k & b & Hr).
        destruct (lookup_lt_is_Some_2 calls k) as [c Hk].
        { rewrite <- (flat_results_length calls []).
          eapply lookup_lt_Some, Hr. }
        destruct (flat_results_place _ _ _ _ _ Hk Hr) as (H0 & Hp & _).
        apply lookup_lt_Some in Hp. lia.
      * intros Hi.
        destruct (lookup_lt_is_Some_2 (distinct calls) (Z.to_nat i)) as [c Hc];
          [lia|].
        assert (Hin : c ∈ calls).
        { apply list_elem_of_lookup_2 in Hc.
          apply elem_of_distinct_from in Hc as [Hc|Hc];
            [apply elem_of_nil in Hc; destruct Hc | exact Hc]. }
        apply list_elem_of_lookup in Hin as [k Hk].
        destruct (Hres _ _ Hk) as (fl & b & Hr).
        destruct (flat_results_place _ _ _ _ _ Hk Hr) as (H0 & Hp & _).
        exists k, b. rewrite Hr. do 2 f_equal.
        pose proof (NoDup_lookup _ _ _ _ Hnd Hp Hc). lia.
  - intros p t1 n1 t2 n2 Hp Hne.
    destruct (Hrun [(p, t1, n1); (p, t2, n2); (p, t1, n1)]) as (f' & Hf' & _).
    { repeat constructor; exact Hp. }
    exists f'. rewrite Hf'. do 2 f_equal. simpl.
    rewrite decide_False by (intros [= <- <-]; congruence). simpl.
    rewrite decide_True by reflexivity. reflexivity.
Qed.

Example seam_results :
  match GetFlattenedIndex_calls seam_calls (IndexFlattener_new 0) with
  | Done r => Some (r.1, count r.2)
  | Abort _ => None
  end =
  Some ([(0, true); (1, true); (0, false); (2, true); (0, false); (2, false)],
        3).
Proof. vm_compute. reflexivity. Qed.

Lemma GetFlattenedIndex_first_occurrence_witness :
  Forall (fun c : Z * Z * Z => 0 <= c.1.1) seam_calls /\
  exists results f',
    GetFlattenedIndex_calls seam_calls (IndexFlattener_new 0) =
      Done (results, f') /\
    length results = length seam_calls /\
    count f' = Z.of_nat (length (remove_dups seam_calls)).
Proof.
  assert (Hpos : Forall (fun c : Z * Z * Z => 0 <= c.1.1) seam_calls).
  { repeat constructor; simpl; lia. }
  split; [exact Hpos|].
  destruct (proj1 (GetFlattenedIndex_first_occurrence 0) seam_calls Hpos)
    as (results & f' & Hrun & Hlen & Hcount & _).
  exists results, f'. split; [exact Hrun|]. split; [exact Hlen | exact Hcount].
Defined.

(** ** Facts about the draw batch *)

Lemma to_size_t_small x : 0 <= x < 2 ^ 64 -> to_size_t x = x.
Proof. intros Hx. unfold to_size_t. apply Z.mod_small. exact Hx. Qed.

(** What [push_back_from] appends is what [at] reads, in order. *)
Lemma push_back_from_Done source dim index todo : forall i a a',
  push_back_from source dim index todo i a = Done a' ->
  exists vals,
    a' = a ++ vals /\ length vals = todo /\
    forall k v, vals !! k = Some v ->
      source !! Z.to_nat (to_size_t (dim * to_size_t index + (i + Z.of_nat k)))
      = Some v.
Proof.
  induction todo as [|todo IH]; intros i a a' Hrun; simpl in Hrun.
  - injection Hrun as <-. exists []. rewrite app_nil_r.
    split; [reflexivity|]. split; [reflexivity|]. intros k v Hk. discriminate.
  - unfold vector_at in Hrun.
    destruct (source !! _) as [x|] eqn:Hx; [|discriminate].
    cbn in Hrun. apply IH in Hrun as (vals & -> & Hlen & Hvals).
    exists (x :: vals). rewrite <- app_assoc. split; [reflexivity|].
    split; [simpl; lia|]. intros [|k] v Hk.
    + simpl in Hk. injection Hk as <-. rewrite Z.add_0_r. exact Hx.
    + simpl in Hk. apply Hvals in Hk.
      replace (i + Z.of_nat (S k)) with (i + 1 + Z.of_nat k) by lia. exact Hk.
Qed.

Lemma push_back_from_total source dim index todo : forall i a,
  (forall k, (k < todo)%nat ->
     is_Some (source !!
       Z.to_nat (to_size_t (dim * to_size_t index + (i + Z.of_nat k))))) ->
  exists a', push_back_from source dim index todo i a = Done a'.
Proof.
  induction todo as [|todo IH]; intros i a Hsrc; simpl; [eauto|].
  unfold vector_at. destruct (Hsrc 0%nat ltac:(lia)) as [x Hx].
  rewrite Z.add_0_r in Hx. rewrite Hx. cbn. apply IH.
  intros k Hk. specialize (Hsrc (S k) ltac:(lia)).
  replace (i + 1 + Z.of_nat k) with (i + Z.of_nat (S k)) by lia. exact Hsrc.
Qed.

(** For an index that is not negative, the values pushed are the [dim]
    values of the source from [dim * index] on. *)
Lemma push_back_from_slice source dim index a a' :
  0 <= dim < 2 ^ 31 -> 0 <= index < 2 ^ 31 ->
  push_back_from source dim index (Z.to_nat dim) 0 a = Done a' ->
  a' = a ++ take (Z.to_nat dim) (drop (Z.to_nat (dim * index)) source) /\
  (Z.to_nat (dim * index) + Z.to_nat dim <= length source)%nat.
Proof.
  intros Hdim Hindex Hrun.
  apply push_back_from_Done in Hrun as (vals & -> & Hlen & Hvals).
  assert (Hat : forall k v, vals !! k = Some v ->
            source !! (Z.to_nat (dim * index) + k)%nat = Some v).
  { intros k v Hk. pose proof (lookup_lt_Some _ _ _ Hk) as Hlt.
    apply Hvals in Hk.
    rewrite (to_size_t_small index) in Hk by lia.
    rewrite to_size_t_small in Hk by (change (2 ^ 64) with (2 ^ 31 * 2 ^ 33); nia).
    rewrite <- Hk. f_equal. lia. }
  assert (Hfit : (Z.to_nat (dim * index) + Z.to_nat dim <= length source)%nat).
  { destruct (Z.to_nat dim) as [|d] eqn:Hd; [lia|].
    destruct (lookup_lt_is_Some_2 vals d ltac:(lia)) as [v Hv].
    apply Hat, lookup_lt_Some in Hv. lia. }
  split; [|exact Hfit]. f_equal.
  apply list_eq. intros k.
  destruct (decide (k < Z.to_nat dim)%nat) as [Hk|Hk].
  - rewrite lookup_take_lt, lookup_drop by lia.
    destruct (lookup_lt_is_Some_2 vals k ltac:(lia)) as [v Hv].
    rewrite Hv. symmetry. apply Hat, Hv.
  - rewrite lookup_ge_None_2 by lia.
    symmetry. apply lookup_ge_None_2. rewrite length_take. lia.
Qed.

Lemma batch_inv_new : batch_inv DrawBatch_new [].
Proof.
  split; [apply flat_inv_new|]. split; [reflexivity | constructor].
Qed.

Lemma push_back_from_length source dim index todo i a a' :
  push_back_from source dim index todo i a = Done a' ->
  exists vals, a' = a ++ vals /\ length vals = todo.
Proof.
  intros H. apply push_back_from_Done in H as (vals & ? & ? & _). eauto.
Qed.

(** One vertex of a triangle: the index list always grows by the flat
    index; the attribute buffer grows by one record when the triple is
    new, and not at all otherwise. *)
Lemma AddVertex_cases src index0 index1 index2 b b' :
  AddVertex src index0 index1 index2 b = Done b' ->
  let c := (index0 - 1, index1 - 1, index2 - 1) in
  exists flat is_new f',
    GetFlattenedIndex (index0 - 1) (index1 - 1) (index2 - 1) (flattener_ b) =
      Done (flat, is_new, f') /\
    flattener_ b' = f' /\
    indices (draw_mesh_ b') = indices (draw_mesh_ b) ++ [flat] /\
    if is_new
    then exists record,
           attribs (draw_mesh_ b') = attribs (draw_mesh_ b) ++ record /\
           new_record src c record
    else attribs (draw_mesh_ b') = attribs (draw_mesh_ b).
Proof.
  intros Hrun c. unfold AddVertex in Hrun.
  destruct (GetFlattenedIndex _ _ _ _) as [[[flat is_new] f']|];
    [|discriminate].
  exists flat, is_new, f'. split; [reflexivity|].
  destruct is_new; [|injection Hrun as <-; repeat split].
  destruct (push_back_from (positions_ src) positionDim (index0 - 1) _ _ _)
    as [a1|] eqn:H1; [|discriminate].
  cbn [mbind outcome_bind] in Hrun.
  destruct (if index1 - 1 =? -1 then _ else _) as [a2|] eqn:H2;
    [|discriminate].
  cbn [mbind outcome_bind] in Hrun.
  destruct (if index2 - 1 =? -1 then _ else _) as [a3|] eqn:H3;
    [|discriminate].
  cbn [mbind outcome_bind] in Hrun. injection Hrun as <-. simpl.
  split; [reflexivity|]. split; [reflexivity|].
  pose proof H1 as H1'.
  apply push_back_from_length in H1' as (pos & -> & Hpos).
  assert (Htex : exists tex, a2 = (attribs (draw_mesh_ b) ++ pos) ++ tex /\
            length tex = 2%nat /\
            (index1 - 1 = -1 -> tex = [float_zero; float_zero]) /\
            (0 <= index1 - 1 < 2 ^ 31 ->
             tex = take 2 (drop (Z.to_nat (2 * (index1 - 1)))
                             (texcoords_ src)))).
  { destruct (Z.eqb_spec (index1 - 1) (-1)) as [Habs|Hpres].
    - injection H2 as <-. exists [float_zero; float_zero].
      repeat split. lia.
    - pose proof H2 as H2'.
      apply push_back_from_length in H2' as (tex & -> & Htex).
      exists tex. split; [reflexivity|]. split; [exact Htex|].
      split; [lia|]. intros Hr.
      apply push_back_from_slice in H2 as [H2 _];
        [|unfold texcoordDim; lia | exact Hr].
      apply app_inv_head in H2. exact H2. }
  destruct Htex as (tex & -> & Htex & Htz & Hts).
  assert (Hnor : exists nor,
            a3 = ((attribs (draw_mesh_ b) ++ pos) ++ tex) ++ nor /\
            length nor = 3%nat /\
            (index2 - 1 = -1 -> nor = [float_zero; float_zero; float_zero]) /\
            (0 <= index2 - 1 < 2 ^ 31 ->
             nor = take 3 (drop (Z.to_nat (3 * (index2 - 1)))
                             (normals_ src)))).
  { destruct (Z.eqb_spec (index2 - 1) (-1)) as [Habs|Hpres].
    - injection H3 as <-. exists [float_zero; float_zero; float_zero].
      repeat split. lia.
    - pose proof H3 as H3'.
      apply push_back_from_length in H3' as (nor & -> & Hnor).
      exists nor. split; [reflexivity|]. split; [exact Hnor|].
      split; [lia|]. intros Hr.
      apply push_back_from_slice in H3 as [H3 _];
        [|unfold normalDim; lia | exact Hr].
      apply app_inv_head in H3. exact H3. }
  destruct Hnor as (nor & -> & Hnor & Hnz & Hns).
  exists (pos ++ tex ++ nor). split; [rewrite <- !app_assoc; reflexivity|].
  exists pos, tex, nor. split; [reflexivity|].
  split; [exact Hpos|]. split; [exact Htex|]. split; [exact Hnor|].
  split; [|auto].
  intros Hr. apply push_back_from_slice in H1 as [H1 _];
    [|unfold positionDim; lia | exact Hr].
  apply app_inv_head in H1. exact H1.
Qed.

Lemma new_record_length src c record :
  new_record src c record -> length record = 8%nat.
Proof.
  intros (pos & tex & nor & -> & Hp & Ht & Hn & _).
  rewrite !length_app, Hp, Ht, Hn. reflexivity.
Qed.

Lemma AddVertex_Done src index0 index1 index2 b seen b' :
  batch_inv b seen ->
  AddVertex src index0 index1 index2 b = Done b' ->
  let c := (index0 - 1, index1 - 1, index2 - 1) in
  batch_inv b' (if decide (c ∈ seen) then seen else seen ++ [c]) /\
  length (indices (draw_mesh_ b')) = S (length (indices (draw_mesh_ b))).
Proof.
  intros (Hinv & Hlen & Hidx) Hrun c.
  destruct (AddVertex_cases _ _ _ _ _ _ Hrun)
    as (flat & is_new & f' & Hget & Hf' & Hind & Hatt).
  fold c in Hatt.
  destruct (Z.ltb_spec (index0 - 1) 0) as [Hneg|Hp].
  { rewrite GetFlattenedIndex_negative in Hget by exact Hneg. discriminate. }
  destruct (GetFlattenedIndex_step _ _ _ (index1 - 1) (index2 - 1) Hinv Hp)
    as (f1 & Hstep & Hinv').
  fold c in Hstep, Hinv'. rewrite Hget in Hstep.
  pose proof (inv_nodup _ _ _ _ Hinv) as Hnd.
  split; [|rewrite Hind, length_app; simpl; lia].
  unfold batch_inv. rewrite Hf', Hind.
  destruct (decide (c ∈ seen)) as [Hin|Hnew].
  - apply list_elem_of_lookup in Hin as Hi. destruct Hi as [i Hi].
    rewrite (list_find_eq_Some _ _ _ Hnd Hi) in Hstep.
    injection Hstep as -> -> ->. rewrite Hatt.
    split; [exact Hinv'|]. split; [exact Hlen|].
    apply Forall_app. split; [exact Hidx|]. constructor; [|constructor].
    apply lookup_lt_Some in Hi. lia.
  - rewrite (list_find_eq_None _ _ Hnew) in Hstep.
    injection Hstep as -> -> ->. destruct Hatt as (record & -> & Hrec).
    split; [exact Hinv'|]. split.
    + rewrite !length_app, Hlen, (new_record_length _ _ _ Hrec). simpl. lia.
    + apply Forall_app. split.
      * eapply list.Forall_impl; [exact Hidx|]. intros i Hi. simpl in Hi.
        rewrite length_app. simpl. lia.
      * constructor; [|constructor]. rewrite length_app. simpl. lia.
Qed.

Lemma AddTriangle_Done src raw b seen b' :
  batch_inv b seen ->
  AddTriangle src raw b = Done b' ->
  batch_inv b' (distinct_from seen (triangle_triples raw)) /\
  length (indices (draw_mesh_ b')) = (length (indices (draw_mesh_ b)) + 3)%nat.
Proof.
  intros Hinv Hrun. unfold AddTriangle in Hrun.
  destruct (AddVertex src (raw !!! 0%nat) _ _ b) as [b1|] eqn:H1;
    [|discriminate].
  cbn [mbind outcome_bind] in Hrun.
  destruct (AddVertex src (raw !!! 3%nat) _ _ b1) as [b2|] eqn:H2;
    [|discriminate].
  cbn [mbind outcome_bind] in Hrun.
  apply (AddVertex_Done _ _ _ _ _ _ _ Hinv) in H1 as [Hinv1 Hl1].
  apply (AddVertex_Done _ _ _ _ _ _ _ Hinv1) in H2 as [Hinv2 Hl2].
  apply (AddVertex_Done _ _ _ _ _ _ _ Hinv2) in Hrun as [Hinv3 Hl3].
  split; [|lia]. unfold triangle_triples.
  rewrite !distinct_from_step. exact Hinv3.
Qed.

Lemma calls_triples_cons src raw calls :
  calls_triples ((src, raw) :: calls) =
  triangle_triples raw ++ calls_triples calls.
Proof. reflexivity. Qed.

Lemma AddTriangle_calls_Done calls : forall b seen b',
  batch_inv b seen ->
  AddTriangle_calls calls b = Done b' ->
  batch_inv b' (distinct_from seen (calls_triples calls)) /\
  length (indices (draw_mesh_ b')) =
  (length (indices (draw_mesh_ b)) + 3 * length calls)%nat.
Proof.
  induction calls as [|[src raw] calls IH]; intros b seen b' Hinv Hrun.
  - injection Hrun as <-. split; [exact Hinv | simpl; lia].
  - cbn [AddTriangle_calls] in Hrun.
    destruct (AddTriangle src raw b) as [b1|] eqn:H1; [|discriminate].
    cbn [mbind outcome_bind] in Hrun.
    apply (AddTriangle_Done _ _ _ _ _ Hinv) in H1 as [Hinv1 Hl1].
    apply (IH _ _ _ Hinv1) in Hrun as [Hinv2 Hl2].
    rewrite calls_triples_cons, distinct_from_app.
    split; [exact Hinv2 | simpl; lia].
Qed.

Lemma push_back_from_in_range source dim index a :
  0 <= dim < 2 ^ 31 -> 0 <= index < 2 ^ 31 ->
  dim * index + dim <= Z.of_nat (length source) ->
  exists a', push_back_from source dim index (Z.to_nat dim) 0 a = Done a'.
Proof.
  intros Hdim Hindex Hfit. apply push_back_from_total. intros k Hk.
  apply lookup_lt_is_Some_2.
  rewrite (to_size_t_small index) by lia.
  rewrite to_size_t_small by (change (2 ^ 64) with (2 ^ 31 * 2 ^ 33); nia).
  nia.
Qed.

Lemma AddVertex_total src index0 index1 index2 b seen :
  batch_inv b seen ->
  vertex_in_range src (index0 - 1, index1 - 1, index2 - 1) ->
  exists b', AddVertex src index0 index1 index2 b = Done b'.
Proof.
  intros (Hinv & _ & _) ((Hp & Hpfit) & Ht & Hn). simpl in *.
  unfold AddVertex.
  destruct (GetFlattenedIndex_step _ _ _ (index1 - 1) (index2 - 1) Hinv
              (proj1 Hp)) as (f' & -> & _).
  destruct (list_find _ seen) as [[i x]|]; [eauto|]. cbv beta iota.
  destruct (push_back_from_in_range (positions_ src) positionDim (index0 - 1)
              (attribs (draw_mesh_ b))) as [a1 ->];
    [unfold positionDim; lia | exact Hp | unfold positionDim; lia|].
  cbn [mbind outcome_bind].
  assert (exists a2,
            (if index1 - 1 =? -1 then Done (push_back_zeros texcoordDim a1)
             else push_back_from (texcoords_ src) texcoordDim (index1 - 1)
                    (Z.to_nat texcoordDim) 0 a1) = Done a2) as [a2 ->].
  { destruct (Z.eqb_spec (index1 - 1) (-1)) as [|Hne]; [eauto|].
    destruct Ht as [|[Ht Htfit]]; [contradiction|].
    apply push_back_from_in_range; unfold texcoordDim; lia. }
  cbn [mbind outcome_bind].
  assert (exists a3,
            (if index2 - 1 =? -1 then Done (push_back_zeros normalDim a2)
             else push_back_from (normals_ src) normalDim (index2 - 1)
                    (Z.to_nat normalDim) 0 a2) = Done a3) as [a3 ->].
  { destruct (Z.eqb_spec (index2 - 1) (-1)) as [|Hne]; [eauto|].
    destruct Hn as [|[Hn Hnfit]]; [contradiction|].
    apply push_back_from_in_range; unfold normalDim; lia. }
  cbn [mbind outcome_bind]. eauto.
Qed.

Lemma AddTriangle_total src raw b seen :
  batch_inv b seen ->
  Forall (vertex_in_range src) (triangle_triples raw) ->
  exists b', AddTriangle src raw b = Done b'.
Proof.
  intros Hinv Hraw. unfold triangle_triples in Hraw.
  apply list.Forall_cons in Hraw as [Hv1 Hraw].
  apply list.Forall_cons in Hraw as [Hv2 Hraw].
  apply list.Forall_cons in Hraw as [Hv3 _].
  unfold AddTriangle.
  destruct (AddVertex_total _ _ _ _ _ _ Hinv Hv1) as [b1 H1]. rewrite H1.
  cbn [mbind outcome_bind].
  apply (AddVertex_Done _ _ _ _ _ _ _ Hinv) in H1 as [Hinv1 _].
  destruct (AddVertex_total _ _ _ _ _ _ Hinv1 Hv2) as [b2 H2]. rewrite H2.
  cbn [mbind outcome_bind].
  apply (AddVertex_Done _ _ _ _ _ _ _ Hinv1) in H2 as [Hinv2 _].
  exact (AddVertex_total _ _ _ _ _ _ Hinv2 Hv3).
Qed.

Lemma AddTriangle_calls_total calls : forall b seen,
  batch_inv b seen ->
  Forall (fun call => Forall (vertex_in_range call.1)
                        (triangle_triples call.2)) calls ->
  exists b', AddTriangle_calls calls b = Done b'.
Proof.
  induction calls as [|[src raw] calls IH]; intros b seen Hinv Hcalls.
  - exists b. reflexivity.
  - apply list.Forall_cons in Hcalls as [Hcall Hcalls]. simpl in Hcall.
    destruct (AddTriangle_total _ _ _ _ Hinv Hcall) as [b1 H1].
    cbn [AddTriangle_calls]. rewrite H1. cbn [mbind outcome_bind].
    apply (AddTriangle_Done _ _ _ _ _ Hinv) in H1 as [Hinv1 _].
    exact (IH _ _ Hinv1 Hcalls).
Qed.

(** C8. After any sequence of [AddTriangle] calls on a fresh batch that
    runs to its end -- which it does when every index is within its
    buffer -- the attribute buffer holds 8 floats for each of the
    distinct triples seen by the flattener, the index list holds 3
    indices per triangle, and every index is below the number of
    records.  A vertex whose triple is new appends one record: the 3
    position floats, then the 2 texcoord floats, which are zero when the
    texcoord index is -1, then the 3 normal floats, which are zero when
    the normal index is -1. *)
Theorem AddTriangle_postconditions :
  (forall calls b',
     AddTriangle_calls calls DrawBatch_new = Done b' ->
     Z.of_nat (length (attribs (draw_mesh_ b'))) = 8 * count (flattener_ b') /\
     count (flattener_ b') =
       Z.of_nat (length (remove_dups (calls_triples calls))) /\
     length (indices (draw_mesh_ b')) = (3 * length calls)%nat /\
     Forall (fun i => 0 <= i < Z.of_nat (length (attribs (draw_mesh_ b'))) / 8)
       (indices (draw_mesh_ b'))) /\
  (forall calls,
     Forall (fun call => Forall (vertex_in_range call.1)
                           (triangle_triples call.2)) calls ->
     exists b', AddTriangle_calls calls DrawBatch_new = Done b') /\
  (forall src index0 index1 index2 b b' flat f',
     AddVertex src index0 index1 index2 b = Done b' ->
     GetFlattenedIndex (index0 - 1) (index1 - 1) (index2 - 1) (flattener_ b) =
       Done (flat, true, f') ->
     exists record,
       attribs (draw_mesh_ b') = attribs (draw_mesh_ b) ++ record /\
       new_record src (index0 - 1, index1 - 1, index2 - 1) record).
Proof.
  split; [|split].
  - intros calls b' Hrun.
    destruct (AddTriangle_calls_Done _ _ _ _ batch_inv_new Hrun)
      as [(Hinv & Hlen & Hidx) Hl].
    fold (distinct (calls_triples calls)) in Hinv, Hlen, Hidx.
    unfold count. rewrite (inv_count _ _ _ _ Hinv), Hlen, distinct_length in *.
    split; [lia|]. split; [reflexivity|]. split; [exact Hl|].
    eapply list.Forall_impl; [exact Hidx|]. intros i Hi. simpl in Hi.
    rewrite Nat2Z.inj_mul, Z.mul_comm, Z.div_mul by lia. exact Hi.
  - intros calls Hcalls.
    exact (AddTriangle_calls_total _ _ _ batch_inv_new Hcalls).
  - intros src index0 index1 index2 b b' flat f' Hrun Hget.
    destruct (AddVertex_cases _ _ _ _ _ _ Hrun)
      as (flat' & is_new & f1 & Hget' & _ & _ & Hatt).
    rewrite Hget in Hget'. injection Hget' as <- <- <-. exact Hatt.
Qed.

Example quad_mesh :
  mesh_of (AddTriangle_calls quad_calls DrawBatch_new) =
  Some {| attribs :=
            [float_zero; float_zero; float_zero;
             float_zero; float_zero; float_zero; float_zero; float_one;
             float_one; float_zero; float_zero;
             float_one; float_one; float_zero; float_zero; float_zero;
             float_one; float_one; float_zero;
             float_zero; float_zero; float_zero; float_zero; float_one;
             float_zero; float_one; float_zero;
             float_one; float_one; float_zero; float_zero; float_zero];
          indices := [0; 1; 2; 0; 2; 3] |}.
Proof. vm_compute. reflexivity. Qed.

Lemma AddTriangle_postconditions_witness :
  Forall (fun call => Forall (vertex_in_range call.1)
                        (triangle_triples call.2)) quad_calls /\
  exists b',
    AddTriangle_calls quad_calls DrawBatch_new = Done b' /\
    Z.of_nat (length (attribs (draw_mesh_ b'))) = 8 * count (flattener_ b') /\
    length (indices (draw_mesh_ b')) = (3 * length quad_calls)%nat.
Proof.
  assert (Hrange : Forall (fun call => Forall (vertex_in_range call.1)
                             (triangle_triples call.2)) quad_calls).
  { repeat constructor; simpl; try lia; first [left; lia | right; lia]. }
  split; [exact Hrange|].
  destruct (proj1 (proj2 AddTriangle_postconditions) quad_calls Hrange)
    as [b' Hb'].
  exists b'. split; [exact Hb'|].
  destruct (proj1 AddTriangle_postconditions quad_calls b' Hb')
    as (H8 & _ & H3 & _).
  split; [exact H8 | exact H3].
Defined.

(** * Facts about more of mesh.h *)

From Stdlib Require Import ZifyNat.

(** ** Facts about the loop nest *)

(** Linear arithmetic with division and remainder by a constant. *)
Ltac div_lia := zify; Z.div_mod_to_equations; lia.

Section RecordLoopsFacts.

Context {S : Type}.
Variable body : nat -> nat -> S -> outcome S.

Lemma run_places_app (f : nat -> S -> outcome S) ks1 ks2 s :
  run_places f (ks1 ++ ks2) s =
  s' ← run_places f ks1 s; run_places f ks2 s'.
Proof.
  revert s. induction ks1 as [|k ks1 IH]; intros s; simpl; [reflexivity|].
  destruct (f k s); simpl; [apply IH | reflexivity].
Qed.

Lemma for_channels_run_places todo : forall i j s,
  (i mod 8 = 0)%nat -> (j + todo <= 8)%nat ->
  for_channels todo i j body s = run_places (body_at body) (seq (i + j) todo) s.
Proof.
  induction todo as [|todo IH]; intros i j s Hi Hj; [reflexivity|].
  cbn [for_channels seq run_places].
  assert (Hb : (body_at body) (i + j) s = body i j s).
  { unfold body_at. f_equal; div_lia. }
  rewrite Hb. destruct (body i j s) as [s'|e]; [|reflexivity].
  rewrite !bind_Done, IH by lia. f_equal. f_equal. lia.
Qed.

Lemma for_records_round size i s :
  for_records size i body s =
  if decide (i < size)%nat then
    s' ← for_channels 8 i 0 body s; for_records size (i + 8) body s'
  else Done s.
Proof.
  rewrite for_records_unfold_eq at 1. unfold for_records_unfold.
  destruct (decide (i < size)%nat); simpl; [|reflexivity].
  destruct (for_channels 8 i 0 body s); reflexivity.
Qed.

(** The loop nest visits the places 0, 1, 2, ... up to the end of the
    last record begun, whole or not. *)
Lemma for_records_run_places rounds : forall size i s,
  (i mod 8 = 0)%nat -> (size <= i + 8 * rounds)%nat ->
  for_records size i body s =
  run_places (body_at body) (seq i (8 * ((size + 7) / 8) - i)) s.
Proof.
  induction rounds as [|rounds IH]; intros size i s Hi Hsize;
    rewrite for_records_round.
  - destruct (decide (i < size)%nat); [div_lia|].
    replace (8 * ((size + 7) / 8) - i)%nat with 0%nat by div_lia. reflexivity.
  - destruct (decide (i < size)%nat) as [Hlt|Hge].
    + replace (8 * ((size + 7) / 8) - i)%nat
        with (8 + (8 * ((size + 7) / 8) - (i + 8)))%nat by div_lia.
      rewrite seq_app, run_places_app.
      rewrite (for_channels_run_places 8 i 0 s Hi) by div_lia.
      rewrite Nat.add_0_r.
      destruct (run_places (body_at body) (seq i 8) s) as [s'|e]; [|reflexivity].
      rewrite !bind_Done. apply IH; div_lia.
    + replace (8 * ((size + 7) / 8) - i)%nat with 0%nat by div_lia. reflexivity.
Qed.

End RecordLoopsFacts.

Section PlacesOfList.

Context {S A : Type}.
Variable values : list A.
Variable step : nat -> A -> S -> S.
Variable f : nat -> S -> outcome S.
Variable P : S -> Prop.
Variable e : abort.

Hypothesis f_inside : forall k v s,
  values !! k = Some v -> P s -> f k s = Done (step k v s) /\ P (step k v s).
Hypothesis f_outside : forall k s,
  values !! k = None -> P s -> f k s = Abort e.

(** A body that reads place [k] of a list runs through the places of the
    list, and stops at the first place past its end. *)
Lemma run_places_inside count : forall k s,
  P s -> (k + count <= length values)%nat ->
  run_places f (seq k count) s =
    Done (fold_places step k (take count (drop k values)) s) /\
  P (fold_places step k (take count (drop k values)) s).
Proof.
  induction count as [|count IH]; intros k s Hs Hk.
  - rewrite take_0. split; [reflexivity | exact Hs].
  - destruct (lookup_lt_is_Some_2 values k ltac:(lia)) as [v Hv].
    rewrite (drop_S _ _ _ Hv). cbn [seq run_places take fold_places].
    destruct (f_inside _ _ _ Hv Hs) as [-> Hs']. rewrite bind_Done.
    apply IH; [exact Hs' | lia].
Qed.

Lemma run_places_outside count extra s :
  P s -> count = length values ->
  run_places f (seq 0 (count + Datatypes.S extra)) s = Abort e.
Proof.
  intros Hs ->. rewrite seq_app, run_places_app.
  destruct (run_places_inside (length values) 0 s Hs ltac:(lia)) as [-> Hs'].
  rewrite bind_Done. cbn [seq run_places].
  rewrite (f_outside (0 + length values)%nat _
             (lookup_ge_None_2 _ _ (Nat.le_refl _)) Hs').
  reflexivity.
Qed.

End PlacesOfList.

(** ** Facts about Bounds::Enclose *)

Lemma Enclose_body_at (attribs : list float) k b :
  body_at (fun i j b =>
             match attribs !! (i + j)%nat with
             | Some attrib => Done (enclose_value j attrib b)
             | None => Abort undefined_access
             end) k b =
  match attribs !! k with
  | Some attrib => Done (enclose_value (k mod 8) attrib b)
  | None => Abort undefined_access
  end.
Proof.
  unfold body_at. replace (k / 8 * 8 + k mod 8)%nat with k by div_lia.
  reflexivity.
Qed.

Lemma Enclose_whole attribs b :
  (length attribs mod 8 = 0)%nat ->
  Enclose attribs b = Done (enclose_values attribs b).
Proof.
  intros Hlen. unfold Enclose, enclose_values.
  rewrite (for_records_run_places _ (length attribs)) by (reflexivity || lia).
  replace (8 * ((length attribs + 7) / 8) - 0)%nat with (length attribs)
    by div_lia.
  match goal with |- run_places ?f _ _ = _ =>
    assert (Hin : forall k v s, attribs !! k = Some v -> True ->
              f k s = Done (enclose_value (k mod 8) v s) /\ True)
  end.
  { intros k v s Hv _. rewrite Enclose_body_at, Hv. auto. }
  destruct (run_places_inside attribs _ _ _ Hin (length attribs) 0 b I)
    as [Hrun _]; [lia|].
  rewrite Hrun, drop_0, take_ge by lia. reflexivity.
Qed.

Lemma Enclose_partial attribs b :
  (length attribs mod 8 <> 0)%nat ->
  Enclose attribs b = Abort undefined_access.
Proof.
  intros Hlen. unfold Enclose.
  rewrite (for_records_run_places _ (length attribs)) by (reflexivity || lia).
  replace (8 * ((length attribs + 7) / 8) - 0)%nat
    with (length attribs
          + Datatypes.S (8 * ((length attribs + 7) / 8) - length attribs - 1))%nat
    by div_lia.
  apply (run_places_outside attribs
           (fun k v b => enclose_value (k mod 8) v b) _ (fun _ => True)).
  - intros k v s Hv _. rewrite Enclose_body_at, Hv. auto.
  - intros k s Hk _. rewrite Enclose_body_at, Hk. reflexivity.
  - exact I.
  - reflexivity.
Qed.

(** X1. [Enclose] runs to its end exactly on the buffers that hold whole
    records: with a length that is not a multiple of 8 it reads past the
    end of the buffer. *)
Theorem Enclose_whole_records (attribs : list float) (b : Bounds) :
  ((length attribs mod 8 = 0)%nat ->
   Enclose attribs b = Done (enclose_values attribs b)) /\
  ((length attribs mod 8 <> 0)%nat ->
   Enclose attribs b = Abort undefined_access).
Proof. split; [apply Enclose_whole | apply Enclose_partial]. Qed.

Lemma Enclose_whole_records_witness :
  (length [float_one; float_two; float_zero] mod 8 <> 0)%nat /\
  Enclose [float_one; float_two; float_zero] zero_bounds =
  Abort undefined_access.
Proof.
  assert (H : (length [float_one; float_two; float_zero] mod 8 <> 0)%nat)
    by (simpl; lia).
  split; [exact H|].
  exact (proj2 (Enclose_whole_records _ zero_bounds) H).
Defined.

Lemma mins_enclose_value j v b j' :
  mins (enclose_value j v b) j' =
  if decide (j' = j) then (if float_gt (mins b j) v then v else mins b j)
  else mins b j'.
Proof.
  unfold enclose_value. simpl.
  destruct (float_gt (mins b j) v); destruct (decide (j' = j)) as [->|Hne];
    try reflexivity.
  - apply fn_lookup_insert.
  - apply fn_lookup_insert_ne. congruence.
Qed.

Lemma maxes_enclose_value j v b j' :
  maxes (enclose_value j v b) j' =
  if decide (j' = j) then (if float_gt v (maxes b j) then v else maxes b j)
  else maxes b j'.
Proof.
  unfold enclose_value. simpl.
  destruct (float_gt v (maxes b j)); destruct (decide (j' = j)) as [->|Hne];
    try reflexivity.
  - apply fn_lookup_insert.
  - apply fn_lookup_insert_ne. congruence.
Qed.

Lemma float_gt_true a b :
  float_gt a b = true ->
  float_is_nan a = false /\ float_is_nan b = false /\
  float_key b < float_key a.
Proof.
  unfold float_gt. intros H.
  apply andb_true_iff in H as [H Hk]. apply andb_true_iff in H as [Ha Hb].
  apply negb_true_iff in Ha, Hb. apply Z.ltb_lt in Hk. auto.
Qed.

Lemma float_gt_false a b :
  float_is_nan a = false -> float_is_nan b = false ->
  float_gt a b = false -> float_key a <= float_key b.
Proof.
  unfold float_gt. intros -> ->. simpl. intros H. apply Z.ltb_ge in H. exact H.
Qed.

Lemma float_key_le_gt a b :
  float_key a <= float_key b -> float_gt a b = false.
Proof.
  intros H. unfold float_gt.
  destruct (Z.ltb_spec (float_key b) (float_key a)); [lia|].
  apply andb_false_r.
Qed.

(** One value: the bounds of the 8 channels stay free of NaNs and only
    widen, and they enclose the value when it is not a NaN. *)
Lemma enclose_value_widens j v b :
  no_nan_bounds b -> (j < 8)%nat ->
  no_nan_bounds (enclose_value j v b) /\
  (forall j', (j' < 8)%nat ->
     float_key (mins (enclose_value j v b) j') <= float_key (mins b j') /\
     float_key (maxes b j') <= float_key (maxes (enclose_value j v b) j')) /\
  (float_is_nan v = false ->
   float_key (mins (enclose_value j v b) j) <= float_key v /\
   float_key v <= float_key (maxes (enclose_value j v b) j)).
Proof.
  intros Hb Hj. destruct (Hb j Hj) as [Hmin Hmax].
  split; [|split].
  - intros j' Hj'. rewrite mins_enclose_value, maxes_enclose_value.
    destruct (decide (j' = j)) as [->|_]; [|apply Hb, Hj'].
    destruct (float_gt (mins b j) v) eqn:H1;
      destruct (float_gt v (maxes b j)) eqn:H2;
      try apply float_gt_true in H1 as (_ & ? & _);
      try apply float_gt_true in H2 as (? & _ & _); auto.
  - intros j' Hj'. rewrite mins_enclose_value, maxes_enclose_value.
    destruct (decide (j' = j)) as [->|_]; [|lia].
    destruct (float_gt (mins b j) v) eqn:H1;
      destruct (float_gt v (maxes b j)) eqn:H2;
      try apply float_gt_true in H1 as (_ & _ & ?);
      try apply float_gt_true in H2 as (_ & _ & ?); lia.
  - intros Hv. rewrite mins_enclose_value, maxes_enclose_value.
    rewrite !decide_True by reflexivity.
    destruct (float_gt (mins b j) v) eqn:H1;
      destruct (float_gt v (maxes b j)) eqn:H2;
      try apply float_gt_false in H1; try apply float_gt_false in H2;
      auto; lia.
Qed.

Lemma enclose_values_widens values : forall k b,
  no_nan_bounds b ->
  let b' := fold_places (fun k v b => enclose_value (k mod 8) v b) k values b in
  no_nan_bounds b' /\
  (forall j, (j < 8)%nat ->
     float_key (mins b' j) <= float_key (mins b j) /\
     float_key (maxes b j) <= float_key (maxes b' j)) /\
  (forall i v, values !! i = Some v -> float_is_nan v = false ->
     float_key (mins b' ((k + i) mod 8)) <= float_key v /\
     float_key v <= float_key (maxes b' ((k + i) mod 8))).
Proof.
  induction values as [|v0 values IH]; intros k b Hb; cbn [fold_places].
  - split; [exact Hb|]. split; [intros; lia|]. intros i v Hi. discriminate.
  - assert (Hk : (k mod 8 < 8)%nat) by div_lia.
    destruct (enclose_value_widens (k mod 8) v0 b Hb Hk) as (Hb1 & Hw1 & He1).
    specialize (IH (Datatypes.S k) _ Hb1). cbv zeta in IH.
    destruct IH as (Hb2 & Hw2 & He2).
    split; [exact Hb2|]. split.
    + intros j Hj. specialize (Hw1 j Hj). specialize (Hw2 j Hj). lia.
    + intros [|i] v Hi Hv.
      * injection Hi as ->. rewrite Nat.add_0_r.
        specialize (He1 Hv). specialize (Hw2 _ Hk). lia.
      * replace (k + Datatypes.S i)%nat with (Datatypes.S k + i)%nat by lia.
        apply (He2 i v Hi Hv).
Qed.

Lemma Clear_no_nan b : no_nan_bounds (Clear b).
Proof.
  intros j Hj. do 8 (destruct j as [|j]; [split; reflexivity|]). lia.
Qed.

Lemma Enclose_Done attribs b b' :
  Enclose attribs b = Done b' ->
  (length attribs mod 8 = 0)%nat /\ b' = enclose_values attribs b.
Proof.
  intros Hrun. destruct (decide (length attribs mod 8 = 0)%nat) as [Hlen|Hlen].
  - rewrite (Enclose_whole _ _ Hlen) in Hrun. injection Hrun as <-. auto.
  - rewrite (Enclose_partial _ _ Hlen) in Hrun. discriminate.
Qed.

(** X2. Starting from bounds without NaN, such as those [Clear] leaves,
    [Enclose] ends with bounds without NaN that are at least as wide as
    before and that enclose every value of the buffer that is not a NaN:
    the value of place [k] lies between the min and the max of channel
    [k mod 8], and neither comparison of the code would move a bound
    again. *)
Theorem Enclose_encloses (attribs : list float) (b b' : Bounds) :
  no_nan_bounds b ->
  Enclose attribs b = Done b' ->
  no_nan_bounds b' /\
  (forall j, (j < 8)%nat ->
     float_key (mins b' j) <= float_key (mins b j) /\
     float_key (maxes b j) <= float_key (maxes b' j)) /\
  (forall k v, attribs !! k = Some v -> float_is_nan v = false ->
     float_key (mins b' (k mod 8)) <= float_key v /\
     float_key v <= float_key (maxes b' (k mod 8)) /\
     float_gt (mins b' (k mod 8)) v = false /\
     float_gt v (maxes b' (k mod 8)) = false).
Proof.
  intros Hb Hrun. apply Enclose_Done in Hrun as [_ ->].
  destruct (enclose_values_widens attribs 0 b Hb) as (Hb' & Hw & He).
  split; [exact Hb'|]. split; [exact Hw|].
  intros k v Hk Hv. destruct (He k v Hk Hv) as [Hlo Hhi]. simpl in Hlo, Hhi.
  repeat split; try assumption; apply float_key_le_gt; assumption.
Qed.

Lemma Enclose_encloses_witness :
  no_nan_bounds (Clear zero_bounds) /\
  exists b',
    Enclose (one_record ++ one_record) (Clear zero_bounds) = Done b' /\
    float_key (mins b' 2%nat) <= float_key (float_neg float_one) /\
    float_key (float_neg float_one) <= float_key (maxes b' 2%nat).
Proof.
  assert (Hb : no_nan_bounds (Clear zero_bounds)).
  { intros j Hj. do 8 (destruct j as [|j]; [split; reflexivity|]). lia. }
  split; [exact Hb|].
  assert (Hrun : Enclose (one_record ++ one_record) (Clear zero_bounds) =
                 Done (enclose_values (one_record ++ one_record)
                         (Clear zero_bounds))).
  { apply Enclose_whole. reflexivity. }
  eexists. split; [exact Hrun|].
  destruct (Enclose_encloses _ _ _ Hb Hrun) as (_ & _ & He).
  destruct (He 10%nat (float_neg float_one) eq_refl eq_refl) as (H1 & H2 & _).
  split; [exact H1 | exact H2].
Defined.

Lemma float_gt_nan_r a v : float_is_nan v = true -> float_gt a v = false.
Proof.
  intros Hv. unfold float_gt. rewrite Hv. simpl. rewrite andb_false_r.
  reflexivity.
Qed.

Lemma float_gt_nan_l a v : float_is_nan v = true -> float_gt v a = false.
Proof. intros Hv. unfold float_gt. rewrite Hv. reflexivity. Qed.

Lemma enclose_value_nan j v b :
  float_is_nan v = true -> enclose_value j v b = b.
Proof.
  intros Hv. unfold enclose_value.
  rewrite (float_gt_nan_r _ _ Hv), (float_gt_nan_l _ _ Hv).
  destruct b; reflexivity.
Qed.

Lemma fold_places_enclose_nan vs : forall k b,
  Forall (fun v => float_is_nan v = true) vs ->
  fold_places (fun k v b => enclose_value (k mod 8) v b) k vs b = b.
Proof.
  induction vs as [|v vs IH]; intros k b Hnan; cbn [fold_places];
    [reflexivity|].
  apply list.Forall_cons in Hnan as [Hv Hnan].
  rewrite (enclose_value_nan _ _ _ Hv). apply IH, Hnan.
Qed.

Lemma fold_places_enclose_nan_bound vs j : forall k b,
  let b' := fold_places (fun k v b => enclose_value (k mod 8) v b) k vs b in
  (float_is_nan (mins b j) = true -> mins b' j = mins b j) /\
  (float_is_nan (maxes b j) = true -> maxes b' j = maxes b j).
Proof.
  induction vs as [|v vs IH]; intros k b; cbn [fold_places]; [auto|].
  destruct (IH (Datatypes.S k) (enclose_value (k mod 8) v b)) as [IH1 IH2].
  rewrite mins_enclose_value in IH1. rewrite maxes_enclose_value in IH2.
  split; intros Hn.
  - destruct (decide (j = k mod 8)%nat) as [->|_]; [|apply IH1, Hn].
    rewrite (float_gt_nan_l _ _ Hn) in IH1. apply IH1, Hn.
  - destruct (decide (j = k mod 8)%nat) as [->|_]; [|apply IH2, Hn].
    rewrite (float_gt_nan_r _ _ Hn) in IH2. apply IH2, Hn.
Qed.

(** X3. NaNs never move a bound.  A buffer of whole records that holds
    only NaNs leaves the bounds as they are; and a bound that is itself a
    NaN is never replaced, whatever the buffer holds. *)
Theorem Enclose_nan (attribs : list float) (b : Bounds) :
  ((length attribs mod 8 = 0)%nat ->
   Forall (fun v => float_is_nan v = true) attribs ->
   Enclose attribs b = Done b) /\
  (forall b' j,
     Enclose attribs b = Done b' ->
     (float_is_nan (mins b j) = true -> mins b' j = mins b j) /\
     (float_is_nan (maxes b j) = true -> maxes b' j = maxes b j)).
Proof.
  split.
  - intros Hlen Hnan. rewrite (Enclose_whole _ _ Hlen). f_equal.
    apply fold_places_enclose_nan, Hnan.
  - intros b' j Hrun. apply Enclose_Done in Hrun as [_ ->].
    apply fold_places_enclose_nan_bound.
Qed.

Lemma Enclose_nan_witness :
  (length (replicate 8 float_nan) mod 8 = 0)%nat /\
  Forall (fun v => float_is_nan v = true) (replicate 8 float_nan) /\
  Enclose (replicate 8 float_nan) zero_bounds = Done zero_bounds.
Proof.
  assert (H1 : (length (replicate 8 float_nan) mod 8 = 0)%nat) by reflexivity.
  assert (H2 : Forall (fun v => float_is_nan v = true) (replicate 8 float_nan))
    by (repeat constructor).
  split; [exact H1|]. split; [exact H2|].
  exact (proj1 (Enclose_nan _ zero_bounds) H1 H2).
Defined.

Lemma fold_places_app {S A : Type} (step : nat -> A -> S -> S) vs1 vs2 :
  forall k s,
    fold_places step k (vs1 ++ vs2) s =
    fold_places step (k + length vs1) vs2 (fold_places step k vs1 s).
Proof.
  induction vs1 as [|v vs1 IH]; intros k s; cbn [fold_places app length].
  - rewrite Nat.add_0_r. reflexivity.
  - rewrite IH. f_equal. lia.
Qed.

Lemma fold_places_period {S A : Type} (step : nat -> A -> S -> S) d vs :
  (forall k v s, step (k + d)%nat v s = step k v s) ->
  forall k s, fold_places step (k + d) vs s = fold_places step k vs s.
Proof.
  intros Hstep. induction vs as [|v vs IH]; intros k s; cbn [fold_places];
    [reflexivity|].
  rewrite Hstep. apply (IH (Datatypes.S k)).
Qed.

Lemma fold_places_enclose_shift q : forall k vs b,
  fold_places (fun k v b => enclose_value (k mod 8) v b) (k + 8 * q) vs b =
  fold_places (fun k v b => enclose_value (k mod 8) v b) k vs b.
Proof.
  induction q as [|q IH]; intros k vs b.
  - rewrite Nat.mul_0_r, Nat.add_0_r. reflexivity.
  - replace (k + 8 * Datatypes.S q)%nat with ((k + 8 * q) + 8)%nat by lia.
    rewrite fold_places_period; [apply IH|].
    intros k' v s.
    replace ((k' + 8) mod 8)%nat with (k' mod 8)%nat by div_lia. reflexivity.
Qed.

(** X4. Enclosing a buffer of whole records and then a second buffer is
    enclosing the two buffers end to end. *)
Theorem Enclose_app (attribs1 attribs2 : list float) (b : Bounds) :
  (length attribs1 mod 8 = 0)%nat ->
  Enclose (attribs1 ++ attribs2) b =
  b1 ← Enclose attribs1 b; Enclose attribs2 b1.
Proof.
  intros H1. rewrite (Enclose_whole attribs1 b H1), bind_Done.
  destruct (decide (length attribs2 mod 8 = 0)%nat) as [H2|H2].
  - rewrite !Enclose_whole by (rewrite ?length_app; div_lia || exact H2).
    f_equal. unfold enclose_values. rewrite fold_places_app.
    replace (0 + length attribs1)%nat with (0 + 8 * (length attribs1 / 8))%nat
      by div_lia.
    apply fold_places_enclose_shift.
  - rewrite !Enclose_partial by (rewrite ?length_app; div_lia || exact H2).
    reflexivity.
Qed.

Lemma Enclose_app_witness :
  (length one_record mod 8 = 0)%nat /\
  Enclose (one_record ++ one_record) zero_bounds =
  (b1 ← Enclose one_record zero_bounds; Enclose one_record b1).
Proof.
  assert (H : (length one_record mod 8 = 0)%nat) by reflexivity.
  split; [exact H | exact (Enclose_app one_record one_record zero_bounds H)].
Defined.

(** X5. A bound that [Enclose] has moved is a value of its channel in the
    buffer: the min of a channel is either still what it was before the
    call (FLT_MAX after [Clear]) or one of the values of the channel, and
    its max either still what it was or one of them. *)
Theorem Enclose_attained (attribs : list float) (b b' : Bounds) (j : nat) :
  Enclose attribs b = Done b' ->
  (mins b' j = mins b j \/
   exists k, (k mod 8 = j)%nat /\ attribs !! k = Some (mins b' j)) /\
  (maxes b' j = maxes b j \/
   exists k, (k mod 8 = j)%nat /\ attribs !! k = Some (maxes b' j)).
Proof.
  intros Hrun. apply Enclose_Done in Hrun as [_ ->]. unfold enclose_values.
  assert (Hgen : forall vs pre b,
    let b' := fold_places (fun k v b => enclose_value (k mod 8) v b)
                (length pre) vs b in
    (mins b' j = mins b j \/
     exists k, (k mod 8 = j)%nat /\ (pre ++ vs) !! k = Some (mins b' j)) /\
    (maxes b' j = maxes b j \/
     exists k, (k mod 8 = j)%nat /\ (pre ++ vs) !! k = Some (maxes b' j))).
  { induction vs as [|v vs IH]; intros pre b0; cbn [fold_places]; [auto|].
    specialize (IH (pre ++ [v]) (enclose_value (length pre mod 8) v b0)).
    rewrite length_app, Nat.add_1_r, <- app_assoc in IH. cbn [app] in IH.
    cbv zeta in IH. destruct IH as [IHmin IHmax].
    rewrite mins_enclose_value in IHmin. rewrite maxes_enclose_value in IHmax.
    assert (Hhere : (pre ++ v :: vs) !! length pre = Some v)
      by (apply list_lookup_middle; reflexivity).
    split.
    - destruct IHmin as [Heq|Hex]; [|right; exact Hex]. rewrite Heq.
      destruct (decide (j = length pre mod 8)%nat) as [->|_]; [|left; reflexivity].
      destruct (float_gt _ v); [right | left; reflexivity].
      exists (length pre). split; [reflexivity | exact Hhere].
    - destruct IHmax as [Heq|Hex]; [|right; exact Hex]. rewrite Heq.
      destruct (decide (j = length pre mod 8)%nat) as [->|_]; [|left; reflexivity].
      destruct (float_gt v _); [right | left; reflexivity].
      exists (length pre). split; [reflexivity | exact Hhere]. }
  exact (Hgen attribs [] b).
Qed.

Lemma Enclose_attained_witness :
  exists b',
    Enclose one_record (Clear zero_bounds) = Done b' /\
    (mins b' 0%nat = FLT_MAX \/
     exists k, (k mod 8 = 0)%nat /\ one_record !! k = Some (mins b' 0%nat)).
Proof.
  assert (Hrun : Enclose one_record (Clear zero_bounds) =
                 Done (enclose_values one_record (Clear zero_bounds))).
  { apply Enclose_whole. reflexivity. }
  eexists. split; [exact Hrun|].
  exact (proj1 (Enclose_attained _ _ _ 0%nat Hrun)).
Defined.

(** ** Facts about AttribsToQuantizedAttribs *)

Section QuantizeBufferFacts.

Variable Quantize : float -> float -> float -> Z -> Z.
Variable bounds_params : BoundsParams.

Lemma fold_places_insert_lookup (vs : list float) : forall k (q : list Z) i,
  (k + length vs <= length q)%nat ->
  fold_places (fun k f q => <[k := (quantized_at Quantize bounds_params) k f]> q) k vs q !! i =
  if decide (k <= i < k + length vs)%nat
  then (quantized_at Quantize bounds_params) i <$> vs !! (i - k)%nat
  else q !! i.
Proof.
  induction vs as [|v vs IH]; intros k q i Hlen; cbn [fold_places length].
  - destruct (decide (k <= i < k + 0)%nat); [lia | reflexivity].
  - rewrite IH by (rewrite length_insert; simpl in Hlen; lia).
    simpl in Hlen.
    destruct (decide (Datatypes.S k <= i < Datatypes.S k + length vs)%nat),
      (decide (k <= i < k + Datatypes.S (length vs))%nat); try lia.
    + replace (i - k)%nat with (Datatypes.S (i - Datatypes.S k)) by lia.
      reflexivity.
    + assert (i = k) as -> by lia. rewrite Nat.sub_diag.
      rewrite list_lookup_insert_eq by lia. reflexivity.
    + rewrite list_lookup_insert_ne by lia. reflexivity.
Qed.

Lemma fold_places_insert_length (vs : list float) : forall k (q : list Z),
  length (fold_places (fun k f q => <[k := (quantized_at Quantize bounds_params) k f]> q) k vs q) =
  length q.
Proof.
  induction vs as [|v vs IH]; intros k q; cbn [fold_places]; [reflexivity|].
  rewrite IH. apply length_insert.
Qed.

Lemma AttribsToQuantizedAttribs_cases (interleaved_attribs : list float)
    (quantized_attribs : list Z) :
  AttribsToQuantizedAttribs Quantize interleaved_attribs bounds_params
    quantized_attribs =
  if decide (length interleaved_attribs mod 8 = 0)%nat
  then Done (imap (quantized_at Quantize bounds_params) interleaved_attribs)
  else Abort undefined_access.
Proof.
  unfold AttribsToQuantizedAttribs.
  set (n := length interleaved_attribs).
  set (q0 := resize n 0 quantized_attribs).
  match goal with |- context [for_records n 0 ?b q0] => set (body := b) end.
  assert (Hin : forall k v (s : list Z),
            interleaved_attribs !! k = Some v -> length s = n ->
            body_at body k s = Done (<[k := (quantized_at Quantize bounds_params) k v]> s) /\
            length (<[k := (quantized_at Quantize bounds_params) k v]> s) = n).
  { intros k v s Hv Hs. unfold body_at, body.
    replace (k / 8 * 8 + k mod 8)%nat with k by div_lia. rewrite Hv.
    rewrite decide_True by (apply lookup_lt_Some in Hv; fold n in Hv; lia).
    rewrite length_insert. auto. }
  assert (Hout : forall k (s : list Z),
            interleaved_attribs !! k = None -> length s = n ->
            body_at body k s = Abort undefined_access).
  { intros k s Hk _. unfold body_at, body.
    replace (k / 8 * 8 + k mod 8)%nat with k by div_lia. rewrite Hk.
    reflexivity. }
  assert (Hq0 : length q0 = n) by apply length_resize.
  rewrite (for_records_run_places _ n) by (reflexivity || lia).
  destruct (decide (n mod 8 = 0)%nat) as [Hlen|Hlen].
  - replace (8 * ((n + 7) / 8) - 0)%nat with n by div_lia.
    destruct (run_places_inside interleaved_attribs _ _ _ Hin n 0 q0 Hq0)
      as [-> _]; [fold n; lia|].
    f_equal. rewrite drop_0, take_ge by (fold n; lia).
    apply list_eq. intros i.
    rewrite fold_places_insert_lookup by (fold n; lia).
    rewrite list_lookup_imap, Nat.sub_0_r.
    destruct (decide (0 <= i < 0 + length interleaved_attribs)%nat);
      [reflexivity|].
    rewrite !lookup_ge_None_2 by (fold n; lia). reflexivity.
  - replace (8 * ((n + 7) / 8) - 0)%nat
      with (n + Datatypes.S (8 * ((n + 7) / 8) - n - 1))%nat by div_lia.
    exact (run_places_outside interleaved_attribs _ _ _ _ Hin Hout n _ q0 Hq0
             eq_refl).
Qed.

(** X6. On a buffer of whole records the pass gives, whatever the vector
    it is handed held before, the buffer of the same length in which the
    value of place [k] is quantized with the offset, scale and bit depth
    of channel [k mod 8]; on any other buffer it reads past the end. *)
Theorem AttribsToQuantizedAttribs_channels (interleaved_attribs : list float)
    (quantized_attribs : list Z) :
  ((length interleaved_attribs mod 8 = 0)%nat ->
   AttribsToQuantizedAttribs Quantize interleaved_attribs bounds_params
     quantized_attribs = Done (imap (quantized_at Quantize bounds_params) interleaved_attribs)) /\
  ((length interleaved_attribs mod 8 <> 0)%nat ->
   AttribsToQuantizedAttribs Quantize interleaved_attribs bounds_params
     quantized_attribs = Abort undefined_access).
Proof.
  rewrite AttribsToQuantizedAttribs_cases.
  split; intros Hlen; [rewrite decide_True | rewrite decide_False];
    auto.
Qed.

End QuantizeBufferFacts.

Lemma AttribsToQuantizedAttribs_channels_witness :
  (length (replicate 8 float_one) mod 8 = 0)%nat /\
  AttribsToQuantizedAttribs (fun f offset range bits => to_uint16 (f + bits))
    (replicate 8 float_one) (FromBounds binary32_sub no_params sample_bounds)
    [7; 7; 7] =
  Done (imap (quantized_at (fun f offset range bits => to_uint16 (f + bits))
                (FromBounds binary32_sub no_params sample_bounds))
          (replicate 8 float_one)).
Proof.
  assert (H : (length (replicate 8 float_one) mod 8 = 0)%nat) by reflexivity.
  split; [exact H|].
  exact (proj1 (AttribsToQuantizedAttribs_channels _ _ _ [7; 7; 7]) H).
Defined.

(** ** The index list and the records of a batch *)

Lemma NoDup_snoc {A} (l : list A) x : NoDup l -> x ∉ l -> NoDup (l ++ [x]).
Proof.
  intros Hnd Hx. apply list.NoDup_app. split; [exact Hnd|].
  split; [|apply NoDup_singleton].
  intros y Hy Hy'. apply list_elem_of_singleton in Hy'. subst y. exact (Hx Hy).
Qed.

Lemma flat_results_app calls1 : forall seen calls2,
  NoDup seen ->
  flat_results seen (calls1 ++ calls2) =
  flat_results seen calls1 ++ flat_results (distinct_from seen calls1) calls2.
Proof.
  induction calls1 as [|c calls1 IH]; intros seen calls2 Hnd; [reflexivity|].
  rewrite <- app_comm_cons, !(flat_results_step _ _ _ Hnd), distinct_from_step.
  rewrite <- app_comm_cons. f_equal. apply IH.
  destruct (decide (c ∈ seen)); [exact Hnd | apply NoDup_snoc; assumption].
Qed.

Lemma AddVertex_indices src index0 index1 index2 b seen b' :
  batch_inv b seen ->
  AddVertex src index0 index1 index2 b = Done b' ->
  indices (draw_mesh_ b') =
  indices (draw_mesh_ b) ++
  (flat_results seen [(index0 - 1, index1 - 1, index2 - 1)]).*1.
Proof.
  intros (Hinv & _ & _) Hrun.
  destruct (AddVertex_cases _ _ _ _ _ _ Hrun)
    as (flat & is_new & f' & Hget & _ & Hind & _).
  destruct (Z.ltb_spec (index0 - 1) 0) as [Hneg|Hp].
  { rewrite GetFlattenedIndex_negative in Hget by exact Hneg. discriminate. }
  destruct (GetFlattenedIndex_step _ _ _ (index1 - 1) (index2 - 1) Hinv Hp)
    as (f1 & Hstep & _).
  rewrite Hget in Hstep. rewrite Hind. f_equal.
  rewrite (flat_results_step _ _ _ (inv_nodup _ _ _ _ Hinv)).
  injection Hstep as Hstep _. rewrite <- Hstep. reflexivity.
Qed.

Lemma AddTriangle_indices src raw b seen b' :
  batch_inv b seen ->
  AddTriangle src raw b = Done b' ->
  indices (draw_mesh_ b') =
  indices (draw_mesh_ b) ++ (flat_results seen (triangle_triples raw)).*1.
Proof.
  intros Hinv Hrun. unfold AddTriangle in Hrun.
  destruct (AddVertex src (raw !!! 0%nat) _ _ b) as [b1|] eqn:H1;
    [|discriminate].
  cbn [mbind outcome_bind] in Hrun.
  destruct (AddVertex src (raw !!! 3%nat) _ _ b1) as [b2|] eqn:H2;
    [|discriminate].
  cbn [mbind outcome_bind] in Hrun.
  pose proof (AddVertex_indices _ _ _ _ _ _ _ Hinv H1) as E1.
  apply (AddVertex_Done _ _ _ _ _ _ _ Hinv) in H1 as [Hinv1 _].
  pose proof (AddVertex_indices _ _ _ _ _ _ _ Hinv1 H2) as E2.
  apply (AddVertex_Done _ _ _ _ _ _ _ Hinv1) in H2 as [Hinv2 _].
  pose proof (AddVertex_indices _ _ _ _ _ _ _ Hinv2 Hrun) as E3.
  rewrite E3, E2, E1, <- !app_assoc. f_equal.
  pose proof (inv_nodup _ _ _ _ (proj1 Hinv)) as Hnd.
  pose proof (inv_nodup _ _ _ _ (proj1 Hinv1)) as Hnd1.
  unfold triangle_triples.
  change [?x; ?y; ?z] with ([x] ++ [y] ++ [z]).
  rewrite (flat_results_app [_]) by exact Hnd.
  rewrite distinct_from_step. cbn [distinct_from].
  rewrite (flat_results_app [_]) by exact Hnd1.
  rewrite distinct_from_step. cbn [distinct_from].
  rewrite !fmap_app. reflexivity.
Qed.

Lemma AddTriangle_calls_indices calls : forall b seen b',
  batch_inv b seen ->
  AddTriangle_calls calls b = Done b' ->
  indices (draw_mesh_ b') =
  indices (draw_mesh_ b) ++ (flat_results seen (calls_triples calls)).*1.
Proof.
  induction calls as [|[src raw] calls IH]; intros b seen b' Hinv Hrun.
  - injection Hrun as <-. simpl. rewrite app_nil_r. reflexivity.
  - cbn [AddTriangle_calls] in Hrun.
    destruct (AddTriangle src raw b) as [b1|] eqn:H1; [|discriminate].
    cbn [mbind outcome_bind] in Hrun.
    pose proof (AddTriangle_indices _ _ _ _ _ Hinv H1) as E1.
    apply (AddTriangle_Done _ _ _ _ _ Hinv) in H1 as [Hinv1 _].
    rewrite (IH _ _ _ Hinv1 Hrun), E1, <- app_assoc. f_equal.
    rewrite calls_triples_cons, flat_results_app, fmap_app;
      [reflexivity | exact (inv_nodup _ _ _ _ (proj1 Hinv))].
Qed.

Lemma record_at_app_l i (a record : list float) :
  (8 * i + 8 <= length a)%nat -> record_at i (a ++ record) = record_at i a.
Proof.
  intros Hlen. unfold record_at.
  rewrite drop_app_le by lia. apply take_app_le. rewrite length_drop. lia.
Qed.

Lemma record_at_app_r i (a record : list float) :
  length a = (8 * i)%nat -> length record = 8%nat ->
  record_at i (a ++ record) = record.
Proof.
  intros Ha Hr. unfold record_at. rewrite <- Ha, drop_app_length.
  apply take_ge. lia.
Qed.

Lemma batch_records_mono srcs srcs' b seen :
  srcs ⊆ srcs' -> batch_records srcs b seen -> batch_records srcs' b seen.
Proof.
  intros Hsub Hrec i c Hi. destruct (Hrec i c Hi) as (src & Hsrc & Hnew).
  exists src. split; [apply Hsub, Hsrc | exact Hnew].
Qed.

Lemma AddVertex_records srcs src index0 index1 index2 b seen b' :
  batch_inv b seen -> batch_records srcs b seen -> src ∈ srcs ->
  AddVertex src index0 index1 index2 b = Done b' ->
  let c := (index0 - 1, index1 - 1, index2 - 1) in
  batch_records srcs b' (if decide (c ∈ seen) then seen else seen ++ [c]).
Proof.
  intros Hb Hrec Hsrc Hrun c. pose proof Hb as (Hinv & Hlen & _).
  destruct (AddVertex_cases _ _ _ _ _ _ Hrun)
    as (flat & is_new & f' & Hget & _ & _ & Hatt).
  fold c in Hatt.
  destruct (Z.ltb_spec (index0 - 1) 0) as [Hneg|Hp].
  { rewrite GetFlattenedIndex_negative in Hget by exact Hneg. discriminate. }
  destruct (GetFlattenedIndex_step _ _ _ (index1 - 1) (index2 - 1) Hinv Hp)
    as (f1 & Hstep & _).
  fold c in Hstep. rewrite Hget in Hstep.
  pose proof (inv_nodup _ _ _ _ Hinv) as Hnd.
  destruct (decide (c ∈ seen)) as [Hin|Hnew].
  - apply list_elem_of_lookup in Hin as Hi. destruct Hi as [i Hi].
    rewrite (list_find_eq_Some _ _ _ Hnd Hi) in Hstep.
    injection Hstep as -> -> ->.
    intros k d Hk. rewrite Hatt. exact (Hrec k d Hk).
  - rewrite (list_find_eq_None _ _ Hnew) in Hstep.
    injection Hstep as -> -> ->. destruct Hatt as (record & Hatt & Hnewrec).
    intros k d Hk. rewrite Hatt.
    apply lookup_app_Some in Hk as [Hk|[Hge Hk]].
    + rewrite record_at_app_l by (apply lookup_lt_Some in Hk; lia).
      exact (Hrec k d Hk).
    + apply list_lookup_singleton_Some in Hk as [Hk <-].
      assert (k = length seen) as -> by lia.
      rewrite record_at_app_r;
        [|exact Hlen | exact (new_record_length _ _ _ Hnewrec)].
      exists src. split; [exact Hsrc | exact Hnewrec].
Qed.

Lemma AddTriangle_records srcs src raw b seen b' :
  batch_inv b seen -> batch_records srcs b seen -> src ∈ srcs ->
  AddTriangle src raw b = Done b' ->
  batch_records srcs b' (distinct_from seen (triangle_triples raw)).
Proof.
  intros Hinv Hrec Hsrc Hrun. unfold AddTriangle in Hrun.
  destruct (AddVertex src (raw !!! 0%nat) _ _ b) as [b1|] eqn:H1;
    [|discriminate].
  cbn [mbind outcome_bind] in Hrun.
  destruct (AddVertex src (raw !!! 3%nat) _ _ b1) as [b2|] eqn:H2;
    [|discriminate].
  cbn [mbind outcome_bind] in Hrun.
  pose proof (AddVertex_records _ _ _ _ _ _ _ _ Hinv Hrec Hsrc H1) as Hrec1.
  apply (AddVertex_Done _ _ _ _ _ _ _ Hinv) in H1 as [Hinv1 _].
  pose proof (AddVertex_records _ _ _ _ _ _ _ _ Hinv1 Hrec1 Hsrc H2) as Hrec2.
  apply (AddVertex_Done _ _ _ _ _ _ _ Hinv1) in H2 as [Hinv2 _].
  pose proof (AddVertex_records _ _ _ _ _ _ _ _ Hinv2 Hrec2 Hsrc Hrun) as Hrec3.
  unfold triangle_triples. rewrite !distinct_from_step. exact Hrec3.
Qed.

Lemma AddTriangle_calls_records calls : forall srcs b seen b',
  batch_inv b seen -> batch_records srcs b seen -> calls.*1 ⊆ srcs ->
  AddTriangle_calls calls b = Done b' ->
  batch_records srcs b' (distinct_from seen (calls_triples calls)).
Proof.
  induction calls as [|[src raw] calls IH];
    intros srcs b seen b' Hinv Hrec Hsub Hrun.
  - injection Hrun as <-. exact Hrec.
  - cbn [AddTriangle_calls] in Hrun.
    destruct (AddTriangle src raw b) as [b1|] eqn:H1; [|discriminate].
    cbn [mbind outcome_bind] in Hrun.
    assert (Hsrc : src ∈ srcs) by (apply Hsub; left).
    pose proof (AddTriangle_records _ _ _ _ _ _ Hinv Hrec Hsrc H1) as Hrec1.
    apply (AddTriangle_Done _ _ _ _ _ Hinv) in H1 as [Hinv1 _].
    rewrite calls_triples_cons, distinct_from_app.
    apply (IH _ _ _ _ Hinv1 Hrec1); [|exact Hrun].
    intros x Hx. apply Hsub. right. exact Hx.
Qed.

(** X7. In the mesh a fresh batch builds, the entry of the index list for
    the k-th vertex handed in is the flat index of first-occurrence
    numbering, and the record it designates in the attribute buffer holds
    the attributes of that vertex's triple: its 3 position floats, its 2
    texcoord floats or zeros, its 3 normal floats or zeros, as read from
    the buffers at one of the calls. *)
Theorem AddTriangle_indexed_records calls b' :
  AddTriangle_calls calls DrawBatch_new = Done b' ->
  indices (draw_mesh_ b') = (flat_results [] (calls_triples calls)).*1 /\
  forall k c, calls_triples calls !! k = Some c ->
    exists flat src,
      indices (draw_mesh_ b') !! k = Some flat /\
      0 <= flat < count (flattener_ b') /\
      src ∈ calls.*1 /\
      new_record src c (record_at (Z.to_nat flat) (attribs (draw_mesh_ b'))).
Proof.
  intros Hrun.
  pose proof (AddTriangle_calls_indices _ _ _ _ batch_inv_new Hrun) as Hind.
  simpl in Hind.
  assert (Hrec0 : batch_records calls.*1 DrawBatch_new []).
  { intros i c Hi. discriminate. }
  pose proof (AddTriangle_calls_records _ _ _ _ _ batch_inv_new Hrec0
                (reflexivity _) Hrun) as Hrec.
  destruct (AddTriangle_calls_Done _ _ _ _ batch_inv_new Hrun)
    as [(Hinv & _ & _) _].
  fold (distinct (calls_triples calls)) in Hrec, Hinv.
  split; [exact Hind|]. intros k c Hk.
  destruct (lookup_lt_is_Some_2 (flat_results [] (calls_triples calls)) k)
    as [[flat is_new] Hr].
  { rewrite flat_results_length. eapply lookup_lt_Some, Hk. }
  destruct (flat_results_place _ _ _ _ _ Hk Hr) as (H0 & Hp & _).
  destruct (Hrec _ _ Hp) as (src & Hsrc & Hnew).
  exists flat, src. split; [rewrite Hind, list_lookup_fmap, Hr; reflexivity|].
  split; [|split; [exact Hsrc | exact Hnew]].
  unfold count. rewrite (inv_count _ _ _ _ Hinv).
  apply lookup_lt_Some in Hp. lia.
Qed.

Lemma AddTriangle_indexed_records_witness :
  exists b',
    AddTriangle_calls quad_calls DrawBatch_new = Done b' /\
    indices (draw_mesh_ b') = [0; 1; 2; 0; 2; 3].
Proof.
  destruct (AddTriangle_calls quad_calls DrawBatch_new) as [b'|e] eqn:Hrun;
    [|vm_compute in Hrun; discriminate].
  exists b'. split; [reflexivity|].
  rewrite (proj1 (AddTriangle_indexed_records quad_calls b' Hrun)).
  vm_compute. reflexivity.
Defined.

(** ** The flattener feeds the index compressor *)

Lemma hwm_deltas_flat_results calls : forall seen,
  NoDup seen ->
  exists deltas,
    hwm_deltas (Z.of_nat (length seen)) (flat_results seen calls).*1 =
      Some deltas /\
    length deltas = length calls.
Proof.
  induction calls as [|c calls IH]; intros seen Hnd; [exists []; auto|].
  cbn [flat_results].
  destruct (list_find (eq c) seen) as [[i x]|] eqn:Hfind;
    cbn [fmap list_fmap fst hwm_deltas].
  - apply list_find_Some in Hfind as (Hi & _ & _).
    apply lookup_lt_Some in Hi.
    destruct (Z.leb_spec (Z.of_nat i) (Z.of_nat (length seen))); [|lia].
    destruct (Z.eqb_spec (Z.of_nat i) (Z.of_nat (length seen))); [lia|].
    destruct (IH seen Hnd) as (deltas & -> & Hlen).
    eexists. split; [reflexivity|]. simpl. lia.
  - rewrite Z.leb_refl, Z.eqb_refl.
    assert (Hnew : c ∉ seen).
    { intros Hin. apply list_elem_of_lookup in Hin as [i Hi].
      rewrite (list_find_eq_Some _ _ _ Hnd Hi) in Hfind. discriminate. }
    destruct (IH (seen ++ [c]) (NoDup_snoc _ _ Hnd Hnew)) as (deltas & Hd & Hlen).
    rewrite length_app, Nat2Z.inj_add in Hd.
    change (Z.of_nat (length [c])) with 1 in Hd. rewrite Hd.
    eexists. split; [reflexivity|]. simpl. lia.
Qed.

Lemma hwm_foldl_flat_results calls : forall seen,
  NoDup seen ->
  foldl (fun high_water_mark i =>
           if i =? high_water_mark then high_water_mark + 1
           else high_water_mark)
    (Z.of_nat (length seen)) (flat_results seen calls).*1 =
  Z.of_nat (length (distinct_from seen calls)).
Proof.
  induction calls as [|c calls IH]; intros seen Hnd; [reflexivity|].
  rewrite (flat_results_step _ _ _ Hnd), distinct_from_step.
  cbn [fmap list_fmap foldl].
  destruct (decide (c ∈ seen)) as [Hin|Hnew].
  - apply list_elem_of_lookup in Hin as [i Hi].
    rewrite (list_find_eq_Some _ _ _ Hnd Hi). simpl.
    apply lookup_lt_Some in Hi.
    destruct (Z.eqb_spec (Z.of_nat i) (Z.of_nat (length seen))); [lia|].
    apply IH, Hnd.
  - rewrite (list_find_eq_None _ _ Hnew). simpl. rewrite Z.eqb_refl.
    rewrite <- (IH _ (NoDup_snoc _ _ Hnd Hnew)).
    rewrite length_app, Nat2Z.inj_add. reflexivity.
Qed.

(** X8. The index list of a mesh built by a fresh batch always obeys the
    rule of the index compressor: with fewer than 65536 vertices (the
    bound the assembler checks) no check of the compressor on an index
    fails, one delta per index goes to the encoder, and the mark ends at
    the number of vertices. *)
Theorem batch_indices_compress {buffer : Type}
    (Uint16ToUtf8 : Z -> buffer -> bool * buffer) calls b' (utf8 : buffer) :
  AddTriangle_calls calls DrawBatch_new = Done b' ->
  Z.of_nat (length (attribs (draw_mesh_ b'))) / 8 < 65536 ->
  hwm_after (indices (draw_mesh_ b')) = count (flattener_ b') /\
  exists deltas,
    hwm_deltas 0 (indices (draw_mesh_ b')) = Some deltas /\
    length deltas = length (indices (draw_mesh_ b')) /\
    CompressIndicesToUtf8 Uint16ToUtf8 (indices (draw_mesh_ b')) utf8 =
    emit_all Uint16ToUtf8 deltas utf8.
Proof.
  intros Hrun Hverts.
  pose proof (AddTriangle_calls_indices _ _ _ _ batch_inv_new Hrun) as Hind.
  simpl in Hind.
  destruct (AddTriangle_calls_Done _ _ _ _ batch_inv_new Hrun)
    as [(Hinv & Hlen & Hidx) _].
  split.
  - unfold hwm_after, count. rewrite Hind, (inv_count _ _ _ _ Hinv).
    exact (hwm_foldl_flat_results _ [] NoDup_nil_2).
  - destruct (hwm_deltas_flat_results (calls_triples calls) [] NoDup_nil_2)
      as (deltas & Hd & Hdl).
    change (Z.of_nat (length [])) with 0 in Hd. rewrite <- Hind in Hd.
    exists deltas. split; [exact Hd|]. split.
    + rewrite Hdl, Hind, length_fmap, flat_results_length. reflexivity.
    + unfold CompressIndicesToUtf8.
      rewrite CompressIndices_loop_hwm_deltas, Hd; [reflexivity | lia|].
      eapply list.Forall_impl; [exact Hidx|]. intros i Hi. simpl in Hi.
      rewrite Hlen, Nat2Z.inj_mul, Z.mul_comm, Z.div_mul in Hverts by lia.
      lia.
Qed.

Lemma batch_indices_compress_witness :
  exists b',
    AddTriangle_calls quad_calls DrawBatch_new = Done b' /\
    CompressIndicesToUtf8 trace_word (indices (draw_mesh_ b')) [] =
    Done [0; 0; 0; 3; 1; 0].
Proof.
  destruct (AddTriangle_calls quad_calls DrawBatch_new) as [b'|e] eqn:Hrun;
    [|vm_compute in Hrun; discriminate].
  exists b'. split; [reflexivity|].
  assert (Hverts : Z.of_nat (length (attribs (draw_mesh_ b'))) / 8 < 65536).
  { vm_compute in Hrun. injection Hrun as <-. vm_compute. reflexivity. }
  destruct (batch_indices_compress trace_word quad_calls b' [] Hrun Hverts)
    as (_ & deltas & Hd & _ & ->).
  vm_compute in Hrun. injection Hrun as <-.
  vm_compute in Hd. injection Hd as <-. reflexivity.
Defined.

(** ** Nothing is lost by the index compressor *)

Lemma CompressIndices_loop_trace l : forall hwm utf8 out,
  0 <= hwm < 65536 ->
  CompressIndices_loop trace_word hwm l utf8 = Done out ->
  exists deltas,
    out = utf8 ++ deltas /\ length deltas = length l /\
    Forall is_uint16 deltas /\ indices_of_deltas hwm deltas = l.
Proof.
  induction l as [|i l IH]; intros hwm utf8 out Hhwm Hrun.
  - injection Hrun as <-. exists []. rewrite app_nil_r. repeat split.
    constructor.
  - cbn [CompressIndices_loop] in Hrun.
    destruct (Z.leb_spec 0 i); [|discriminate].
    destruct (Z.leb_spec i hwm); [|discriminate].
    unfold emit, trace_word in Hrun. cbn in Hrun.
    assert (Hd : to_uint16 (hwm - i) = hwm - i).
    { unfold to_uint16. apply Z.mod_small. lia. }
    rewrite Hd in Hrun.
    apply IH in Hrun as (deltas & -> & Hlen & Hu & Hback).
    + exists ((hwm - i) :: deltas). rewrite <- app_assoc.
      split; [reflexivity|]. split; [simpl; lia|].
      split; [constructor; [unfold is_uint16; lia | exact Hu]|].
      cbn [indices_of_deltas]. f_equal; [lia|].
      rewrite <- Hback. f_equal.
      destruct (Z.eqb_spec i hwm), (Z.eqb_spec (hwm - i) 0); lia || reflexivity.
    + destruct (i =? hwm); [|exact Hhwm].
      unfold to_uint16. apply Z.mod_pos_bound. lia.
Qed.

(** X9. The index compressor loses nothing: the deltas it hands the
    encoder for a list it accepts are one per index, each a 16-bit value,
    and give the list back; two lists with the same deltas are the same
    list. *)
Theorem CompressIndicesToUtf8_lossless (l : list Z) (deltas : list Z) :
  CompressIndicesToUtf8 trace_word l [] = Done deltas ->
  length deltas = length l /\
  Forall is_uint16 deltas /\
  indices_of_deltas 0 deltas = l /\
  forall l', CompressIndicesToUtf8 trace_word l' [] = Done deltas -> l' = l.
Proof.
  intros Hrun.
  destruct (CompressIndices_loop_trace l 0 [] _ ltac:(lia) Hrun)
    as (ds & -> & Hlen & Hu & Hback).
  simpl. split; [exact Hlen|]. split; [exact Hu|]. split; [exact Hback|].
  intros l' Hrun'.
  destruct (CompressIndices_loop_trace l' 0 [] _ ltac:(lia) Hrun')
    as (ds' & Heq & _ & _ & Hback').
  simpl in Heq. subst ds'. congruence.
Qed.

Lemma CompressIndicesToUtf8_lossless_witness :
  CompressIndicesToUtf8 trace_word [0; 1; 2; 0; 2; 3] [] =
    Done [0; 0; 0; 3; 1; 0] /\
  indices_of_deltas 0 [0; 0; 0; 3; 1; 0] = [0; 1; 2; 0; 2; 3].
Proof.
  assert (H : CompressIndicesToUtf8 trace_word [0; 1; 2; 0; 2; 3] [] =
              Done [0; 0; 0; 3; 1; 0]) by reflexivity.
  split; [exact H|].
  exact (proj1 (proj2 (proj2 (CompressIndicesToUtf8_lossless _ _ H)))).
Defined.

(** ** Nothing is lost by the attribute compressor *)

Lemma channel_from_length c count : forall first (attribs : list Z),
  (c < 8)%nat ->
  length (channel_from c first count attribs) =
  (count `min` ((length attribs + 7 - c) / 8 - first))%nat.
Proof.
  induction count as [|count IH]; intros first attribs Hc; [reflexivity|].
  destruct (attribs !! (c + 8 * first)%nat) as [v|] eqn:Hv.
  - rewrite (channel_from_step _ _ _ _ _ Hv). cbn [length]. rewrite IH by exact Hc.
    apply lookup_lt_Some in Hv. div_lia.
  - apply lookup_ge_None_1 in Hv. rewrite channel_from_beyond by lia.
    cbn [length]. div_lia.
Qed.

Lemma channel_length c (attribs : list Z) :
  (c < 8)%nat ->
  length (channel c attribs) = ((length attribs + 7 - c) / 8)%nat.
Proof.
  intros Hc. unfold channel. rewrite channel_from_length by exact Hc. div_lia.
Qed.

Lemma channel_codes_length values : forall previous,
  length (channel_codes previous values) = length values.
Proof.
  induction values as [|v values IH]; intros previous; simpl;
    [|rewrite IH]; reflexivity.
Qed.

Lemma channel_codes_uint16 values : forall previous,
  Forall is_uint16 (channel_codes previous values).
Proof.
  induction values as [|v values IH]; intros previous; simpl; constructor.
  - unfold ZigZag, to_uint16, is_uint16. apply Z.mod_pos_bound. lia.
  - apply IH.
Qed.

Lemma attrib_codes_channels (attribs : list Z) :
  attrib_codes attribs =
  channel_codes 0 (channel 0 attribs) ++ channel_codes 0 (channel 1 attribs) ++
  channel_codes 0 (channel 2 attribs) ++ channel_codes 0 (channel 3 attribs) ++
  channel_codes 0 (channel 4 attribs) ++ channel_codes 0 (channel 5 attribs) ++
  channel_codes 0 (channel 6 attribs) ++ channel_codes 0 (channel 7 attribs).
Proof. unfold attrib_codes. simpl. rewrite app_nil_r. reflexivity. Qed.

Lemma attrib_codes_length (attribs : list Z) :
  length (attrib_codes attribs) = length attribs.
Proof.
  rewrite attrib_codes_channels, !length_app, !channel_codes_length.
  rewrite !channel_length by lia. div_lia.
Qed.

Lemma emit_all_trace_word words : forall utf8,
  Forall is_uint16 words -> emit_all trace_word words utf8 = Done (utf8 ++ words).
Proof.
  induction words as [|w words IH]; intros utf8 Hw; simpl.
  - rewrite app_nil_r. reflexivity.
  - apply list.Forall_cons in Hw as [Hw Hws].
    unfold emit, trace_word. cbn.
    replace (to_uint16 w) with w
      by (unfold to_uint16, is_uint16 in *; rewrite Z.mod_small; lia).
    rewrite IH by exact Hws. rewrite <- app_assoc. reflexivity.
Qed.

Lemma CompressQuantizedAttribsToUtf8_trace (attribs : list Z) :
  CompressQuantizedAttribsToUtf8 trace_word attribs [] =
  Done (attrib_codes attribs).
Proof.
  unfold CompressQuantizedAttribsToUtf8. rewrite channels_loop_codes.
  apply (emit_all_trace_word _ []).
  unfold attrib_codes. apply Forall_bind, Forall_forall.
  intros c _. apply channel_codes_uint16.
Qed.

(** X10. Whatever the length of the buffer, whole records or not, the
    attribute compressor reads every value once: it hands the encoder as
    many words as the buffer has values, each a 16-bit code, and it stops
    only when the encoder refuses a word. *)
Theorem CompressQuantizedAttribsToUtf8_one_word_per_value (attribs : list Z) :
  length (attrib_codes attribs) = length attribs /\
  Forall is_uint16 (attrib_codes attribs) /\
  CompressQuantizedAttribsToUtf8 trace_word attribs [] =
    Done (attrib_codes attribs) /\
  (forall n, CompressQuantizedAttribsToUtf8 count_word attribs n =
             Done (n + N.of_nat (length attribs))%N) /\
  (forall (buffer : Type) (Uint16ToUtf8 : Z -> buffer -> bool * buffer) utf8 e,
     CompressQuantizedAttribsToUtf8 Uint16ToUtf8 attribs utf8 = Abort e ->
     e = check_failed).
Proof.
  assert (Hu : Forall is_uint16 (attrib_codes attribs)).
  { unfold attrib_codes. apply Forall_bind, Forall_forall.
    intros c _. apply channel_codes_uint16. }
  split; [apply attrib_codes_length|]. split; [exact Hu|].
  split; [apply CompressQuantizedAttribsToUtf8_trace|].
  unfold CompressQuantizedAttribsToUtf8. split.
  - intros n. rewrite channels_loop_codes, emit_all_count_word.
    fold (attrib_codes attribs). rewrite attrib_codes_length. reflexivity.
  - intros buffer Uint16ToUtf8 utf8 e. rewrite channels_loop_codes.
    apply emit_all_check_failed.
Qed.

Lemma to_int16_range x : is_int16 (to_int16 x).
Proof.
  unfold to_int16, is_int16.
  pose proof (Z.mod_pos_bound (x + 32768) 65536). lia.
Qed.

Lemma channel_codes_inj values1 : forall values2 previous,
  Forall is_uint16 values1 -> Forall is_uint16 values2 ->
  channel_codes previous values1 = channel_codes previous values2 ->
  values1 = values2.
Proof.
  induction values1 as [|v1 values1 IH]; intros [|v2 values2] previous H1 H2 Heq;
    try discriminate; [reflexivity|].
  apply list.Forall_cons in H1 as [Hv1 H1].
  apply list.Forall_cons in H2 as [Hv2 H2].
  simpl in Heq. injection Heq as Hz Heq.
  apply (f_equal UnZigZag) in Hz.
  rewrite !UnZigZag_ZigZag in Hz by apply to_int16_range.
  assert (v1 = v2) as <-.
  { unfold to_int16, to_uint16, is_uint16 in *.
    rewrite (Z.mod_small v1), (Z.mod_small v2) in Hz by lia.
    revert Hz. div_lia. }
  f_equal. exact (IH _ _ H1 H2 Heq).
Qed.

Lemma channel_uint16 c (attribs : list Z) :
  Forall is_uint16 attribs -> Forall is_uint16 (channel c attribs).
Proof.
  intros Hu. apply Forall_lookup. intros vertex v Hv.
  rewrite channel_lookup in Hv.
  exact (proj1 (Forall_lookup _ _) Hu _ _ Hv).
Qed.

(** X11. The attribute compressor loses nothing: two buffers of 16-bit
    values for which it hands the encoder the same words are the same
    buffer. *)
Theorem CompressQuantizedAttribsToUtf8_lossless (attribs1 attribs2 : list Z) :
  Forall is_uint16 attribs1 -> Forall is_uint16 attribs2 ->
  CompressQuantizedAttribsToUtf8 trace_word attribs1 [] =
  CompressQuantizedAttribsToUtf8 trace_word attribs2 [] ->
  attribs1 = attribs2.
Proof.
  intros H1 H2 Heq.
  rewrite !CompressQuantizedAttribsToUtf8_trace in Heq. injection Heq as Heq.
  assert (Hlen : length attribs1 = length attribs2).
  { rewrite <- (attrib_codes_length attribs1), Heq. apply attrib_codes_length. }
  assert (Hch : forall c, (c < 8)%nat -> channel c attribs1 = channel c attribs2).
  { rewrite !attrib_codes_channels in Heq.
    assert (Hcl : forall c, (c < 8)%nat ->
              length (channel_codes 0 (channel c attribs1)) =
              length (channel_codes 0 (channel c attribs2))).
    { intros c Hc. rewrite !channel_codes_length, !channel_length, Hlen by exact Hc.
      reflexivity. }
    assert (Hinj : forall c,
              channel_codes 0 (channel c attribs1) =
              channel_codes 0 (channel c attribs2) ->
              channel c attribs1 = channel c attribs2).
    { intros c. apply channel_codes_inj; apply channel_uint16; assumption. }
    apply app_inj_1 in Heq as [E0 Heq]; [|apply Hcl; lia].
    apply app_inj_1 in Heq as [E1 Heq]; [|apply Hcl; lia].
    apply app_inj_1 in Heq as [E2 Heq]; [|apply Hcl; lia].
    apply app_inj_1 in Heq as [E3 Heq]; [|apply Hcl; lia].
    apply app_inj_1 in Heq as [E4 Heq]; [|apply Hcl; lia].
    apply app_inj_1 in Heq as [E5 Heq]; [|apply Hcl; lia].
    apply app_inj_1 in Heq as [E6 E7]; [|apply Hcl; lia].
    intros c Hc.
    do 8 (destruct c as [|c]; [apply Hinj; assumption|]). lia. }
  apply list_eq. intros k.
  replace k with (8 * (k / 8) + k mod 8)%nat by div_lia.
  rewrite <- !channel_lookup, Hch by div_lia. reflexivity.
Qed.

Lemma CompressQuantizedAttribsToUtf8_one_word_per_value_witness :
  exists e,
    CompressQuantizedAttribsToUtf8 (Uint16ToUtf8_bytes utf8_bytes) [27648] [] =
      Abort e /\
    e = check_failed.
Proof.
  exists check_failed.
  assert (H : CompressQuantizedAttribsToUtf8 (Uint16ToUtf8_bytes utf8_bytes)
                [27648] [] = Abort check_failed) by reflexivity.
  split; [exact H|].
  exact (proj2 (proj2 (proj2 (proj2
           (CompressQuantizedAttribsToUtf8_one_word_per_value [27648]))))
           _ _ _ _ H).
Defined.

Lemma CompressQuantizedAttribsToUtf8_lossless_witness :
  Forall is_uint16 two_vertices /\
  Forall is_uint16 (take 16 (two_vertices ++ [7])) /\
  two_vertices = take 16 (two_vertices ++ [7]).
Proof.
  assert (H1 : Forall is_uint16 two_vertices)
    by (repeat constructor; unfold is_uint16; lia).
  assert (H2 : Forall is_uint16 (take 16 (two_vertices ++ [7])))
    by (repeat constructor; unfold is_uint16; lia).
  split; [exact H1|]. split; [exact H2|].
  apply (CompressQuantizedAttribsToUtf8_lossless _ _ H1 H2). reflexivity.
Defined.

(** ** What a call of the flattener changes *)

Lemma map_insert_subseteq (key : Z * Z * Z) (value : Z)
    (m : gmap (Z * Z * Z) Z) :
  m ⊆ map_insert key value m.
Proof.
  unfold map_insert. destruct (m !! key) eqn:Hk; [reflexivity|].
  apply insert_subseteq, Hk.
Qed.

(** X12. A call of the flattener either finds the triple, and then leaves
    the flattener exactly as it was, or takes it for new, and then returns
    the count and adds one to it; it never shortens the table and never
    removes or changes an entry of the map. *)
Theorem GetFlattenedIndex_known_or_new p t n f flat is_new f' :
  GetFlattenedIndex p t n f = Done (flat, is_new, f') ->
  (if is_new then flat = count f /\ count f' = count f + 1 else f' = f) /\
  (length (table_ f) <= length (table_ f'))%nat /\
  map_ f ⊆ map_ f'.
Proof.
  unfold GetFlattenedIndex, count.
  destruct (Z.ltb_spec p 0) as [|Hp]; [discriminate|].
  destruct (Z.leb_spec (Z.of_nat (length (table_ f))) p) as [Hgrow|Hfit].
  - rewrite lookup_resize_new by lia. cbn.
    intros [= <- <- <-]. cbn. rewrite length_insert, length_resize.
    split; [auto|]. split; [lia | reflexivity].
  - destruct (table_ f !! Z.to_nat p) as [index|]; [|discriminate].
    destruct (position_or_flat index =? kIndexUnknown).
    { intros [= <- <- <-]. cbn. rewrite length_insert. auto. }
    destruct (position_or_flat index =? kIndexNotInTable).
    { unfold GetFlattenedIndexFromMap. cbn.
      destruct (map_ f !! (p, t, n)) eqn:Hm; intros [= <- <- <-]; cbn.
      - destruct f; auto.
      - split; [auto|]. split; [lia | apply insert_subseteq, Hm]. }
    destruct ((texcoord index =? t) && (normal index =? n)).
    { intros [= <- <- <-]. destruct f; auto. }
    intros [= <- <- <-]. cbn. rewrite length_insert.
    split; [auto|]. split; [lia|].
    etrans; apply map_insert_subseteq.
Qed.

Lemma GetFlattenedIndex_known_or_new_witness :
  GetFlattenedIndex 0 5 6 (IndexFlattener_new 4) =
  Done (0, true,
        {| count_ := 1;
           table_ := {| position_or_flat := 0; texcoord := 5; normal := 6 |}
                     :: replicate 3 IndexType_default;
           map_ := ∅ |}) /\
  (length (table_ (IndexFlattener_new 4)) <= 4)%nat.
Proof.
  assert (H : GetFlattenedIndex 0 5 6 (IndexFlattener_new 4) =
              Done (0, true,
                    {| count_ := 1;
                       table_ := {| position_or_flat := 0; texcoord := 5;
                                    normal := 6 |}
                                 :: replicate 3 IndexType_default;
                       map_ := ∅ |})) by reflexivity.
  split; [exact H|].
  exact (proj1 (proj2 (GetFlattenedIndex_known_or_new _ _ _ _ _ _ _ H))).
Defined.

(** ** From the batch to the file *)

Lemma emit_all_total (encode_varint : Z -> option (list Byte.byte)) words :
  (forall w, is_uint16 w -> is_Some (encode_varint w)) ->
  forall utf8, exists utf8',
    emit_all (Uint16ToUtf8_bytes encode_varint) words utf8 = Done utf8'.
Proof.
  intros Htotal. induction words as [|w words IH]; intros utf8; simpl; [eauto|].
  destruct (Htotal (to_uint16 w)) as [bytes Hb].
  { unfold is_uint16, to_uint16. apply Z.mod_pos_bound. lia. }
  unfold emit, Uint16ToUtf8_bytes. rewrite Hb. cbn. apply IH.
Qed.

(** X13. A mesh built by a fresh batch, with at least one vertex and
    fewer than 65536, goes through the rest of the pipeline without a
    stop when the encoder has a code for every 16-bit word and the output
    file can be opened: the quantizing pass gives a buffer of the same
    length, and the assembler passes all its checks and writes the file,
    changing no other.  When the file cannot be opened, the assembler
    still passes all its checks, and stops at the write with no file
    changed. *)
Theorem batch_to_file (Quantize : float -> float -> float -> Z -> Z)
    (encode_varint : Z -> option (list Byte.byte))
    (can_open : string -> bool) calls b' bounds_params quantized_attribs fn
    fs :
  (forall w, is_uint16 w -> is_Some (encode_varint w)) ->
  AddTriangle_calls calls DrawBatch_new = Done b' ->
  0 < count (flattener_ b') < 65536 ->
  exists quantized utf8,
    AttribsToQuantizedAttribs Quantize (attribs (draw_mesh_ b')) bounds_params
      quantized_attribs = Done quantized /\
    length quantized = length (attribs (draw_mesh_ b')) /\
    (can_open fn = true ->
     CompressSimpleMeshToFile encode_varint can_open quantized
       (indices (draw_mesh_ b')) fn fs = (Done tt, <[fn := utf8]> fs)) /\
    (can_open fn = false ->
     CompressSimpleMeshToFile encode_varint can_open quantized
       (indices (draw_mesh_ b')) fn fs = (Abort undefined_access, fs)).
Proof.
  intros Htotal Hrun Hcount.
  pose proof (AddTriangle_calls_indices _ _ _ _ batch_inv_new Hrun) as Hind.
  simpl in Hind.
  destruct (AddTriangle_calls_Done _ _ _ _ batch_inv_new Hrun)
    as [(Hinv & Hlen & Hidx) _].
  unfold count in Hcount. rewrite (inv_count _ _ _ _ Hinv) in Hcount.
  set (seen := distinct_from [] (calls_triples calls)) in *.
  rewrite AttribsToQuantizedAttribs_cases.
  rewrite decide_True by (rewrite Hlen; div_lia).
  assert (Hql : length (imap (quantized_at Quantize bounds_params)
                          (attribs (draw_mesh_ b'))) =
                length (attribs (draw_mesh_ b'))) by apply length_imap.
  set (quantized := imap _ _) in *. exists quantized.
  assert (Hstream : exists utf8,
            stream_of encode_varint quantized (indices (draw_mesh_ b')) =
            Done utf8).
  { unfold stream_of. rewrite Hql, Hlen.
    rewrite land_7_mod_8, bool_decide_eq_true_2 by div_lia.
    replace (Z.of_nat (8 * length seen) / 8) with (Z.of_nat (length seen))
      by div_lia.
    destruct (Z.ltb_spec 0 (Z.of_nat (length seen))); [|lia].
    destruct (Z.ltb_spec (Z.of_nat (length seen)) 65536); [|lia].
    cbn [CHECK mbind outcome_bind].
    destruct (emit_all_total encode_varint [Z.of_nat (length seen) - 1]
                Htotal []) as [u1 H1].
    simpl in H1.
    destruct (emit _ _ []) as [u1'|]; [|discriminate].
    cbn [mbind outcome_bind].
    unfold CompressQuantizedAttribsToUtf8. rewrite channels_loop_codes.
    destruct (emit_all_total encode_varint
                (c ← seq 0 8; channel_codes 0 (channel c quantized))
                Htotal u1') as [u2 ->].
    cbn [mbind outcome_bind]. unfold CompressIndicesToUtf8.
    rewrite CompressIndices_loop_hwm_deltas;
      [|lia
       |eapply list.Forall_impl; [exact Hidx|]; intros i Hi; simpl in Hi;
        fold seen in Hi; lia].
    destruct (hwm_deltas_flat_results (calls_triples calls) [] NoDup_nil_2)
      as (deltas & Hd & _).
    change (Z.of_nat (length [])) with 0 in Hd. rewrite Hind, Hd.
    apply emit_all_total, Htotal. }
  destruct Hstream as [utf8 Hstream]. exists utf8.
  split; [reflexivity|]. split; [exact Hql|].
  rewrite CompressSimpleMeshToFile_stream_of, Hstream.
  split; intros ->; reflexivity.
Qed.

Lemma batch_to_file_witness :
  exists b' quantized utf8,
    AddTriangle_calls quad_calls DrawBatch_new = Done b' /\
    AttribsToQuantizedAttribs (fun f offset range bits => to_uint16 (f + bits))
      (attribs (draw_mesh_ b'))
      (FromBounds binary32_sub no_params sample_bounds) [] = Done quantized /\
    CompressSimpleMeshToFile
      (fun w => Some [byte_of_Z (w / 256); byte_of_Z (w mod 256)])
      (fun _ => true) quantized (indices (draw_mesh_ b')) "quad.utf8" ∅ =
    (Done tt, {["quad.utf8" := utf8]}).
Proof.
  destruct (AddTriangle_calls quad_calls DrawBatch_new) as [b'|e] eqn:Hrun;
    [|vm_compute in Hrun; discriminate].
  assert (Hcount : 0 < count (flattener_ b') < 65536).
  { vm_compute in Hrun. injection Hrun as <-. vm_compute. auto. }
  assert (Htotal : forall w, is_uint16 w ->
            is_Some ((fun w => Some [byte_of_Z (w / 256); byte_of_Z (w mod 256)])
                       w)) by (intros w _; eexists; reflexivity).
  destruct (batch_to_file (fun f offset range bits => to_uint16 (f + bits))
              _ (fun _ => true) quad_calls b'
              (FromBounds binary32_sub no_params sample_bounds) []
              "quad.utf8" ∅ Htotal Hrun Hcount)
    as (quantized & utf8 & Hq & _ & Hfile & _).
  exists b', quantized, utf8. split; [reflexivity|]. split; [exact Hq|].
  rewrite Hfile by reflexivity. rewrite insert_empty. reflexivity.
Defined.

(** ** Facts about the short float list *)

Section ShortFloatsFacts.

Variable strtof : list ascii -> float * nat.

Lemma ParseLine_loop_cells todo : forall line l,
  let l' := ParseLine_loop strtof todo line l in
  (size_ l <= size_ l' <= size_ l + todo)%nat /\
  (forall i, (i < size_ l' - size_ l)%nat ->
     (strtof ((rest_at strtof) i line)).2 <> 0%nat) /\
  ((size_ l' < size_ l + todo)%nat ->
   (strtof ((rest_at strtof) (size_ l' - size_ l) line)).2 = 0%nat) /\
  (forall i, a_ l' i =
     if decide (size_ l <= i <= size_ l' /\ i < size_ l + todo)%nat
     then (strtof ((rest_at strtof) (i - size_ l) line)).1 else a_ l i).
Proof.
  induction todo as [|todo IH]; intros line l; cbn [ParseLine_loop].
  - cbv zeta. split; [lia|]. split; [intros i Hi; lia|]. split; [lia|].
    intros i. rewrite decide_False by lia. reflexivity.
  - destruct (Nat.eqb_spec (strtof line).2 0) as [Hz|Hnz]; cbv zeta.
    + cbn [size_ a_]. split; [lia|]. split; [intros i Hi; lia|].
      split; [intros _; rewrite Nat.sub_diag; exact Hz|].
      intros i. destruct (decide (i = size_ l)) as [->|Hne].
      * rewrite decide_True by lia. rewrite Nat.sub_diag.
        apply fn_lookup_insert.
      * rewrite decide_False by lia. apply fn_lookup_insert_ne. congruence.
    + specialize (IH (drop (strtof line).2 line)
                    {| a_ := <[size_ l := (strtof line).1]> (a_ l);
                       size_ := S (size_ l) |}).
      cbv zeta in IH. cbn [size_ a_] in IH.
      set (l' := ParseLine_loop strtof todo _ _) in *.
      destruct IH as (Hsize & Hgood & Hbad & Hcells).
      split; [lia|]. split; [|split].
      * intros [|i] Hi; [exact Hnz|]. cbn [rest_at]. apply Hgood. lia.
      * intros Hlt.
        replace (size_ l' - size_ l)%nat with (S (size_ l' - S (size_ l)))
          by lia.
        cbn [rest_at]. apply Hbad. lia.
      * intros i. rewrite Hcells.
        destruct (decide (i = size_ l)) as [->|Hne].
        -- rewrite decide_False, decide_True by lia.
           rewrite Nat.sub_diag. apply fn_lookup_insert.
        -- destruct (decide (S (size_ l) <= i <= size_ l' /\
                             i < S (size_ l) + todo)%nat).
           ++ rewrite decide_True by lia.
              replace (i - size_ l)%nat with (S (i - S (size_ l))) by lia.
              reflexivity.
           ++ rewrite decide_False by lia.
              apply fn_lookup_insert_ne. congruence.
Qed.

(** X14. [ParseLine] returns the number of leading conversions that read
    something, 6 at most; the cells below that number hold the values
    converted, in order; when it stopped before 6, the next cell holds
    what the conversion that read nothing returned; the cells behind keep
    what they held before the call. *)
Theorem ParseLine_conversions (line : list ascii) (l : ShortFloatList) :
  let n := (ParseLine strtof line l).1 in
  let l' := (ParseLine strtof line l).2 in
  n = size l' /\ (n <= 6)%nat /\
  (forall i, (i < n)%nat ->
     (strtof ((rest_at strtof) i line)).2 <> 0%nat /\
     a_ l' i = (strtof ((rest_at strtof) i line)).1) /\
  ((n < 6)%nat ->
   (strtof ((rest_at strtof) n line)).2 = 0%nat /\
   a_ l' n = (strtof ((rest_at strtof) n line)).1) /\
  (forall i, (n < i)%nat -> a_ l' i = a_ l i).
Proof.
  unfold ParseLine, size. cbn [fst snd].
  pose proof (ParseLine_loop_cells kMaxNumFloats line
                {| a_ := a_ l; size_ := 0 |}) as H.
  cbv zeta in H. cbn [size_ a_] in H. unfold kMaxNumFloats in *.
  set (l' := ParseLine_loop strtof 6 line _) in *.
  destruct H as (Hsize & Hgood & Hbad & Hcells).
  rewrite Nat.sub_0_r in *.
  split; [reflexivity|]. split; [lia|]. split; [|split].
  - intros i Hi. split; [apply Hgood, Hi|].
    rewrite Hcells, decide_True by lia. rewrite Nat.sub_0_r. reflexivity.
  - intros Hn. split; [apply Hbad; lia|].
    rewrite Hcells, decide_True by lia. rewrite Nat.sub_0_r. reflexivity.
  - intros i Hi. rewrite Hcells, decide_False by lia. reflexivity.
Qed.

End ShortFloatsFacts.

Lemma ShortFloatList_new_cells garbage i :
  a_ (ShortFloatList_new garbage) i =
  if decide (i < 6)%nat then float_zero else garbage i.
Proof.
  unfold ShortFloatList_new, clear, kMaxNumFloats. cbn.
  do 6 (destruct i as [|i]; [reflexivity|]).
  rewrite decide_False by lia. reflexivity.
Qed.

(** ** Facts about attribute lines *)

Lemma ParseLine_loop_same strtof todo : forall line l1 l2,
  same_floats l1 l2 ->
  same_floats (ParseLine_loop strtof todo line l1)
    (ParseLine_loop strtof todo line l2).
Proof.
  induction todo as [|todo IH]; intros line l1 l2 [Hsize Hcells];
    cbn [ParseLine_loop]; [split; assumption|].
  assert (Hins : forall i, (i < 6)%nat ->
            <[size_ l1 := (strtof line).1]> (a_ l1) i =
            <[size_ l2 := (strtof line).1]> (a_ l2) i).
  { intros i Hi. rewrite Hsize.
    destruct (decide (i = size_ l2)) as [->|Hne].
    - rewrite !fn_lookup_insert. reflexivity.
    - rewrite !fn_lookup_insert_ne by congruence. apply Hcells, Hi. }
  destruct ((strtof line).2 =? 0)%nat.
  - split; [exact Hsize | exact Hins].
  - apply IH. split; [cbn; congruence | exact Hins].
Qed.

Lemma AppendNTo_same l1 l2 attribs sz :
  same_floats l1 l2 -> AppendNTo l1 attribs sz = AppendNTo l2 attribs sz.
Proof.
  intros [_ Hcells]. unfold AppendNTo, kMaxNumFloats.
  destruct (decide (sz <= 6)%nat); [|reflexivity].
  do 2 f_equal. apply list_fmap_ext. intros k i Hi.
  apply lookup_seq in Hi as [-> Hi]. apply Hcells. lia.
Qed.

Lemma AppendNTo_Done l attribs sz :
  (sz <= 6)%nat -> AppendNTo l attribs sz = Done (attribs ++ (a_ l <$> seq 0 sz)).
Proof.
  intros Hsz. unfold AppendNTo, kMaxNumFloats.
  rewrite decide_True by exact Hsz. reflexivity.
Qed.

Ltac not_stopped Hgo :=
  let e := fresh "e" in
  intros e; split; [discriminate | intros H; destruct (Hgo e H)].

Section AttributesFacts.

Variable strtof : list ascii -> float * nat.

Lemma ParseLine_size_le line l :
  (size_ (ParseLine strtof line l).2 <= 6)%nat.
Proof.
  unfold ParseLine. cbn [snd].
  pose proof (ParseLine_loop_cells strtof kMaxNumFloats line
                {| a_ := a_ l; size_ := 0 |}) as [Hsize _].
  unfold kMaxNumFloats in *. cbn [size_] in Hsize. lia.
Qed.

Lemma c_string_None bytes : c_string bytes = None <-> Ascii.zero ∉ bytes.
Proof.
  induction bytes as [|c rest IH]; cbn [c_string].
  - split; [intros _; apply not_elem_of_nil | reflexivity].
  - rewrite not_elem_of_cons.
    destruct (Ascii.eqb_spec c Ascii.zero) as [->|Hc].
    + split; [discriminate | intros [[] _]; reflexivity].
    + rewrite fmap_None, IH. split; [intros H | intros [_ H]]; auto.
Qed.

(** X15. An attribute line either is accepted and appends one vector to
    one of the three buffers -- the first 3 floats of a position line
    of 3 or 6 floats, the first 2 floats of a texcoord line of 1 to 3
    floats, the 3 floats of a normal line -- or leaves with an error, or
    gives a warning and changes nothing, or is stopped by an access out
    of range.  It is stopped in one case only: nothing follows the [v],
    and the line buffer holds no terminator behind that of the line, so
    that the floats, which are read from the second character on before
    the first is looked at, are read from behind the buffer.  What the
    array of the float list held before its constructor ran never reaches
    a buffer. *)
Theorem ParseAttrib_appends (garbage : nat -> float) (line behind : list ascii)
    (line_num : Z) (src : Sources) :
  let r := ParseAttrib strtof garbage line behind line_num src in
  (forall e, r = Stopped e <->
     e = undefined_access /\ line = [] /\ Ascii.zero ∉ behind) /\
  (forall why n src', r = Warned why n src' -> src' = src) /\
  (forall src', r = Parsed src' ->
     exists c rest,
       line = c :: rest /\
       let floats := (ParseLine strtof rest (ShortFloatList_new garbage)).2 in
       (isspace c = true /\ (size floats = 3 \/ size floats = 6)%nat /\
        src' = {| positions_ := positions_ src ++
                    [a_ floats 0%nat; a_ floats 1%nat; a_ floats 2%nat];
                  texcoords_ := texcoords_ src;
                  normals_ := normals_ src |}) \/
       (isspace c = false /\ c = "t"%char /\ (1 <= size floats <= 3)%nat /\
        src' = {| positions_ := positions_ src;
                  texcoords_ := texcoords_ src ++
                    [a_ floats 0%nat; a_ floats 1%nat];
                  normals_ := normals_ src |}) \/
       (isspace c = false /\ c = "n"%char /\ size floats = 3%nat /\
        src' = {| positions_ := positions_ src;
                  texcoords_ := texcoords_ src;
                  normals_ := normals_ src ++
                    [a_ floats 0%nat; a_ floats 1%nat; a_ floats 2%nat] |})) /\
  (forall garbage', ParseAttrib strtof garbage' line behind line_num src = r).
Proof.
  cbv zeta. unfold ParseAttrib. destruct line as [|c rest].
  { cbn [string_behind first_char].
    destruct (c_string behind) as [rest|] eqn:Hb.
    - change (isspace Ascii.zero) with false.
      change (Ascii.eqb Ascii.zero "t") with false.
      change (Ascii.eqb Ascii.zero "n") with false. cbv iota.
      split.
      { intros e. split; [discriminate|]. intros (_ & _ & Hz).
        apply c_string_None in Hz. congruence. }
      split; [intros why n src' [= _ _ <-]; reflexivity|].
      split; [discriminate | reflexivity].
    - apply c_string_None in Hb. split.
      { intros e. split; [intros [= <-]; auto | intros (-> & _); reflexivity]. }
      split; [discriminate|]. split; [discriminate | reflexivity]. }
  cbn [string_behind first_char].
  assert (Hgo : forall e : abort,
            ~ (e = undefined_access /\ c :: rest = [] /\ Ascii.zero ∉ behind))
    by (intros e (_ & [=] & _)).
  pose proof (ParseLine_size_le rest (ShortFloatList_new garbage)) as Hle.
  set (floats := (ParseLine strtof rest (ShortFloatList_new garbage)).2) in *.
  assert (Hsame : forall garbage',
            same_floats
              (ParseLine strtof rest (ShortFloatList_new garbage')).2 floats).
  { intros garbage'. unfold floats, ParseLine. cbn [snd].
    apply ParseLine_loop_same. split; [reflexivity|]. cbn [a_].
    intros i Hi. rewrite !ShortFloatList_new_cells, !decide_True by exact Hi.
    reflexivity. }
  assert (Hpos : forall l, same_floats l floats ->
            ParsePosition l line_num src = ParsePosition floats line_num src).
  { intros l Hl. unfold ParsePosition, size.
    rewrite (proj1 Hl), (AppendNTo_same _ _ _ _ Hl). reflexivity. }
  assert (Htex : forall l, same_floats l floats ->
            ParseTexCoord l line_num src = ParseTexCoord floats line_num src).
  { intros l Hl. unfold ParseTexCoord, size.
    rewrite (proj1 Hl), (AppendNTo_same _ _ _ _ Hl). reflexivity. }
  assert (Hnor : forall l, same_floats l floats ->
            ParseNormal l line_num src = ParseNormal floats line_num src).
  { intros l Hl. unfold ParseNormal, AppendTo, size.
    rewrite (proj1 Hl), (AppendNTo_same _ _ _ _ Hl). reflexivity. }
  destruct (isspace c) eqn:Hspace; [|destruct (Ascii.eqb_spec c "t") as [->|Ht];
    [|destruct (Ascii.eqb_spec c "n") as [->|Hn]]].
  - refine ((fun X => conj (proj1 X) (conj (proj1 (proj2 X))
              (conj (proj2 (proj2 X)) (fun g => Hpos _ (Hsame g))))) _).
    clear Hpos Htex Hnor Hsame. unfold ParsePosition, size.
    change (Z.to_nat positionDim) with 3%nat.
    rewrite AppendNTo_Done by lia.
    destruct (negb (Z.of_nat (size_ floats) =? positionDim)
              && negb (Z.of_nat (size_ floats) =? 6)) eqn:Hbad.
    + split; [not_stopped Hgo|]. split; discriminate.
    + split; [not_stopped Hgo|]. split; [discriminate|].
      intros src' [= <-]. exists c, rest. fold floats. split; [reflexivity|]. left.
      split; [exact Hspace|]. split; [|reflexivity].
      apply andb_false_iff in Hbad as [Hb|Hb];
        apply negb_false_iff, Z.eqb_eq in Hb;
        unfold positionDim, size in *; lia.
  - refine ((fun X => conj (proj1 X) (conj (proj1 (proj2 X))
              (conj (proj2 (proj2 X)) (fun g => Htex _ (Hsame g))))) _).
    clear Hpos Htex Hnor Hsame. unfold ParseTexCoord, size.
    change (Z.to_nat texcoordDim) with 2%nat.
    rewrite AppendNTo_Done by lia.
    destruct ((size_ floats <? 1)%nat || (3 <? size_ floats)%nat) eqn:Hbad.
    + split; [not_stopped Hgo|]. split; discriminate.
    + split; [not_stopped Hgo|]. split; [discriminate|].
      intros src' [= <-]. exists "t"%char, rest. fold floats. split; [reflexivity|].
      right. left. split; [reflexivity|]. split; [reflexivity|].
      split; [|reflexivity].
      apply orb_false_iff in Hbad as [H1 H3].
      apply Nat.ltb_ge in H1, H3. unfold size. lia.
  - refine ((fun X => conj (proj1 X) (conj (proj1 (proj2 X))
              (conj (proj2 (proj2 X)) (fun g => Hnor _ (Hsame g))))) _).
    clear Hpos Htex Hnor Hsame. unfold ParseNormal, AppendTo, size.
    rewrite AppendNTo_Done by lia.
    destruct (negb (Z.of_nat (size_ floats) =? normalDim)) eqn:Hbad.
    + split; [not_stopped Hgo|]. split; discriminate.
    + split; [not_stopped Hgo|]. split; [discriminate|].
      apply negb_false_iff, Z.eqb_eq in Hbad. unfold normalDim in Hbad.
      assert (Hsz : size_ floats = 3%nat) by lia.
      intros src' [= <-]. exists "n"%char, rest. fold floats. split; [reflexivity|].
      right. right. split; [reflexivity|]. split; [reflexivity|].
      split; [exact Hsz|]. rewrite Hsz. reflexivity.
  - split; [not_stopped Hgo|].
    split; [intros why n src' [= _ _ <-]; reflexivity|].
    split; [discriminate | reflexivity].
Qed.

End AttributesFacts.

(** ** Facts about face lines *)

Section FacesFacts.

Variable strtoint : list ascii -> Z * option (list ascii).

(** What the three [int]s held before does not matter to a call that
    does not return [NULL]. *)
Lemma ParseIndices_held line held held' :
  (ParseIndices strtoint line held).2 = (ParseIndices strtoint line held').2 /\
  ((ParseIndices strtoint line held).2 <> None ->
   (ParseIndices strtoint line held).1 = (ParseIndices strtoint line held').1).
Proof.
  unfold ParseIndices.
  destruct ((strtoint line).1 =? 0); [split; [reflexivity | intros []; reflexivity]|].
  destruct (after_slash (strtoint line).2) as [rest|] eqn:H1.
  - destruct (after_slash (strtoint rest).2); split; reflexivity.
  - rewrite H1. split; reflexivity.
Qed.

Lemma ParseFace_loop_fan rounds : forall line indices src current others,
  length indices = 9%nat ->
  (index_groups strtoint) rounds line = Some others ->
  ParseFace_loop strtoint rounds line indices src current =
  Some (appended
          (AddTriangle_calls
             ((fun raw => (src, raw)) <$>
              triangle_fan
                (indices !!! 0%nat, indices !!! 1%nat, indices !!! 2%nat)
                (indices !!! 3%nat, indices !!! 4%nat, indices !!! 5%nat)
                others)
             current)).
Proof.
  induction rounds as [|rounds IH]; intros line indices src current others
    Hlen Hgroups; [discriminate|].
  destruct indices as [|i0 [|i1 [|i2 [|i3 [|i4 [|i5 [|i6 [|i7 [|i8 [|]]]]]]]]]];
    try discriminate.
  clear Hlen. cbn [index_groups] in Hgroups. cbv zeta in Hgroups.
  cbn [ParseFace_loop]. cbv zeta.
  cbn [lookup_total list_lookup_total].
  destruct (ParseIndices_held line (i6, i7, i8) (0, 0, 0)) as [Hptr Hval].
  destruct (ParseIndices strtoint line (0, 0, 0)) as [g next] eqn:Hp0.
  destruct (ParseIndices strtoint line (i6, i7, i8)) as [g' next'] eqn:Hp.
  cbn [fst snd] in *. subst next'.
  destruct next as [line'|].
  - rewrite (Hval ltac:(discriminate)). clear Hval.
    destruct ((index_groups strtoint) rounds line') as [others'|] eqn:Hrest;
      [|discriminate].
    injection Hgroups as <-.
    cbn [triangle_fan fmap list_fmap AddTriangle_calls].
    cbn [insert list_insert].
    change (triangle (i0, i1, i2) (i3, i4, i5) g)
      with [i0; i1; i2; i3; i4; i5; g.1.1; g.1.2; g.2].
    destruct (AddTriangle src _ current) as [current'|e];
      cbn [mbind outcome_bind appended]; [|reflexivity].
    erewrite IH; [|reflexivity | exact Hrest].
    cbn [lookup_total list_lookup_total]. destruct g as [[g0 g1] g2].
    reflexivity.
  - injection Hgroups as <-. reflexivity.
Qed.

Lemma ParseFace_groups rounds line line_num src current groups :
  (index_groups strtoint) (S (S rounds)) (after_o line) = Some groups ->
  ParseFace strtoint rounds line line_num src current =
  Some match groups with
       | [] => Exited "bad first index" line_num
       | [_] => Exited "bad second index" line_num
       | pivot :: second :: others =>
           appended
             (AddTriangle_calls
                ((fun raw => (src, raw)) <$> triangle_fan pivot second others)
                current)
       end.
Proof.
  intros Hgroups.
  unfold ParseFace. fold (after_o line). cbv zeta.
  cbn [index_groups] in Hgroups. cbv zeta in Hgroups.
  change (replicate 9 0 !!! 0%nat, replicate 9 0 !!! 1%nat,
          replicate 9 0 !!! 2%nat) with (0, 0, 0).
  destruct (ParseIndices strtoint (after_o line) (0, 0, 0)).2
    as [line1|] eqn:H1.
  - set (g1 := (ParseIndices strtoint (after_o line) (0, 0, 0)).1) in *.
    cbn [replicate insert list_insert lookup_total list_lookup_total].
    destruct (ParseIndices strtoint line1 (0, 0, 0)).2 as [line2|] eqn:H2.
    + set (g2 := (ParseIndices strtoint line1 (0, 0, 0)).1) in *.
      destruct ((index_groups strtoint) rounds line2) as [others|] eqn:Hrest;
        [|discriminate].
      injection Hgroups as <-.
      erewrite ParseFace_loop_fan; [|reflexivity | exact Hrest].
      cbn [lookup_total list_lookup_total].
      destruct g1 as [[? ?] ?], g2 as [[? ?] ?]. reflexivity.
    + injection Hgroups as <-. reflexivity.
  - injection Hgroups as <-. reflexivity.
Qed.

Lemma triangle_fan_length pivot others : forall second,
  length (triangle_fan pivot second others) = length others.
Proof.
  induction others as [|next others IH]; intros second; [reflexivity|].
  cbn [triangle_fan length]. rewrite IH. reflexivity.
Qed.

Lemma triangle_fan_lookup pivot others : forall second i a b,
  (second :: others) !! i = Some a -> others !! i = Some b ->
  triangle_fan pivot second others !! i = Some (triangle pivot a b).
Proof.
  induction others as [|next others IH]; intros second i a b Ha Hb;
    [discriminate|].
  destruct i as [|i]; cbn in Ha, Hb.
  - injection Ha as <-. injection Hb as <-. reflexivity.
  - exact (IH next i a b Ha Hb).
Qed.

(** X16. A face line is turned into a triangle fan: when the line holds
    the index groups g1, g2, ..., gn, [ParseFace] hands the batch the
    triangles (g1, g2, g3), (g1, g3, g4), ..., (g1, g(n-1), gn) in this
    order, n - 2 of them (triangle i is made of g1, g(i+1) and g(i+2)),
    and stops where the batch stops; with no group
    it leaves with "bad first index", with one with "bad second index",
    and with two it leaves the batch as it is. *)
Theorem ParseFace_triangle_fan rounds line line_num src current groups :
  (index_groups strtoint) (S (S rounds)) (after_o line) = Some groups ->
  ParseFace strtoint rounds line line_num src current =
  Some match groups with
       | [] => Exited "bad first index" line_num
       | [_] => Exited "bad second index" line_num
       | pivot :: second :: others =>
           appended
             (AddTriangle_calls
                ((fun raw => (src, raw)) <$> triangle_fan pivot second others)
                current)
       end /\
  (forall pivot second others,
     groups = pivot :: second :: others ->
     length (triangle_fan pivot second others) = (length groups - 2)%nat) /\
  (forall pivot second others i a b,
     groups = pivot :: second :: others ->
     groups !! S i = Some a -> groups !! S (S i) = Some b ->
     triangle_fan pivot second others !! i = Some (triangle pivot a b)).
Proof.
  intros Hgroups. split; [apply ParseFace_groups, Hgroups|]. split.
  - intros pivot second others ->. rewrite triangle_fan_length.
    cbn [length]. lia.
  - intros pivot second others i a b -> Ha Hb.
    exact (triangle_fan_lookup _ _ _ _ _ _ Ha Hb).
Qed.

Lemma ParseIndices_advances line held line' :
  (strtoint_advances strtoint) ->
  (ParseIndices strtoint line held).2 = Some line' ->
  (length line' < length line)%nat.
Proof.
  intros Hadv. unfold ParseIndices.
  destruct (strtoint line) as [value endptr] eqn:H0. cbn [fst snd].
  destruct (Z.eqb_spec value 0) as [|Hnz]; [discriminate|].
  assert (Hslash : forall e rest,
            after_slash e = Some rest ->
            exists c, e = Some (c :: rest)).
  { intros [[|c l]|] rest; cbn; try discriminate.
    destruct (Ascii.eqb c "/"); [|discriminate]. intros [= ->]. eauto. }
  assert (H1 : forall rest, endptr = Some rest ->
            (length rest < length line)%nat).
  { intros rest ->. exact (proj2 (Hadv _ _ _ H0) Hnz). }
  destruct (after_slash endptr) as [rest1|] eqn:Hs1.
  - destruct (Hslash _ _ Hs1) as [c1 ->].
    specialize (H1 _ eq_refl). cbn [length] in H1.
    destruct (strtoint rest1) as [value1 endptr1] eqn:H01. cbn [fst snd].
    assert (H2 : forall rest, endptr1 = Some rest ->
              (length rest <= length rest1)%nat).
    { intros rest ->. exact (proj1 (Hadv _ _ _ H01)). }
    destruct (after_slash endptr1) as [rest2|] eqn:Hs2.
    + destruct (Hslash _ _ Hs2) as [c2 ->].
      specialize (H2 _ eq_refl). cbn [length] in H2.
      destruct (strtoint rest2) as [value2 endptr2] eqn:H02. cbn [fst snd].
      intros ->. pose proof (proj1 (Hadv _ _ _ H02)). lia.
    + cbn [snd]. intros ->. specialize (H2 _ eq_refl). lia.
  - rewrite Hs1. cbn [snd]. intros ->. exact (H1 _ eq_refl).
Qed.

Lemma index_groups_enough : forall rounds line,
  (strtoint_advances strtoint) ->
  (length line < rounds)%nat ->
  exists groups,
    (index_groups strtoint) rounds line = Some groups /\
    (length groups <= length line)%nat.
Proof.
  induction rounds as [|rounds IH]; intros line Hadv Hlen; [lia|].
  cbn [index_groups]. cbv zeta.
  destruct (ParseIndices strtoint line (0, 0, 0)).2 as [line'|] eqn:Hnext.
  - pose proof (ParseIndices_advances _ _ _ Hadv Hnext) as Hlt.
    destruct (IH line' Hadv ltac:(lia)) as (groups & -> & Hg).
    eexists. split; [reflexivity|]. cbn [length]. lia.
  - exists []. split; [reflexivity|]. cbn [length]. lia.
Qed.

(** X17. [ParseFace] comes to an end on every line when the conversion
    of an index advances in the line: as many rounds as the line has
    characters are enough, and the line cannot hold more index groups than
    characters. *)
Theorem ParseFace_ends line line_num src current :
  (strtoint_advances strtoint) ->
  exists groups result,
    (index_groups strtoint) (S (S (length line))) (after_o line) = Some groups /\
    (length groups <= length line)%nat /\
    ParseFace strtoint (length line) line line_num src current = Some result.
Proof.
  intros Hadv.
  assert (Hlen : (length (after_o line) <= length line)%nat).
  { destruct line as [|c rest]; cbn; [lia|].
    destruct (Ascii.eqb c "o"); cbn; lia. }
  destruct (index_groups_enough (S (S (length line))) (after_o line) Hadv
              ltac:(lia)) as (groups & Hgroups & Hg).
  exists groups. eexists. split; [exact Hgroups|]. split; [lia|].
  apply ParseFace_groups, Hgroups.
Qed.

End FacesFacts.

(** ** The examples *)

Example ParseAttrib_examples :
  ParseAttrib digit_strtof (fun _ => float_nan)
    (String.list_ascii_of_string " 1 0 2 2 2 1") [] 3
    {| positions_ := []; texcoords_ := []; normals_ := [] |} =
  Parsed {| positions_ := [float_one; float_zero; float_two];
            texcoords_ := []; normals_ := [] |} /\
  ParseAttrib digit_strtof (fun _ => float_nan)
    (String.list_ascii_of_string "t 1") [] 4
    {| positions_ := []; texcoords_ := []; normals_ := [] |} =
  Parsed {| positions_ := []; texcoords_ := [float_one; float_zero];
            normals_ := [] |} /\
  ParseAttrib digit_strtof (fun _ => float_nan)
    (String.list_ascii_of_string "n 1 0") [] 5
    {| positions_ := []; texcoords_ := []; normals_ := [] |} =
  Exited "bad normal" 5 /\
  ParseAttrib digit_strtof (fun _ => float_nan)
    [] [Ascii.zero] 6
    {| positions_ := []; texcoords_ := []; normals_ := [] |} =
  Warned "unknown attribute format" 6
    {| positions_ := []; texcoords_ := []; normals_ := [] |} /\
  ParseAttrib digit_strtof (fun _ => float_nan)
    [] [] 7
    {| positions_ := []; texcoords_ := []; normals_ := [] |} =
  Stopped undefined_access.
Proof. repeat split. Qed.

Lemma ParseFace_triangle_fan_witness :
  index_groups decimal_strtoint 12 (after_o quad_face) =
    Some [(1, 1, 1); (2, 2, 0); (3, 0, 1); (4, 2, 0)] /\
  ParseFace decimal_strtoint 10 quad_face 7 quad_sources DrawBatch_new =
    Some (appended (AddTriangle_calls quad_calls DrawBatch_new)).
Proof.
  assert (H : index_groups decimal_strtoint 12 (after_o quad_face) =
              Some [(1, 1, 1); (2, 2, 0); (3, 0, 1); (4, 2, 0)])
    by reflexivity.
  split; [exact H|].
  exact (proj1 (ParseFace_triangle_fan decimal_strtoint 10 quad_face 7
                  quad_sources DrawBatch_new _ H)).
Defined.

Lemma skip_spaces_length line : (length (skip_spaces line) <= length line)%nat.
Proof.
  induction line as [|c rest IH]; cbn; [lia|].
  destruct (isspace c); cbn; lia.
Qed.

Lemma read_digits_length line : forall value,
  (length (read_digits value line).2 <= length line)%nat.
Proof.
  induction line as [|c rest IH]; intros value; cbn; [lia|].
  destruct (digit_of c); cbn; [|lia]. specialize (IH (10 * value + z)). lia.
Qed.

Lemma decimal_strtoint_advances : strtoint_advances decimal_strtoint.
Proof.
  intros line value rest. unfold decimal_strtoint.
  pose proof (skip_spaces_length line) as Hskip.
  destruct (skip_spaces line) as [|c l]; [intros [= <- <-]; split; [lia | congruence]|].
  destruct (digit_of c) as [d|]; [|intros [= <- <-]; split; [lia | congruence]].
  intros [= <- <-]. pose proof (read_digits_length l d). cbn in Hskip.
  split; [|intros _]; lia.
Qed.

Lemma ParseFace_ends_witness :
  strtoint_advances decimal_strtoint /\
  exists result,
    ParseFace decimal_strtoint (length quad_face) quad_face 7 quad_sources
      DrawBatch_new = Some result.
Proof.
  split; [exact decimal_strtoint_advances|].
  destruct (ParseFace_ends decimal_strtoint quad_face 7 quad_sources
              DrawBatch_new decimal_strtoint_advances)
    as (groups & result & _ & _ & Hrun).
  exists result. exact Hrun.
Defined.

(** ** Facts about the files *)

Lemma fgets_chars_app room : forall stream,
  (fgets_chars room stream).1 ++ (fgets_chars room stream).2 = stream.
Proof.
  induction room as [|room IH]; intros [|c rest]; cbn [fgets_chars];
    try reflexivity.
  destruct (Ascii.eqb c "010"); cbn [fst snd app]; [reflexivity|].
  rewrite IH. reflexivity.
Qed.

Lemma fgets_chars_takes room c rest :
  (length (fgets_chars (S room) (c :: rest)).2 <= length rest)%nat.
Proof.
  pose proof (fgets_chars_app (S room) (c :: rest)) as Happ.
  apply (f_equal length) in Happ. rewrite length_app in Happ.
  cbn [fgets_chars] in *. destruct (Ascii.eqb c "010"); cbn in *; lia.
Qed.

(** The rounds given to [file_buffers] are enough: the buffers are the
    whole file, in order. *)
Lemma file_buffers_from_all rounds : forall stream,
  (length stream <= rounds)%nat ->
  concat (file_buffers_from rounds stream) = stream.
Proof.
  induction rounds as [|rounds IH]; intros [|c rest] Hlen; cbn in Hlen;
    try reflexivity; try lia.
  cbn [file_buffers_from fgets]. change (kLineBufferSize - 1)%nat with (S 254).
  cbn [concat]. rewrite IH.
  - apply fgets_chars_app.
  - pose proof (fgets_chars_takes 254 c rest). lia.
Qed.

Lemma file_buffers_all stream : concat (file_buffers stream) = stream.
Proof. apply file_buffers_from_all. reflexivity. Qed.

Lemma fgets_chars_nonempty room c rest :
  (0 < length (fgets_chars (S room) (c :: rest)).1)%nat.
Proof.
  cbn [fgets_chars]. destruct (Ascii.eqb c "010"); cbn [fst length]; lia.
Qed.

(** What [fgets] stores fits the buffer, and a newline ends it. *)
Lemma fgets_chars_buffer room : forall stream,
  (length (fgets_chars room stream).1 <= room)%nat /\
  (forall i, (fgets_chars room stream).1 !! i = Some "010"%char ->
     S i = length (fgets_chars room stream).1).
Proof.
  induction room as [|room IH]; intros [|c rest]; cbn [fgets_chars fst length];
    try (split; [lia | intros i Hi; discriminate]).
  destruct (Ascii.eqb_spec c "010") as [->|Hc]; cbn [fst length].
  - split; [lia|]. intros [|i] Hi; [reflexivity | discriminate].
  - destruct (IH rest) as [Hlen Hnl]. split; [lia|].
    intros [|i] Hi; cbn in Hi; [congruence|]. rewrite (Hnl i Hi). reflexivity.
Qed.

Lemma file_buffers_from_buffers rounds : forall stream,
  Forall (fun buffer =>
            (0 < length buffer < kLineBufferSize)%nat /\
            forall i, buffer !! i = Some "010"%char -> S i = length buffer)
    (file_buffers_from rounds stream).
Proof.
  induction rounds as [|rounds IH]; intros [|c rest];
    cbn [file_buffers_from fgets]; try constructor; [|apply IH].
  change (kLineBufferSize - 1)%nat with (S 254).
  destruct (fgets_chars_buffer (S 254) (c :: rest)) as [Hlen Hnl].
  split; [|exact Hnl]. unfold kLineBufferSize.
  pose proof (fgets_chars_nonempty 254 c rest). lia.
Qed.

Lemma file_buffers_from_enough rounds : forall stream n,
  (length stream <= rounds)%nat -> (length stream <= n)%nat ->
  file_buffers_from rounds stream = file_buffers_from n stream.
Proof.
  induction rounds as [|rounds IH]; intros [|c rest] [|n] Hle Hn;
    cbn [length] in Hn, Hle; try lia; try reflexivity.
  cbn [file_buffers_from fgets]. f_equal.
  change (kLineBufferSize - 1)%nat with (S 254).
  pose proof (fgets_chars_takes 254 c rest).
  apply IH; lia.
Qed.

(** X18. The loop of [ParseFile] hands its lines the file cut into
    consecutive pieces: put end to end, the buffers [fgets] fills are the
    file; a buffer holds at least one character and fewer than 256, and a
    newline only as its last character.  So nothing of the file is lost,
    and a line of 255 characters or more is parsed as several lines. *)
Theorem file_buffers_whole_file (stream : list ascii) :
  concat (file_buffers stream) = stream /\
  Forall (fun buffer =>
            (0 < length buffer < kLineBufferSize)%nat /\
            forall i, buffer !! i = Some "010"%char -> S i = length buffer)
    (file_buffers stream) /\
  (forall rounds, (length stream <= rounds)%nat ->
     file_buffers_from rounds stream = file_buffers stream).
Proof.
  split; [apply file_buffers_all|].
  split; [apply file_buffers_from_buffers|].
  intros rounds Hle. apply file_buffers_from_enough; [exact Hle | reflexivity].
Qed.

(** ** Facts about the material file parser *)

Section MtlFacts.

Variable stripLeadingWhitespace : list ascii -> list ascii.

Variable strtof : list ascii -> float * nat.

Variable garbage : nat -> float.

Lemma with_current_last f m :
  current_is_last m -> WavefrontMtlFile.materials_ m <> [] ->
  exists material,
    list.last (WavefrontMtlFile.materials_ m) = Some material /\
    WavefrontMtlFile.with_current f m =
    Done {| WavefrontMtlFile.materials_ :=
              removelast (WavefrontMtlFile.materials_ m) ++ [f material];
            WavefrontMtlFile.current_ := WavefrontMtlFile.current_ m |}.
Proof.
  unfold current_is_last, WavefrontMtlFile.with_current.
  destruct m as [materials [i|]]; cbn; [|congruence].
  intros Hi _.
  destruct materials as [|m0 materials _] using rev_ind; [discriminate|].
  rewrite length_app in Hi. cbn in Hi. assert (i = length materials) as -> by lia.
  exists m0. rewrite last_snoc, list_lookup_middle by reflexivity.
  split; [reflexivity|]. do 2 f_equal.
  rewrite removelast_last.
  replace (length materials) with (length materials + 0)%nat by lia.
  rewrite insert_app_r. reflexivity.
Qed.

Lemma with_current_none f m :
  WavefrontMtlFile.current_ m = None ->
  WavefrontMtlFile.with_current f m = Abort undefined_access.
Proof. unfold WavefrontMtlFile.with_current. intros ->. reflexivity. Qed.

Lemma ParseNewmtl_Done line line_num m :
  WavefrontMtlFile.ParseNewmtl stripLeadingWhitespace line line_num m =
  Done {| WavefrontMtlFile.materials_ :=
            WavefrontMtlFile.materials_ m ++
            [{| name := String.string_of_list_ascii
                          (stripLeadingWhitespace line);
                Kd := fun _ => float_zero;
                map_Kd := "" |}];
          WavefrontMtlFile.current_ :=
            Some (length (WavefrontMtlFile.materials_ m)) |}.
Proof.
  unfold WavefrontMtlFile.ParseNewmtl, WavefrontMtlFile.with_current.
  cbn [WavefrontMtlFile.current_ WavefrontMtlFile.materials_].
  rewrite list_lookup_middle by reflexivity.
  replace (length (WavefrontMtlFile.materials_ m))
    with (length (WavefrontMtlFile.materials_ m) + 0)%nat at 1 by lia.
  rewrite insert_app_r. reflexivity.
Qed.

Lemma prefix_of_take (word line : list ascii) :
  word `prefix_of` line <-> take (length word) line = word.
Proof.
  split.
  - intros [k ->]. apply take_app_length.
  - intros H. exists (drop (length word) line).
    rewrite <- (take_drop (length word) line) at 1. rewrite H. reflexivity.
Qed.

Lemma writes_material_take line :
  writes_material line <->
  take 2 line = ["K"; "d"]%char \/
  take 6 line = ["m"; "a"; "p"; "_"; "K"; "d"]%char.
Proof. unfold writes_material. rewrite !prefix_of_take. reflexivity. Qed.

(** X19. The material parser writes through [current_], which points to
    nothing until the first [newmtl] line.  Before that line, a line
    stops the parser exactly when it starts with [Kd] or with [map_Kd]:
    it is a write through an uninitialized pointer, and there is no
    other way to stop.  Afterwards no line stops; a line changes the last
    material or appends a new one, and never touches the materials before
    the last. *)
Theorem WavefrontMtlFile_ParseLine_last (line : list ascii) (line_num : Z)
    (m : WavefrontMtlFile.WavefrontMtlFile) :
  current_is_last m ->
  let r := WavefrontMtlFile.ParseLine stripLeadingWhitespace strtof garbage
             line line_num m in
  (forall e, r = Abort e <->
     e = undefined_access /\ WavefrontMtlFile.materials_ m = [] /\
     writes_material line) /\
  (WavefrontMtlFile.materials_ m <> [] -> exists m', r = Done m') /\
  (forall m', r = Done m' ->
     current_is_last m' /\
     (length (WavefrontMtlFile.materials_ m) <=
      length (WavefrontMtlFile.materials_ m') <=
      length (WavefrontMtlFile.materials_ m) + 1)%nat /\
     forall i, (S i < length (WavefrontMtlFile.materials_ m))%nat ->
       WavefrontMtlFile.materials_ m' !! i =
       WavefrontMtlFile.materials_ m !! i).
Proof.
  intros Hlast. cbv zeta.
  pose (Q := fun r : outcome WavefrontMtlFile.WavefrontMtlFile =>
          (forall e, r = Abort e <->
             e = undefined_access /\ WavefrontMtlFile.materials_ m = [] /\
             writes_material line) /\
          (WavefrontMtlFile.materials_ m <> [] -> exists m', r = Done m') /\
          (forall m', r = Done m' ->
             current_is_last m' /\
             (length (WavefrontMtlFile.materials_ m) <=
              length (WavefrontMtlFile.materials_ m') <=
              length (WavefrontMtlFile.materials_ m) + 1)%nat /\
             forall i, (S i < length (WavefrontMtlFile.materials_ m))%nat ->
               WavefrontMtlFile.materials_ m' !! i =
               WavefrontMtlFile.materials_ m !! i)).
  change (Q (WavefrontMtlFile.ParseLine stripLeadingWhitespace strtof garbage
               line line_num m)).
  assert (Hsame : ~ writes_material line -> Q (Done m)).
  { intros Hno. split.
    { intros e. split; [discriminate | intros (_ & _ & Hw); contradiction]. }
    split; [eauto|].
    intros m' [= <-]. split; [exact Hlast|]. split; [lia | reflexivity]. }
  assert (Hwrite : forall f, writes_material line ->
            Q (WavefrontMtlFile.with_current f m)).
  { intros f Hw.
    destruct (decide (WavefrontMtlFile.materials_ m = [])) as [Hnil|Hne].
    - assert (Hnone : WavefrontMtlFile.current_ m = None).
      { unfold current_is_last in Hlast.
        destruct (WavefrontMtlFile.current_ m); [|reflexivity].
        rewrite Hnil in Hlast. discriminate. }
      rewrite (with_current_none _ _ Hnone). split.
      { intros e. split; [intros [= <-]; auto | intros (-> & _); reflexivity]. }
      split; [contradiction | discriminate].
    - destruct (with_current_last f m Hlast Hne) as (material & Hl & ->).
      split.
      { intros e. split; [discriminate | intros (_ & Hnil & _); contradiction]. }
      split; [eauto|].
      intros m' [= <-]. cbn [WavefrontMtlFile.materials_ WavefrontMtlFile.current_].
      assert (Hlen : length (removelast (WavefrontMtlFile.materials_ m) ++ [f material]) =
                     length (WavefrontMtlFile.materials_ m)).
      { destruct (WavefrontMtlFile.materials_ m) as [|m0 l _] using rev_ind;
          [contradiction|].
        rewrite removelast_last, !length_app. reflexivity. }
      split; [|split; [lia|]].
      + unfold current_is_last in *.
        cbn [WavefrontMtlFile.materials_ WavefrontMtlFile.current_].
        destruct (WavefrontMtlFile.current_ m); [lia | contradiction].
      + intros i Hi.
        destruct (WavefrontMtlFile.materials_ m) as [|m0 l _] using rev_ind;
          [contradiction|].
        rewrite removelast_last. rewrite length_app in Hi. cbn in Hi.
        rewrite !lookup_app_l by lia. reflexivity. }
  unfold WavefrontMtlFile.ParseLine.
  destruct line as [|c rest].
  { apply Hsame. rewrite writes_material_take. cbn [take].
    intros [H|H]; discriminate. }
  destruct (Ascii.eqb_spec c "K") as [->|HK].
  { unfold WavefrontMtlFile.ParseColor.
    destruct rest as [|c' rest'].
    { apply Hsame. rewrite writes_material_take. cbn [take].
      intros [H|H]; discriminate. }
    destruct (Ascii.eqb_spec c' "d") as [->|Hd].
    - apply Hwrite, writes_material_take. left. reflexivity.
    - apply Hsame. rewrite writes_material_take. cbn [take].
      intros [H|H]; [|discriminate].
      injection H as H. exact (Hd H). }
  destruct (Ascii.eqb_spec c "m") as [->|Hm].
  { unfold WavefrontMtlFile.strncmp5.
    destruct (decide (take 5 rest = String.list_ascii_of_string "ap_Kd"))
      as [Hw|Hw].
    - rewrite bool_decide_eq_true_2 by exact Hw.
      unfold WavefrontMtlFile.ParseMapKd. apply Hwrite, writes_material_take.
      right. cbn [take]. f_equal. exact Hw.
    - rewrite bool_decide_eq_false_2 by exact Hw.
      apply Hsame. rewrite writes_material_take. cbn [take].
      intros [H|H]; [discriminate|].
      injection H as H. exact (Hw H). }
  assert (Hno : ~ writes_material (c :: rest)).
  { rewrite writes_material_take. cbn [take]. intros [H|H].
    - destruct rest; [discriminate|]. injection H as H _. exact (HK H).
    - injection H as H _. exact (Hm H). }
  destruct (Ascii.eqb_spec c "n") as [->|_]; [|exact (Hsame Hno)].
  destruct (WavefrontMtlFile.strncmp5 rest "ewmtl"); [|exact (Hsame Hno)].
  rewrite ParseNewmtl_Done. unfold Q. split.
  { intros e. split; [discriminate | intros (_ & _ & Hw); contradiction]. }
  split; [eauto|].
  intros m' [= <-]. cbn [WavefrontMtlFile.materials_ WavefrontMtlFile.current_].
  split; [|split].
  - unfold current_is_last.
    cbn [WavefrontMtlFile.materials_ WavefrontMtlFile.current_].
    rewrite length_app. cbn. lia.
  - rewrite length_app. cbn. lia.
  - intros i Hi. rewrite lookup_app_l by lia. reflexivity.
Qed.

End MtlFacts.

Lemma WavefrontMtlFile_ParseLine_last_witness :
  current_is_last
    {| WavefrontMtlFile.materials_ := []; WavefrontMtlFile.current_ := None |} /\
  WavefrontMtlFile.ParseLine skip_spaces digit_strtof (fun _ => float_nan)
    (String.list_ascii_of_string "Kd 1 0 0") 1
    {| WavefrontMtlFile.materials_ := []; WavefrontMtlFile.current_ := None |} =
  Abort undefined_access /\
  WavefrontMtlFile.ParseLine skip_spaces digit_strtof (fun _ => float_nan)
    (String.list_ascii_of_string "map_Kd red.png") 1
    {| WavefrontMtlFile.materials_ := []; WavefrontMtlFile.current_ := None |} =
  Abort undefined_access.
Proof.
  assert (H : current_is_last
                {| WavefrontMtlFile.materials_ := [];
                   WavefrontMtlFile.current_ := None |}) by reflexivity.
  split; [exact H|]. split.
  - apply (proj2 (proj1 (WavefrontMtlFile_ParseLine_last skip_spaces
                           digit_strtof (fun _ => float_nan)
                           (String.list_ascii_of_string "Kd 1 0 0") 1 _ H)
                    undefined_access)).
    split; [reflexivity|]. split; [reflexivity|]. left.
    exists (String.list_ascii_of_string " 1 0 0"). reflexivity.
  - apply (proj2 (proj1 (WavefrontMtlFile_ParseLine_last skip_spaces
                           digit_strtof (fun _ => float_nan)
                           (String.list_ascii_of_string "map_Kd red.png") 1 _ H)
                    undefined_access)).
    split; [reflexivity|]. split; [reflexivity|]. right.
    exists (String.list_ascii_of_string " red.png"). reflexivity.
Defined.

(** ** Facts about the .OBJ parser *)

Lemma elem_of_line_errors why :
  why ∈ line_errors <->
  why = "bad position"%string \/ why = "bad texcoord"%string \/
  why = "bad normal"%string \/ why = "bad first index"%string \/
  why = "bad second index"%string.
Proof.
  unfold line_errors. rewrite !elem_of_cons, elem_of_nil. tauto.
Qed.

Lemma ParseAttrib_exits strtof garbage line behind line_num src why n :
  ParseAttrib strtof garbage line behind line_num src = Exited why n ->
  why ∈ line_errors.
Proof.
  rewrite elem_of_line_errors. unfold ParseAttrib.
  destruct (string_behind line behind) as [rest|]; [|discriminate].
  cbv zeta. unfold ParsePosition, ParseTexCoord, ParseNormal, appended.
  repeat match goal with
         | |- context [if ?b then _ else _] => destruct b
         | |- context [match ?x with Done _ => _ | Abort _ => _ end] =>
             destruct x
         end; intros [= <- _] || discriminate; auto.
Qed.

Section ObjFacts.

Variable stripLeadingWhitespace : list ascii -> list ascii.

Variable terminateAtNewline : list ascii -> list ascii.

Variable strtof : list ascii -> float * nat.

Variable garbage : nat -> float.

Variable strtoint : list ascii -> Z * option (list ascii).

Variable files : gmap string (list Byte.byte).

Lemma ParseFace_loop_results rounds : forall line indices src current r,
  ParseFace_loop strtoint rounds line indices src current = Some r ->
  (exists b, r = Parsed b) \/ (exists e, r = Stopped e).
Proof.
  induction rounds as [|rounds IH]; intros line indices src current r;
    [discriminate|].
  cbn [ParseFace_loop]. cbv zeta.
  destruct (ParseIndices strtoint line _).2; [|intros [= <-]; eauto].
  destruct (AddTriangle src _ current); [apply IH | intros [= <-]; eauto].
Qed.

Lemma ParseFace_results rounds line line_num src current r :
  ParseFace strtoint rounds line line_num src current = Some r ->
  (exists b, r = Parsed b) \/ (exists e, r = Stopped e) \/
  (exists why, r = Exited why line_num /\ why ∈ line_errors).
Proof.
  unfold ParseFace. cbv zeta.
  destruct (ParseIndices strtoint _ _).2.
  - destruct (ParseIndices strtoint _ _).2.
    + intros Hrun. apply ParseFace_loop_results in Hrun. tauto.
    + intros [= <-]. right. right. eexists. split; [reflexivity|].
      apply elem_of_line_errors. auto.
  - intros [= <-]. right. right. eexists. split; [reflexivity|].
    apply elem_of_line_errors. auto.
Qed.

Lemma batches_inv_set_buffers src o :
  batches_inv o -> batches_inv (WavefrontObjFile.set_buffers src o).
Proof. intros H. exact H. Qed.

Lemma batches_inv_set_current_batch b o :
  batches_inv o -> batches_inv (WavefrontObjFile.set_current_batch b o).
Proof.
  intros (Hcur & Hnone & Hall). unfold batches_inv. cbn.
  assert (Hkeep : forall key,
            is_Some (WavefrontObjFile.texture_batches_ o !! key) ->
            is_Some (<[WavefrontObjFile.current_ o := b]>
                       (WavefrontObjFile.texture_batches_ o) !! key)).
  { intros key Hk. rewrite lookup_insert_is_Some. 
    destruct (decide (WavefrontObjFile.current_ o = key)); auto. }
  split; [apply Hkeep, Hcur|]. split; [apply Hkeep, Hnone|].
  intros material texture Hm. apply Hkeep, (Hall _ _ Hm).
Qed.

Lemma batches_inv_add_material o material :
  batches_inv o -> batches_inv (WavefrontObjFile.add_material o material).
Proof.
  intros (Hcur & Hnone & Hall). unfold batches_inv. cbn.
  set (batches := if decide (map_Kd material = ""%string) then _ else _).
  assert (Hkeep : forall key,
            is_Some (WavefrontObjFile.texture_batches_ o !! key) ->
            is_Some (batches !! key)).
  { intros key Hk. subst batches.
    destruct (decide (map_Kd material = ""%string)); [exact Hk|].
    destruct (WavefrontObjFile.texture_batches_ o !! map_Kd material) eqn:Ht;
      [exact Hk|].
    rewrite lookup_insert_is_Some.
    destruct (decide (map_Kd material = key)); auto. }
  split; [apply Hkeep, Hcur|]. split; [apply Hkeep, Hnone|].
  intros m texture Hm. apply lookup_insert_Some in Hm as [[_ <-]|[_ Hm]].
  - subst batches.
    destruct (decide (map_Kd material = ""%string)) as [->|_]; [exact Hnone|].
    destruct (WavefrontObjFile.texture_batches_ o !! map_Kd material) eqn:Ht;
      [rewrite Ht; eauto|].
    rewrite lookup_insert_eq. eauto.
  - apply Hkeep, (Hall _ _ Hm).
Qed.

Lemma batches_inv_add_materials materials : forall o,
  batches_inv o -> batches_inv (foldl WavefrontObjFile.add_material o materials).
Proof.
  induction materials as [|material materials IH]; intros o Hinv; [exact Hinv|].
  cbn [foldl]. apply IH, batches_inv_add_material, Hinv.
Qed.

Lemma ParseLine_line_ok rounds line behind line_num o r :
  batches_inv o ->
  WavefrontObjFile.ParseLine stripLeadingWhitespace terminateAtNewline strtof
    garbage strtoint files rounds line behind line_num o = Some r ->
  line_ok r.
Proof.
  intros Hinv. unfold WavefrontObjFile.ParseLine.
  destruct line as [|c rest]; [intros [= <-]; exact Hinv|].
  destruct (Ascii.eqb c "v").
  { intros [= <-].
    destruct (ParseAttrib strtof garbage rest behind line_num
                (WavefrontObjFile.buffers o)) eqn:Ha; cbn;
      try exact Hinv; try exact I.
    eapply ParseAttrib_exits, Ha. }
  destruct (Ascii.eqb c "f").
  { unfold WavefrontObjFile.on_current_batch.
    destruct (WavefrontObjFile.texture_batches_ o !! _);
      [|intros [= <-]; exact I].
    destruct (ParseFace strtoint rounds rest line_num _ d) as [rf|] eqn:Hf;
      [|discriminate].
    apply ParseFace_results in Hf
      as [[b ->]|[[e ->]|(why & -> & Hwhy)]]; intros [= <-]; cbn;
      [apply batches_inv_set_current_batch, Hinv | exact I | exact Hwhy]. }
  destruct (Ascii.eqb c "g").
  { intros [= <-]. unfold WavefrontObjFile.ParseGroup.
    destruct (WavefrontObjFile.group_once o); exact Hinv. }
  destruct (Ascii.eqb c "#"); [intros [= <-]; exact Hinv|].
  destruct (Ascii.eqb c "p"); [intros [= <-]; exact Hinv|].
  destruct (Ascii.eqb c "l"); [intros [= <-]; exact Hinv|].
  destruct (Ascii.eqb c "u").
  { destruct (WavefrontMtlFile.strncmp5 rest "semtl");
      [|intros [= <-]; exact Hinv].
    intros [= <-]. unfold WavefrontObjFile.ParseUsemtl. cbv zeta.
    destruct Hinv as (Hcur & Hnone & Hall).
    set (texture := default ""%string _).
    assert (Ht : is_Some (WavefrontObjFile.texture_batches_ o !! texture)).
    { subst texture.
      destruct (WavefrontObjFile.material_textures_ o !! _) as [t|] eqn:Hm;
        [exact (Hall _ _ Hm) | exact Hnone]. }
    destruct Ht as [b Hb]. rewrite Hb.
    split; [cbn; rewrite Hb; eauto|]. split; [exact Hnone | exact Hall]. }
  destruct (Ascii.eqb c "m").
  { destruct (WavefrontMtlFile.strncmp5 rest "tllib");
      [|intros [= <-]; exact Hinv].
    intros [= <-]. unfold WavefrontObjFile.ParseMtllib.
    destruct (files !! _); [|exact Hinv].
    destruct (WavefrontMtlFile.new _ _ _ _ _); [|exact I].
    apply batches_inv_add_materials, Hinv. }
  destruct (Ascii.eqb c "s").
  { intros [= <-]. unfold WavefrontObjFile.ParseSmoothingGroup.
    destruct (WavefrontObjFile.smoothing_group_once o); exact Hinv. }
  intros [= <-]. exact Hinv.
Qed.

Lemma ParseFile_lines_line_ok buffers : forall buffer line_num warnings o r,
  batches_inv o ->
  WavefrontObjFile.ParseFile_lines stripLeadingWhitespace terminateAtNewline
    strtof garbage strtoint files buffers buffer line_num warnings o = Some r ->
  line_ok r.2.
Proof.
  induction buffers as [|read buffers IH];
    intros buffer line_num warnings o r Hinv;
    cbn [WavefrontObjFile.ParseFile_lines]; [intros [= <-]; exact Hinv|].
  cbv zeta.
  destruct (WavefrontObjFile.ParseLine _ _ _ _ _ _ _ _ _ _ o) as [rl|] eqn:Hl;
    [|discriminate].
  pose proof (ParseLine_line_ok _ _ _ _ _ _ Hinv Hl) as Hok.
  destruct rl as [o'|why n o'|why n|e].
  - apply IH, Hok.
  - apply IH, Hok.
  - intros [= <-]. exact Hok.
  - intros [= <-]. exact I.
Qed.

(** X20. The error "texture not found" of [ParseUsemtl] never occurs:
    through a whole .OBJ file, [current_] points to a batch of
    [texture_batches_], the batch of the empty texture is there and so is
    the batch of the texture of every material read, so [usemtl] always
    finds its batch -- that of the empty texture for a material that is
    not known.  When the parser leaves with an error, the message is one
    of the five of the attribute and face lines. *)
Theorem ParseUsemtl_finds_batch (fp : list ascii)
    (group_once smoothing_group_once : bool) warnings r :
  WavefrontObjFile.new stripLeadingWhitespace terminateAtNewline strtof garbage
    strtoint files fp group_once smoothing_group_once = Some (warnings, r) ->
  (forall o, r = Parsed o -> batches_inv o) /\
  (forall why n, r = Exited why n ->
     why <> "texture not found"%string /\ why ∈ line_errors) /\
  (forall o line line_num,
     batches_inv o ->
     exists o',
       WavefrontObjFile.ParseUsemtl stripLeadingWhitespace line line_num o =
         Parsed o' /\
       batches_inv o' /\
       (WavefrontObjFile.material_textures_ o !!
          String.string_of_list_ascii (stripLeadingWhitespace line) = None ->
        WavefrontObjFile.current_ o' = ""%string)).
Proof.
  intros Hrun. unfold WavefrontObjFile.new, WavefrontObjFile.ParseFile in Hrun.
  apply ParseFile_lines_line_ok in Hrun.
  2:{ unfold batches_inv. cbn. rewrite lookup_singleton_eq.
      split; [eauto|]. split; [eauto|]. intros material texture Hm.
      rewrite lookup_empty in Hm. discriminate. }
  cbn [snd] in Hrun. split; [|split].
  - intros o ->. exact Hrun.
  - intros why n ->. cbn in Hrun. split; [|exact Hrun].
    apply elem_of_line_errors in Hrun. intros ->.
    destruct Hrun as [?|[?|[?|[?|?]]]]; discriminate.
  - intros o line line_num (Hcur & Hnone & Hall).
    unfold WavefrontObjFile.ParseUsemtl. cbv zeta.
    set (texture := default ""%string _).
    assert (Ht : is_Some (WavefrontObjFile.texture_batches_ o !! texture)).
    { subst texture.
      destruct (WavefrontObjFile.material_textures_ o !! _) as [t|] eqn:Hm;
        [exact (Hall _ _ Hm) | exact Hnone]. }
    destruct Ht as [b Hb]. rewrite Hb. eexists. split; [reflexivity|].
    split; [split; [cbn; rewrite Hb; eauto|]; split; [exact Hnone | exact Hall]|].
    cbn. subst texture. intros ->. reflexivity.
Qed.

End ObjFacts.

Example triangle_obj_parsed :
  match WavefrontObjFile.new skip_spaces until_newline digit_strtof
          (fun _ => float_nan) decimal_strtoint {[ "red.mtl"%string := red_mtl ]}
          triangle_obj true true with
  | Some (warnings, Parsed o) =>
      Some (warnings, WavefrontObjFile.current_ o,
            positions_ (WavefrontObjFile.buffers o),
            indices ∘ draw_mesh_ <$>
              WavefrontObjFile.texture_batches_ o !! "red.png"%string)
  | _ => None
  end =
  Some ([("group unsupported"%string, 7)], "red.png"%string,
        [float_zero; float_zero; float_zero; float_one; float_zero; float_zero;
         float_one; float_one; float_zero],
        Some [0; 1; 2]).
Proof. vm_compute. reflexivity. Qed.

(** A line of 255 characters with [v] as the last: the floats of the
    attribute are read from behind the line buffer.  With one blank less,
    or with the newline as the last character, the read finds the
    terminator [fgets] has stored. *)
Example long_line_stops :
  WavefrontObjFile.new skip_spaces until_newline digit_strtof
    (fun _ => float_nan) decimal_strtoint ∅
    (replicate 254 " "%char ++ ["v"%char]) true true =
  Some ([], Stopped undefined_access) /\
  match WavefrontObjFile.new skip_spaces until_newline digit_strtof
          (fun _ => float_nan) decimal_strtoint ∅
          (replicate 253 " "%char ++ ["v"%char]) true true with
  | Some (warnings, Parsed _) => warnings
  | _ => []
  end = [("unknown attribute format"%string, 1)] /\
  match WavefrontObjFile.new skip_spaces until_newline digit_strtof
          (fun _ => float_nan) decimal_strtoint ∅
          (replicate 253 " "%char ++ ["v"%char; "010"%char]) true true with
  | Some (warnings, Parsed _) => warnings
  | _ => []
  end = [("unknown attribute format"%string, 1)].
Proof. vm_compute. repeat split. Qed.

Lemma ParseUsemtl_finds_batch_witness :
  exists warnings o,
    WavefrontObjFile.new skip_spaces until_newline digit_strtof
      (fun _ => float_nan) decimal_strtoint {[ "red.mtl"%string := red_mtl ]}
      triangle_obj true true = Some (warnings, Parsed o) /\
    batches_inv o.
Proof.
  destruct (WavefrontObjFile.new skip_spaces until_newline digit_strtof
              (fun _ => float_nan) decimal_strtoint
              {[ "red.mtl"%string := red_mtl ]} triangle_obj true true)
    as [[warnings [o|why n o|why n|e]]|] eqn:Hrun;
    try (vm_compute in Hrun; discriminate).
  exists warnings, o. split; [reflexivity|].
  exact (proj1 (ParseUsemtl_finds_batch _ _ _ _ _ _ _ _ _ _ _ Hrun) o eq_refl).
Defined.
